(** * Cell transformations of tbplas/builder/factory.py

    A shallow embedding of [extend_prim_cell], [reshape_prim_cell],
    [trim_prim_cell] and [apply_pbc], and the properties of the
    specification that concern them.

    Floating-point arithmetic is kept abstract: the functions are written
    over any type [R] carrying the operations the Python code uses
    (class [Float64]).  Structural theorems hold for every interpretation of
    these operations.  Two interpretations are given: the exact rationals
    (instance [Q_Float64]), which agree with the Python code wherever no
    operation rounds, and IEEE binary64 (instance [B64.B64_Float64]), on
    which the code is evaluated where rounding decides the outcome. *)

From Stdlib Require Import ZArith QArith Qround Lia.
From Stdlib Require PrimFloat SpecFloat FloatOps.
From stdpp Require Import base numbers list sorting gmap.

Set Default Proof Using "Type".

(** ** Exceptions and the error monad *)

Inductive exn : Type :=
  | CoordLenError
  | ValueError
  | KeyError
  | IndexError
  | LinAlgError
  | PCOrbIndexError.

Inductive result (A : Type) : Type :=
  | Ok (a : A)
  | Raise (e : exn).
Arguments Ok {A} a.
Arguments Raise {A} e.

#[global] Instance result_ret : MRet result := @Ok.
#[global] Instance result_bind : MBind result := λ A B f m,
  match m with
  | Ok a => f a
  | Raise e => Raise e
  end.

(** [for_each body xs s] runs a Python [for x in xs] loop whose body may
    raise, threading the loop state [s]. *)
Fixpoint for_each {A S : Type} (body : S → A → result S) (xs : list A) (s : S)
  : result S :=
  match xs with
  | [] => Ok s
  | x :: xs' => s' ← body s x; for_each body xs' s'
  end.

(** Subscripting a list ([l[i]]); out of range raises. *)
Definition subscript {A : Type} (l : list A) (i : nat) : result A :=
  match l !! i with
  | Some x => Ok x
  | None => Raise IndexError
  end.

(** Subscripting a dict ([d[k]]); a missing key raises. *)
Definition getitem `{Countable K} {A : Type} (d : gmap K A) (k : K) : result A :=
  match d !! k with
  | Some x => Ok x
  | None => Raise KeyError
  end.

(** [range(n)] and [range(lo, hi + 1)]. *)
Definition range (n : Z) : list Z := seqZ 0 n.
Definition range_incl (lo hi : Z) : list Z := seqZ lo (hi + 1 - lo).

(** [enumerate(l)]. *)
Definition enumerate {A : Type} (l : list A) : list (nat * A) :=
  imap (λ i x, (i, x)) l.

(** Two's-complement wrap-around of a [w]-bit signed integer. *)
Definition wrap_int (w : Z) (z : Z) : Z :=
  ((z + 2 ^ (w - 1)) `mod` 2 ^ w - 2 ^ (w - 1))%Z.
Definition int32 : Z → Z := wrap_int 32.
Definition int64 : Z → Z := wrap_int 64.

(** ** Vectors, matrices and the floating-point interface *)

Definition vec3 (A : Type) : Type := (A * A * A)%type.
Definition mat3 (A : Type) : Type := vec3 (vec3 A).

Definition vmap {A B : Type} (f : A → B) (v : vec3 A) : vec3 B :=
  let '(x, y, z) := v in (f x, f y, f z).
Definition vzip {A B C : Type} (f : A → B → C) (u : vec3 A) (v : vec3 B) : vec3 C :=
  let '(x, y, z) := u in let '(x', y', z') := v in (f x x', f y y', f z z').

Class Float64 (R : Type) : Type := {
  (** conversion of a Python int *)
  of_int : Z → R;
  fadd : R → R → R;
  fsub : R → R → R;
  fmul : R → R → R;
  fdiv : R → R → R;
  math_floor : R → Z;
  math_ceil : R → Z;
  (** [np.linalg.norm(v) <= tol] *)
  linalg_norm_le : vec3 R → R → bool;
  (** [np.linalg.inv]; [None] when it raises [LinAlgError] *)
  linalg_inv : mat3 R → option (mat3 R);
}.

Section Factory.

Context {R : Type} `{Float64 R}.
(** Hopping energies (complex numbers) are only carried around. *)
Context {E : Type}.

(** ** The lattice model *)

Record Orbital : Type := mkOrbital {
  position : vec3 R;
  energy : R;
}.

(** [hopping.index] is the tuple [(rn_a, rn_b, rn_c, orb_i, orb_j)]. *)
Definition hop_index : Type := (Z * Z * Z * nat * nat)%type.

Record Hopping : Type := mkHopping {
  index : hop_index;
  hop_energy : E;
}.

Definition hop_rn (ind : hop_index) : vec3 Z := let '(a, b, c, _, _) := ind in (a, b, c).
Definition hop_i (ind : hop_index) : nat := let '(_, _, _, i, _) := ind in i.
Definition hop_j (ind : hop_index) : nat := let '(_, _, _, _, j) := ind in j.

Record PrimitiveCell : Type := mkCell {
  lat_vec : mat3 R;
  orbital_list : list Orbital;
  hopping_list : list Hopping;
  extended : R;
  (** cached arrays, rebuilt by [sync_array] *)
  orb_pos : list (vec3 R);
  orb_eng : list R;
  hop_ind : list hop_index;
  hop_eng : list E;
}.

(** Modelled from the spec: the constructor of [PrimitiveCell]
    (builder/primitive.py is absent).  "A Lattice Model is created empty
    (lattice vectors + unit)"; [extended] is the multiplicative scale factor
    and starts at one.  Both call sites pass the internal length unit
    ([consts.NM] and [1.0]), so the vectors are stored as given. *)
Definition new_cell (lat : mat3 R) : PrimitiveCell :=
  mkCell lat [] [] (of_int 1) [] [] [] [].

(** Modelled from the spec: [PrimitiveCell.num_orb], the number N of
    orbitals. *)
Definition num_orb (c : PrimitiveCell) : nat := length (orbital_list c).

(** Modelled from the spec: [PrimitiveCell.add_orbital] appends an orbital,
    which receives the next index; the cached arrays are left stale. *)
Definition add_orbital (pos : vec3 R) (e : R) (c : PrimitiveCell) : PrimitiveCell :=
  mkCell (lat_vec c) (orbital_list c ++ [mkOrbital pos e]) (hopping_list c)
         (extended c) (orb_pos c) (orb_eng c) (hop_ind c) (hop_eng c).

(** Modelled from the spec: [PrimitiveCell.add_hopping] appends a hopping
    term; "multiple entries with the same (cell_offset, i, j) are distinct
    couplings and may coexist (no implicit deduplication)". *)
Definition add_hopping (rn : vec3 Z) (i j : nat) (e : E) (c : PrimitiveCell)
  : PrimitiveCell :=
  let '(na, nb, nc) := rn in
  mkCell (lat_vec c) (orbital_list c)
         (hopping_list c ++ [mkHopping (na, nb, nc, i, j) e])
         (extended c) (orb_pos c) (orb_eng c) (hop_ind c) (hop_eng c).

(** Modelled from the spec: [PrimitiveCell.sync_array], the "resynchronize"
    operation: the derived arrays (positions matrix, energies vector,
    hopping-index matrix, hopping energies) are recomputed from the lists. *)
Definition sync_array (c : PrimitiveCell) : PrimitiveCell :=
  mkCell (lat_vec c) (orbital_list c) (hopping_list c) (extended c)
         (position <$> orbital_list c) (energy <$> orbital_list c)
         (index <$> hopping_list c) (hop_energy <$> hopping_list c).

Definition set_extended (x : R) (c : PrimitiveCell) : PrimitiveCell :=
  mkCell (lat_vec c) (orbital_list c) (hopping_list c) x
         (orb_pos c) (orb_eng c) (hop_ind c) (hop_eng c).

Definition set_hopping_list (hl : list Hopping) (c : PrimitiveCell) : PrimitiveCell :=
  mkCell (lat_vec c) (orbital_list c) hl (extended c)
         (orb_pos c) (orb_eng c) (hop_ind c) (hop_eng c).

(** An orbital shifted one place down when it lies above a removed one. *)
Definition shift_down (k i : nat) : nat := if decide (k < i) then pred i else i.

(** Modelled from the spec: [PrimitiveCell.remove_orbital] removes the
    orbital at the given index "together with all hoppings touching it",
    and renumbers the remaining orbitals densely, remapping the surviving
    hoppings' indices.  An index outside [0, N) raises. *)
Definition remove_orbital (orb_i : Z) (c : PrimitiveCell) : result PrimitiveCell :=
  if decide (0 ≤ orb_i < Z.of_nat (num_orb c))%Z then
    let k := Z.to_nat orb_i in
    let kept := filter (λ h, hop_i (index h) ≠ k ∧ hop_j (index h) ≠ k)
                       (hopping_list c) in
    let renum := λ h,
      let '(na, nb, nc, i, j) := index h in
      mkHopping (na, nb, nc, shift_down k i, shift_down k j) (hop_energy h) in
    Ok (mkCell (lat_vec c) (delete k (orbital_list c)) (renum <$> kept)
               (extended c) (orb_pos c) (orb_eng c) (hop_ind c) (hop_eng c))
  else Raise PCOrbIndexError.

(** Modelled from the spec: [correct_coord] completes a coordinate to
    length 3 "with a default for missing trailing components"; the docstring
    of [extend_prim_cell] gives the accepted lengths as 2 and 3. *)
Definition correct_coord (coord : list Z) (complete_item : Z) : result (vec3 Z) :=
  match coord with
  | [a; b] => Ok (a, b, complete_item)
  | [a; b; c] => Ok (a, b, c)
  | _ => Raise CoordLenError
  end.

(** ** extend_prim_cell *)

(** Keys [(i_a, i_b, i_c, i_o)] of the replica bookkeeping. *)
Definition id_pc_t : Type := (Z * Z * Z * nat)%type.

(** State of the orbital loop: the list [orb_id_pc], the dict [orb_id_sc],
    the counter [id_sc] and the cell under construction. *)
Record orb_state : Type := mkOrbState {
  orb_id_pc : list id_pc_t;
  orb_id_sc : gmap id_pc_t nat;
  id_sc : nat;
  st_cell : PrimitiveCell;
}.

Definition record_orbital (id_pc : id_pc_t) (pos : vec3 R) (e : R) (st : orb_state)
  : orb_state :=
  mkOrbState (orb_id_pc st ++ [id_pc])
             (<[id_pc := id_sc st]> (orb_id_sc st))
             (S (id_sc st))
             (add_orbital pos e (st_cell st)).

(** [pos_ext]: the position of the replica in grid cell [(i_a, i_b, i_c)]. *)
Definition make_pos_ext (dim rn : vec3 Z) (pos : vec3 R) : vec3 R :=
  let '(d0, d1, d2) := dim in
  let '(i_a, i_b, i_c) := rn in
  let '(p0, p1, p2) := pos in
  (fdiv (fadd p0 (of_int i_a)) (of_int d0),
   fdiv (fadd p1 (of_int i_b)) (of_int d1),
   fdiv (fadd p2 (of_int i_c)) (of_int d2)).

Definition extend_orbitals (prim_cell : PrimitiveCell) (dim : vec3 Z)
    (extend_cell : PrimitiveCell) : orb_state :=
  let '(d0, d1, d2) := dim in
  foldl (λ st i_a,
    foldl (λ st i_b,
      foldl (λ st i_c,
        foldl (λ st '(i_o, orbital),
          let id_pc := (i_a, i_b, i_c, i_o) in
          let pos_ext := make_pos_ext dim (i_a, i_b, i_c) (position orbital) in
          record_orbital id_pc pos_ext (energy orbital) st)
        st (enumerate (orbital_list prim_cell)))
      st (range d2))
    st (range d1))
  (mkOrbState [] ∅ 0 extend_cell) (range d0).

Definition _wrap_pbc (ji ni : Z) : Z * Z := ((ji `mod` ni)%Z, (ji `div` ni)%Z).

(** The body of the loop over [prim_cell.hopping_list], for the replica
    with index [id_sc_i] and key [id_pc_i]. *)
Definition extend_add_hopping (dim : vec3 Z) (st : orb_state) (id_sc_i : nat)
    (id_pc_i : id_pc_t) (extend_cell : PrimitiveCell) (hopping : Hopping)
  : result PrimitiveCell :=
  let '(d0, d1, d2) := dim in
  let '(i_a, i_b, i_c, i_o) := id_pc_i in
  let '(h0, h1, h2, h3, h4) := index hopping in
  if decide (i_o = h3) then
    let '(ja, na) := _wrap_pbc (i_a + h0) d0 in
    let '(jb, nb) := _wrap_pbc (i_b + h1) d1 in
    let '(jc, nc) := _wrap_pbc (i_c + h2) d2 in
    let id_pc_j := (ja, jb, jc, h4) in
    id_sc_j ← getitem (orb_id_sc st) id_pc_j;
    Ok (add_hopping (na, nb, nc) id_sc_i id_sc_j (hop_energy hopping) extend_cell)
  else Ok extend_cell.

Definition extend_hoppings (prim_cell : PrimitiveCell) (dim : vec3 Z)
    (st : orb_state) : result PrimitiveCell :=
  for_each (λ extend_cell id_sc_i,
    id_pc_i ← subscript (orb_id_pc st) id_sc_i;
    for_each (extend_add_hopping dim st id_sc_i id_pc_i)
             (hopping_list prim_cell) extend_cell)
  (seq 0 (num_orb (st_cell st))) (st_cell st).

Definition extend_prim_cell (prim_cell : PrimitiveCell) (dim : list Z)
  : result PrimitiveCell :=
  dim ← correct_coord dim 1;
  let '(d0, d1, d2) := dim in
  if decide (d0 < 1 ∨ d1 < 1 ∨ d2 < 1)%Z then Raise ValueError else
  let '(l0, l1, l2) := lat_vec prim_cell in
  let lat_vec_ext := (vmap (λ x, fmul x (of_int d0)) l0,
                      vmap (λ x, fmul x (of_int d1)) l1,
                      vmap (λ x, fmul x (of_int d2)) l2) in
  let extend_cell := new_cell lat_vec_ext in
  let extend_cell :=
    set_extended (fmul (extended extend_cell) (of_int (int64 (d0 * d1 * d2))))
                 extend_cell in
  let st := extend_orbitals prim_cell dim extend_cell in
  extend_cell ← extend_hoppings prim_cell dim st;
  Ok (sync_array extend_cell).

(** ** reshape_prim_cell *)

(** [np.matmul(x, m)] for a row vector [x]. *)
Definition matmul (x : vec3 R) (m : mat3 R) : vec3 R :=
  let '(x0, x1, x2) := x in
  let '((a00, a01, a02), (a10, a11, a12), (a20, a21, a22)) := m in
  (fadd (fadd (fmul x0 a00) (fmul x1 a10)) (fmul x2 a20),
   fadd (fadd (fmul x0 a01) (fmul x1 a11)) (fmul x2 a21),
   fadd (fadd (fmul x0 a02) (fmul x1 a12)) (fmul x2 a22)).

(** [rn + pos] for an integer triple and a float array. *)
Definition rn_plus (rn : vec3 Z) (pos : vec3 R) : vec3 R :=
  vzip (λ n p, fadd (of_int n) p) rn pos.

(** [np.matmul(rn + pos, conv_mat) - origin + delta]. *)
Definition to_res_pos (conv_mat : mat3 R) (origin : vec3 R) (delta : R)
    (rn : vec3 Z) (pos : vec3 R) : vec3 R :=
  vmap (λ x, fadd x delta) (vzip fsub (matmul (rn_plus rn pos) conv_mat) origin).

Definition _get_cell_index (x : vec3 R) : vec3 Z := vmap math_floor x.

(** The [(3, 2)] int32 array [rn_range]: component [j] holds the lower and
    upper bound of the translations tried along axis [j]. *)
Definition make_rn_range (lat_frac : mat3 R) : vec3 (Z * Z) :=
  let '(r0, r1, r2) := lat_frac in
  let col_sum := vzip fadd (vzip fadd r0 r1) r2 in
  let rn_range :=
    foldl (λ rn_range row,
      let sum_vec := vzip fsub col_sum row in
      vzip (λ '(lo, hi) s,
              (int32 (Z.min lo (math_floor s)), int32 (Z.max hi (math_ceil s))))
           rn_range sum_vec)
    ((0, 0), (0, 0), (0, 0))%Z [r0; r1; r2] in
  vmap (λ '(lo, hi), (int32 (lo - 1), int32 (hi + 1))) rn_range.

(** The body of the loop over [prim_cell.orb_pos], for the translation
    [rn = (i_a, i_b, i_c)]. *)
Definition reshape_try_orbital (prim_cell : PrimitiveCell) (conv_mat : mat3 R)
    (origin : vec3 R) (delta : R) (rn : vec3 Z) (st : orb_state)
    (x : nat * vec3 R) : result orb_state :=
  let '(i_o, pos) := x in
  let res_pos := to_res_pos conv_mat origin delta rn pos in
  let res_rn := _get_cell_index res_pos in
  if decide (res_rn = (0, 0, 0)%Z) then
    e ← subscript (orb_eng prim_cell) i_o;
    Ok (record_orbital (rn, i_o) res_pos e st)
  else Ok st.

Definition reshape_orbitals (prim_cell : PrimitiveCell) (conv_mat : mat3 R)
    (origin : vec3 R) (delta : R) (rn_range : vec3 (Z * Z))
    (res_cell : PrimitiveCell) : result orb_state :=
  let '((lo0, hi0), (lo1, hi1), (lo2, hi2)) := rn_range in
  for_each (λ st i_a,
    for_each (λ st i_b,
      for_each (λ st i_c,
        let rn := (i_a, i_b, i_c) in
        for_each (reshape_try_orbital prim_cell conv_mat origin delta rn)
                 (enumerate (orb_pos prim_cell)) st)
      (range_incl lo2 hi2) st)
    (range_incl lo1 hi1) st)
  (range_incl lo0 hi0) (mkOrbState [] ∅ 0 res_cell).

(** The body of the loop over [orb_id_pc] that looks for the destination
    [id_sc_j] of a hopping. *)
Definition reshape_match (prim_cell : PrimitiveCell) (pos_tol : R)
    (st : orb_state) (id_sc_i i_h h4 : nat) (res_rn : vec3 Z) (res_pos : vec3 R)
    (res_cell : PrimitiveCell) (id_pc_j : id_pc_t) : result PrimitiveCell :=
  if decide (id_pc_j.2 = h4) then
    id_sc_j ← getitem (orb_id_sc st) id_pc_j;
    chk_pos ← subscript (orb_pos res_cell) id_sc_j;
    if linalg_norm_le (vzip fsub chk_pos res_pos) pos_tol then
      e ← subscript (hop_eng prim_cell) i_h;
      Ok (add_hopping res_rn id_sc_i id_sc_j e res_cell)
    else Ok res_cell
  else Ok res_cell.

(** The body of the loop over [prim_cell.hop_ind], for the kept orbital
    with new index [id_sc_i] and key [id_pc_i]. *)
Definition reshape_add_hopping (prim_cell : PrimitiveCell) (conv_mat : mat3 R)
    (origin : vec3 R) (delta pos_tol : R) (st : orb_state) (id_sc_i : nat)
    (id_pc_i : id_pc_t) (res_cell : PrimitiveCell) (x : nat * hop_index)
  : result PrimitiveCell :=
  let '(i_h, hop) := x in
  let '(i_a, i_b, i_c, i_o) := id_pc_i in
  let '(h0, h1, h2, h3, h4) := hop in
  if decide (i_o = h3) then
    let rn := (i_a + h0, i_b + h1, i_c + h2)%Z in
    pos ← subscript (orb_pos prim_cell) h4;
    let res_pos := to_res_pos conv_mat origin delta rn pos in
    let res_rn := _get_cell_index res_pos in
    let res_pos := vzip (λ x n, fsub x (of_int n)) res_pos res_rn in
    for_each (reshape_match prim_cell pos_tol st id_sc_i i_h h4 res_rn res_pos)
             (orb_id_pc st) res_cell
  else Ok res_cell.

Definition reshape_hoppings (prim_cell : PrimitiveCell) (conv_mat : mat3 R)
    (origin : vec3 R) (delta pos_tol : R) (st : orb_state)
    (res_cell : PrimitiveCell) : result PrimitiveCell :=
  for_each (λ res_cell id_sc_i,
    id_pc_i ← subscript (orb_id_pc st) id_sc_i;
    for_each (reshape_add_hopping prim_cell conv_mat origin delta pos_tol st
                                  id_sc_i id_pc_i)
             (enumerate (hop_ind prim_cell)) res_cell)
  (seq 0 (num_orb res_cell)) res_cell.

(** The write-back of one row of [orb_pos] into [orbital_list]. *)
Definition write_position (ol : list Orbital) (x : nat * vec3 R)
  : result (list Orbital) :=
  let '(i_o, pos) := x in
  o ← subscript ol i_o;
  Ok (<[i_o := mkOrbital pos (energy o)]> ol).

(** [res_cell.orb_pos -= delta], then the write-back of every row into
    [orbital_list[i_o].position]. *)
Definition subtract_delta (delta : R) (res_cell : PrimitiveCell)
  : result PrimitiveCell :=
  let new_pos := vmap (λ x, fsub x delta) <$> orb_pos res_cell in
  ol ← for_each write_position (enumerate new_pos) (orbital_list res_cell);
  Ok (mkCell (lat_vec res_cell) ol (hopping_list res_cell) (extended res_cell)
             new_pos (orb_eng res_cell) (hop_ind res_cell) (hop_eng res_cell)).

(** [lat_frac] and [origin] are typed as a 3x3 matrix and a triple, so the
    two shape guards of the source cannot fire.  The source also
    resynchronises the caller's [prim_cell]; only the returned cell is
    modelled. *)
Definition reshape_prim_cell (prim_cell : PrimitiveCell) (lat_frac : mat3 R)
    (origin : vec3 R) (delta pos_tol : R) : result PrimitiveCell :=
  match linalg_inv lat_frac with
  | None => Raise LinAlgError
  | Some conv_mat =>
    let '(f0, f1, f2) := lat_frac in
    let lat_cart := (matmul f0 (lat_vec prim_cell),
                     matmul f1 (lat_vec prim_cell),
                     matmul f2 (lat_vec prim_cell)) in
    let res_cell := new_cell lat_cart in
    let prim_cell := sync_array prim_cell in
    let rn_range := make_rn_range lat_frac in
    st ← reshape_orbitals prim_cell conv_mat origin delta rn_range res_cell;
    let res_cell := sync_array (st_cell st) in
    res_cell ← reshape_hoppings prim_cell conv_mat origin delta pos_tol st res_cell;
    res_cell ← subtract_delta delta res_cell;
    Ok (sync_array res_cell)
  end.

(** ** trim_prim_cell *)

(** [hop_count[i] += 1] on an int32 array. *)
Definition incr_count (hop_count : list Z) (i : nat) : result (list Z) :=
  x ← subscript hop_count i;
  Ok (<[i := int32 (x + 1)]> hop_count).

Definition count_hops (prim_cell : PrimitiveCell) : result (list Z) :=
  for_each (λ hop_count hop,
    hop_count ← incr_count hop_count (hop_i (index hop));
    incr_count hop_count (hop_j (index hop)))
  (hopping_list prim_cell) (replicate (num_orb prim_cell) 0%Z).

(** [sorted] on a list of ints. *)
Definition sorted (l : list nat) : list nat := merge_sort le l.

Definition trim_prim_cell (prim_cell : PrimitiveCell) : result PrimitiveCell :=
  hop_count ← count_hops prim_cell;
  let orb_id_trim :=
    (filter (λ '(i_o, count), (count ≤ 1)%Z) (enumerate hop_count)).*1 in
  let orb_id_trim := sorted orb_id_trim in
  prim_cell ← for_each (λ prim_cell '(i, orb_id),
                 remove_orbital (Z.of_nat orb_id - Z.of_nat i) prim_cell)
               (enumerate orb_id_trim) prim_cell;
  Ok (sync_array prim_cell).

(** ** apply_pbc *)

(** The scan over the three directions, leaving at the first direction that
    is not periodic and has a non-zero cell index. *)
Fixpoint hop_to_keep_scan (pbc : list bool) (rn : list Z) : bool :=
  match pbc, rn with
  | p :: pbc', n :: rn' =>
      if negb p && negb (n =? 0)%Z then false else hop_to_keep_scan pbc' rn'
  | _, _ => true
  end.

Definition apply_pbc (prim_cell : PrimitiveCell) (pbc : list bool)
  : result PrimitiveCell :=
  if decide (length pbc ≠ 3) then Raise ValueError else
  let hop_to_keep :=
    foldl (λ hop_to_keep hop,
      let '(n0, n1, n2, _, _) := index hop in
      if hop_to_keep_scan pbc [n0; n1; n2] then hop_to_keep ++ [hop]
      else hop_to_keep)
    [] (hopping_list prim_cell) in
  Ok (sync_array (set_hopping_list hop_to_keep prim_cell)).

End Factory.

(** ** Exact rational arithmetic

    The interpretation of the floating-point interface by exact rationals:
    the arithmetic the Python code approximates.  The norm test compares
    squares, and the inverse is the adjugate divided by the determinant.

    No operation rounds here, so this interpretation and the Python code
    agree only where binary64 does not round either, or where the rounding
    does not change an integer part, a comparison or a match: the doubles
    nearest to 0.99 and 0.01 add up to less than 1, but their binary64 sum
    is 1.  [Q_inv]
    gives [None] exactly for the matrices of determinant zero, whereas
    [np.linalg.inv] raises only when elimination meets a pivot that is
    exactly zero after rounding. *)

Definition Q_norm_le (v : vec3 Q) (tol : Q) : bool :=
  let '(x, y, z) := v in
  Qle_bool 0 tol && Qle_bool (x * x + y * y + z * z) (tol * tol).

Definition Q_det (m : mat3 Q) : Q :=
  let '((a, b, c), (d, e, f), (g, h, i)) := m in
  (a * (e * i - f * h) - b * (d * i - f * g) + c * (d * h - e * g))%Q.

Definition Q_inv (m : mat3 Q) : option (mat3 Q) :=
  let '((a, b, c), (d, e, f), (g, h, i)) := m in
  let det := Q_det m in
  if Qeq_bool det 0 then None else
  Some (((e * i - f * h) / det, (c * h - b * i) / det, (b * f - c * e) / det),
        ((f * g - d * i) / det, (a * i - c * g) / det, (c * d - a * f) / det),
        ((d * h - e * g) / det, (b * g - a * h) / det, (a * e - b * d) / det))%Q.

#[global] Instance Q_Float64 : Float64 Q := {|
  of_int := inject_Z;
  fadd := Qplus;
  fsub := Qminus;
  fmul := Qmult;
  fdiv := Qdiv;
  math_floor := Qfloor;
  math_ceil := Qceiling;
  linalg_norm_le := Q_norm_le;
  linalg_inv := Q_inv;
|}.

(** Cells over the rationals, with rational hopping energies. *)
Definition QCell : Type := @PrimitiveCell Q Q.

Definition make_cell (lat : mat3 Q) (orbs : list (vec3 Q * Q))
    (hops : list (hop_index * Q)) : QCell :=
  sync_array
    (mkCell lat ((λ '(p, e), mkOrbital p e) <$> orbs)
            ((λ '(ind, e), mkHopping ind e) <$> hops) 1%Q [] [] [] []).

Definition identity_3x3 : mat3 Q := ((1, 0, 0), (0, 1, 0), (0, 0, 1))%Q.

(** The diamond-shaped graphene cell of materials/graphene.py, with unit
    lattice vectors. *)
Definition graphene_diamond : QCell :=
  make_cell identity_3x3
    [((0, 0, 0)%Q, 0%Q); ((1 # 3, 1 # 3, 0)%Q, 0%Q)]
    [((0%Z, 0%Z, 0%Z, 0%nat, 1%nat), (-27 # 10)%Q);
     ((1%Z, 0%Z, 0%Z, 1%nat, 0%nat), (-27 # 10)%Q);
     ((0%Z, 1%Z, 0%Z, 1%nat, 0%nat), (-27 # 10)%Q)].

(** ** IEEE binary64 arithmetic

    The operations of numpy's float64 and of Python's float on Rocq's
    primitive binary64 numbers: sums, differences, products and quotients
    round to nearest, ties to even, as the hardware does. *)

Module B64.

Import PrimFloat SpecFloat FloatOps.

(** A Python int as a float64, rounded to nearest. *)
Definition b64_of_int (z : Z) : float :=
  SF2Prim (binary_normalize prec emax z 0 false).

(** [math.floor] of a finite float64, from its mantissa and exponent.
    Python raises on infinities and NaN, which no input below produces;
    they are sent to 0. *)
Definition b64_floor (x : float) : Z :=
  match Prim2SF x with
  | S754_finite s m e =>
      let z := if s then Z.neg m else Z.pos m in
      if (0 <=? e)%Z then (z * 2 ^ e)%Z else (z `div` 2 ^ (- e))%Z
  | _ => 0%Z
  end.

Definition b64_ceil (x : float) : Z := (- b64_floor (- x)%float)%Z.

(** [np.linalg.norm(v) <= tol], the norm as the square root of the sum of
    the squares taken in order. *)
Definition b64_norm_le (v : vec3 float) (tol : float) : bool :=
  let '(x, y, z) := v in (sqrt (x * x + y * y + z * z) <=? tol)%float.

(** [np.linalg.inv] solves [m x = 1] by elimination with partial pivoting
    and raises [LinAlgError] when a pivot is exactly zero.  The elimination
    below does the same on the rows of [m | 1]; its intermediate roundings
    need not be those of a given LAPACK build, but on the identity matrix,
    the only matrix it is applied to below, every step is exact. *)
Definition entry (r : list float) (k : nat) : float := default zero (r !! k).

Definition find_pivot (rows : list (list float)) (k : nat) : nat :=
  foldl (λ p i,
           if (abs (entry (default [] (rows !! p)) k)
               <? abs (entry (default [] (rows !! i)) k))%float
           then i else p)
        k (seq (S k) (length rows - S k)).

Definition swap_rows (rows : list (list float)) (i j : nat)
  : list (list float) :=
  match rows !! i, rows !! j with
  | Some ri, Some rj => <[i := rj]> (<[j := ri]> rows)
  | _, _ => rows
  end.

Definition eliminate (rows : list (list float)) (k : nat)
  : option (list (list float)) :=
  let rows := swap_rows rows k (find_pivot rows k) in
  let rk := default [] (rows !! k) in
  let p := entry rk k in
  if (p =? zero)%float then None else
  let rk' := (λ x, x / p)%float <$> rk in
  Some (imap (λ i r, if decide (i = k) then rk'
                     else zip_with (λ x y, x - entry r k * y)%float r rk') rows).

Definition b64_inv (m : mat3 float) : option (mat3 float) :=
  let '((a, b, c), (d, e, f), (g, h, i)) := m in
  rows ← eliminate [[a; b; c; one; zero; zero]; [d; e; f; zero; one; zero];
                    [g; h; i; zero; zero; one]] 0;
  rows ← eliminate rows 1;
  rows ← eliminate rows 2;
  match rows with
  | [[_; _; _; a'; b'; c']; [_; _; _; d'; e'; f']; [_; _; _; g'; h'; i']] =>
      Some ((a', b', c'), (d', e', f'), (g', h', i'))
  | _ => None
  end.

#[global] Instance B64_Float64 : Float64 float := {|
  of_int := b64_of_int;
  fadd := add;
  fsub := sub;
  fmul := mul;
  fdiv := div;
  math_floor := b64_floor;
  math_ceil := b64_ceil;
  linalg_norm_le := b64_norm_le;
  linalg_inv := b64_inv;
|}.

(** Cells over binary64, with binary64 hopping energies. *)
Definition B64Cell : Type := @PrimitiveCell float float.

(** [np.eye(3)] and [np.zeros(3)]. *)
Definition b64_identity : mat3 float :=
  ((one, zero, zero), (zero, one, zero), (zero, zero, one)).

Definition b64_zeros : vec3 float := (zero, zero, zero).

(** The defaults [delta=0.01] and [pos_tol=1e-5] of [reshape_prim_cell],
    and the literal [0.99], as the doubles Python reads them. *)
Definition delta_default : float := 0x1.47ae147ae147bp-7%float.
Definition pos_tol_default : float := 0x1.4f8b588e368f1p-17%float.
Definition b64_0_99 : float := 0x1.fae147ae147aep-1%float.

(** A cell with unit lattice vectors and one orbital, at fractional
    position (0.99, 0, 0), inside the home cell; no hopping terms. *)
Definition border_orbital : B64Cell :=
  sync_array
    (mkCell b64_identity [mkOrbital (b64_0_99, zero, zero) zero] [] one
            [] [] [] []).

End B64.

(** ** Specification-side notions *)

Section Specification.

Context {R : Type} `{Float64 R} {E : Type}.
Implicit Types (c : @PrimitiveCell R E) (h : @Hopping E).

(** "Every hopping's orbital indices are valid indices into orbitals." *)
Definition valid_cell c : Prop :=
  ∀ h, h ∈ hopping_list c →
    hop_i (index h) < num_orb c ∧ hop_j (index h) < num_orb c.

(** The cell offset of [h] is zero along every axis that is not periodic. *)
Definition periodic_ok (pa pb pc : bool) h : Prop :=
  let '(n0, n1, n2) := hop_rn (index h) in
  (pa = false → n0 = 0%Z) ∧ (pb = false → n1 = 0%Z) ∧ (pc = false → n2 = 0%Z).

(** The dense index of the replica [(i_a, i_b, i_c, i_o)] in a supercell of
    dimension [(na, nb, nc)] over [N] orbitals: lexicographic order. *)
Definition new_index (dim : vec3 Z) (N : nat) (id_pc : id_pc_t) : nat :=
  let '(_, nb, nc) := dim in
  let '(i_a, i_b, i_c, i_o) := id_pc in
  Z.to_nat (((i_a * nb + i_b) * nc + i_c) * Z.of_nat N + Z.of_nat i_o).

(** The lattice vectors scaled per axis. *)
Definition scale_lat_vec (dim : vec3 Z) (lat : mat3 R) : mat3 R :=
  let '(d0, d1, d2) := dim in
  let '(l0, l1, l2) := lat in
  (vmap (λ x, fmul x (of_int d0)) l0,
   vmap (λ x, fmul x (of_int d1)) l1,
   vmap (λ x, fmul x (of_int d2)) l2).

(** Bookkeeping of the orbital loops: the orbitals recorded, in order. *)
Definition record_all (items : list (id_pc_t * vec3 R * R)) (st : orb_state)
  : @orb_state R E :=
  foldl (λ st '(id_pc, pos, e), record_orbital id_pc pos e st) st items.

Definition item_orbital (it : id_pc_t * vec3 R * R) : @Orbital R :=
  mkOrbital it.1.2 it.2.

(** The dict [orb_id_sc] inverts the list [orb_id_pc]. *)
Definition dict_ok (st : @orb_state R E) : Prop :=
  id_sc st = length (orb_id_pc st)
  ∧ ∀ k i, orb_id_sc st !! k = Some i ↔ orb_id_pc st !! i = Some k.

Definition append_orbitals (os : list Orbital) c : PrimitiveCell :=
  mkCell (lat_vec c) (orbital_list c ++ os) (hopping_list c) (extended c)
         (orb_pos c) (orb_eng c) (hop_ind c) (hop_eng c).

Definition append_hoppings (hs : list Hopping) c : PrimitiveCell :=
  mkCell (lat_vec c) (orbital_list c) (hopping_list c ++ hs) (extended c)
         (orb_pos c) (orb_eng c) (hop_ind c) (hop_eng c).

(** The orbitals recorded by the loop nest of [extend_prim_cell]. *)
Definition extend_items (orbs : list (@Orbital R)) (dim : vec3 Z)
  : list (id_pc_t * vec3 R * R) :=
  let '(d0, d1, d2) := dim in
  i_a ← range d0; i_b ← range d1; i_c ← range d2;
  x ← enumerate orbs;
  [((i_a, i_b, i_c, x.1), make_pos_ext dim (i_a, i_b, i_c) (position x.2),
    energy x.2)].

(** The hopping terms derived by [extend_prim_cell] for the replica with
    index [id_sc_i] and key [id_pc_i]. *)
Definition extend_hops_of (dim : vec3 Z) (N : nat) (hops : list (@Hopping E))
    (id_sc_i : nat) (id_pc_i : id_pc_t) : list (@Hopping E) :=
  let '(d0, d1, d2) := dim in
  let '(i_a, i_b, i_c, i_o) := id_pc_i in
  hop ← hops;
  let '(h0, h1, h2, h3, h4) := index hop in
  if decide (i_o = h3) then
    [mkHopping (((i_a + h0) `div` d0)%Z, ((i_b + h1) `div` d1)%Z,
                ((i_c + h2) `div` d2)%Z, id_sc_i,
                new_index dim N (((i_a + h0) `mod` d0)%Z, ((i_b + h1) `mod` d1)%Z,
                                 ((i_c + h2) `mod` d2)%Z, h4))
               (hop_energy hop)]
  else [].

(** All hopping terms derived by [extend_prim_cell], in order. *)
Definition extend_hops (dim : vec3 Z) (N : nat) (hops : list (@Hopping E))
    (ids : list id_pc_t) : list (@Hopping E) :=
  x ← enumerate ids; extend_hops_of dim N hops x.1 x.2.

(** The number of hopping terms leaving orbital [i_o]. *)
Definition count_src (hops : list (@Hopping E)) (i_o : nat) : nat :=
  length (filter (λ h, hop_i (index h) = i_o) hops).

(** The image of an original hopping under replication from grid cell
    [(i_a, i_b, i_c)]: raw destination wrapped per axis, quotient as offset. *)
Definition wrapped_hopping (dim : vec3 Z) (N : nat) (rn : vec3 Z) h : @Hopping E :=
  let '(d0, d1, d2) := dim in
  let '(i_a, i_b, i_c) := rn in
  let '(h0, h1, h2, i, j) := index h in
  let '(raw_a, raw_b, raw_c) := ((i_a + h0)%Z, (i_b + h1)%Z, (i_c + h2)%Z) in
  mkHopping ((raw_a `div` d0)%Z, (raw_b `div` d1)%Z, (raw_c `div` d2)%Z,
             new_index dim N (i_a, i_b, i_c, i),
             new_index dim N ((raw_a `mod` d0)%Z, (raw_b `mod` d1)%Z,
                              (raw_c `mod` d2)%Z, j))
            (hop_energy h).

(** The result of [extend_prim_cell] on a valid cell, in closed form. *)
Definition extend_result c (dim : vec3 Z) : PrimitiveCell :=
  let '(d0, d1, d2) := dim in
  let items := extend_items (orbital_list c) dim in
  sync_array
    (mkCell (scale_lat_vec dim (lat_vec c)) (item_orbital <$> items)
            (extend_hops dim (num_orb c) (hopping_list c) items.*1.*1)
            (fmul (of_int 1) (of_int (int64 (d0 * d1 * d2)))) [] [] [] []).

(** The combined hopping-endpoint degree of an orbital: the number of
    times it occurs as an endpoint, both roles counted. *)
Definition degree (hops : list (@Hopping E)) (i_o : nat) : nat :=
  length (filter (λ h, hop_i (index h) = i_o) hops)
  + length (filter (λ h, hop_j (index h) = i_o) hops).

(** The elements of [l] whose index, counted from [s], is not in [Q]. *)
Fixpoint drop_indices {A : Type} (Q : nat → Prop) `{∀ i, Decision (Q i)}
    (s : nat) (l : list A) : list A :=
  match l with
  | [] => []
  | x :: l' =>
      if decide (Q s) then drop_indices Q (S s) l'
      else x :: drop_indices Q (S s) l'
  end.

(** The copies of the original orbitals under the translation [rn] that
    [reshape_prim_cell] keeps: those whose nudged image has integer part
    zero in every component. *)
Definition reshape_row (orbs : list (@Orbital R)) (conv_mat : mat3 R)
    (origin : vec3 R) (delta : R) (rn : vec3 Z) : list (id_pc_t * vec3 R * R) :=
  x ← enumerate orbs;
  let res_pos := to_res_pos conv_mat origin delta rn (position x.2) in
  if decide (_get_cell_index res_pos = (0, 0, 0)%Z)
  then [((rn, x.1), res_pos, energy x.2)] else [].

(** All orbital copies kept by [reshape_prim_cell], in the order found. *)
Definition reshape_items (orbs : list (@Orbital R)) (conv_mat : mat3 R)
    (origin : vec3 R) (delta : R) (rn_range : vec3 (Z * Z))
  : list (id_pc_t * vec3 R * R) :=
  let '((lo0, hi0), (lo1, hi1), (lo2, hi2)) := rn_range in
  i_a ← range_incl lo0 hi0; i_b ← range_incl lo1 hi1; i_c ← range_incl lo2 hi2;
  reshape_row orbs conv_mat origin delta (i_a, i_b, i_c).

(** The wrapped destination of the hopping with index [ind] seen from the
    kept copy [id_pc_i] of its source: cell offset and position in the
    reshaped cell. *)
Definition reshape_target (orbs : list (@Orbital R)) (conv_mat : mat3 R)
    (origin : vec3 R) (delta : R) (id_pc_i : id_pc_t) (ind : hop_index)
  : option (vec3 Z * vec3 R) :=
  let '(i_a, i_b, i_c, _) := id_pc_i in
  let '(h0, h1, h2, _, h4) := ind in
  o ← orbs !! h4;
  let res_pos := to_res_pos conv_mat origin delta
                            (i_a + h0, i_b + h1, i_c + h2)%Z (position o) in
  let res_rn := _get_cell_index res_pos in
  Some (res_rn, vzip (λ x n, fsub x (of_int n)) res_pos res_rn).

(** The kept orbitals matching a wrapped destination: copies of orbital
    [h4] within [pos_tol] of [res_pos], with their new indices. *)
Definition reshape_matches (items : list (id_pc_t * vec3 R * R)) (pos_tol : R)
    (h4 : nat) (res_pos : vec3 R) : list (nat * (id_pc_t * vec3 R * R)) :=
  filter (λ y, y.2.1.1.2 = h4
               ∧ linalg_norm_le (vzip fsub y.2.1.2 res_pos) pos_tol = true)
         (enumerate items).

(** The hopping terms [reshape_prim_cell] adds for the kept orbital with
    new index [id_sc_i] and key [id_pc_i], and the original hopping [hop]. *)
Definition reshape_hops_of (orbs : list (@Orbital R)) (conv_mat : mat3 R)
    (origin : vec3 R) (delta pos_tol : R) (items : list (id_pc_t * vec3 R * R))
    (id_sc_i : nat) (id_pc_i : id_pc_t) (hop : @Hopping E) : list (@Hopping E) :=
  if decide (id_pc_i.2 = hop_i (index hop)) then
    match reshape_target orbs conv_mat origin delta id_pc_i (index hop) with
    | Some (res_rn, res_pos) =>
        (λ y, mkHopping (res_rn.1.1, res_rn.1.2, res_rn.2, id_sc_i, y.1)
                        (hop_energy hop))
        <$> reshape_matches items pos_tol (hop_j (index hop)) res_pos
    | None => []
    end
  else [].

Definition reshape_hops (orbs : list (@Orbital R)) (conv_mat : mat3 R)
    (origin : vec3 R) (delta pos_tol : R) (items : list (id_pc_t * vec3 R * R))
    (hops : list (@Hopping E)) : list (@Hopping E) :=
  x ← enumerate items.*1.*1; hop ← hops;
  reshape_hops_of orbs conv_mat origin delta pos_tol items x.1 x.2 hop.

(** The final position of a kept orbital: the nudge is taken back. *)
Definition unnudge (delta : R) (o : @Orbital R) : @Orbital R :=
  mkOrbital (vmap (λ x, fsub x delta) (position o)) (energy o).

(** The result of [reshape_prim_cell] in closed form. *)
Definition reshape_result c (lat_frac conv_mat : mat3 R) (origin : vec3 R)
    (delta pos_tol : R) : PrimitiveCell :=
  let '(f0, f1, f2) := lat_frac in
  let items := reshape_items (orbital_list c) conv_mat origin delta
                             (make_rn_range lat_frac) in
  sync_array
    (mkCell (matmul f0 (lat_vec c), matmul f1 (lat_vec c), matmul f2 (lat_vec c))
            (unnudge delta <$> (item_orbital <$> items))
            (reshape_hops (orbital_list c) conv_mat origin delta pos_tol items
                          (hopping_list c))
            (of_int 1) [] [] [] []).


(** No hopping leaves an existing orbital for a missing one. *)
Definition no_dangling c : Prop :=
  ∀ h, h ∈ hopping_list c →
    hop_i (index h) < num_orb c → hop_j (index h) < num_orb c.

(** A hopping that leaves an existing orbital for a missing one. *)
Definition dangling c h : Prop :=
  hop_i (index h) < num_orb c ∧ num_orb c ≤ hop_j (index h).

(** Invariant of the removal loop of [trim_prim_cell], at the moment when
    [i] orbitals have been removed, all with original index below [s], and
    [p] orbitals lie below the first one still to be examined.  An orbital
    with current index [j] at or above [p] has original index [j + i]; it
    ends up [trim_ren] places down, and a hopping term survives when
    neither of its orbitals is among those still to be removed. *)
Definition trim_ren (Q : nat → Prop) `{∀ i, Decision (Q i)} (s i j : nat) : nat :=
  j - length (filter Q (seq s (j + i - s))).

Definition trim_hops_at (Q : nat → Prop) `{∀ i, Decision (Q i)} (p s i : nat)
    (hops : list (@Hopping E)) : list (@Hopping E) :=
  (λ h, let '(na, nb, nc, a, b) := index h in
        mkHopping (na, nb, nc, trim_ren Q s i a, trim_ren Q s i b) (hop_energy h))
  <$> filter (λ h, ¬ (p ≤ hop_i (index h) ∧ Q (hop_i (index h) + i))
                   ∧ ¬ (p ≤ hop_j (index h) ∧ Q (hop_j (index h) + i))) hops.

(** The number of orbitals below [j] that occur at most once as an
    endpoint of a hopping term. *)
Definition removed_below (hops : list (@Hopping E)) (j : nat) : nat :=
  length (filter (λ t, degree hops t ≤ 1) (seq 0 j)).

(** The hopping terms between orbitals that occur at least twice as an
    endpoint, with their orbital indices lowered by the number of orbitals
    of smaller index that do not. *)
Definition trim_hops (hops : list (@Hopping E)) : list (@Hopping E) :=
  (λ h, let '(na, nb, nc, a, b) := index h in
        mkHopping (na, nb, nc, a - removed_below hops a, b - removed_below hops b)
                  (hop_energy h))
  <$> filter (λ h, 2 ≤ degree hops (hop_i (index h))
                   ∧ 2 ≤ degree hops (hop_j (index h))) hops.

(** A hopping term that [reshape_prim_cell] follows from a kept orbital
    to a missing one: some kept copy is a copy of its source orbital, and
    its destination index is not an orbital of the cell. *)
Definition reshape_dangling c (items : list (id_pc_t * vec3 R * R)) h : Prop :=
  Exists (λ it, it.1.1.2 = hop_i (index h)) items ∧ num_orb c ≤ hop_j (index h).

(** The hopping term that [extend_prim_cell] adds for the original term
    [h] seen from the replica with index [x.1] and key [x.2]. *)
Definition replica_hopping (dim : vec3 Z) (N : nat) (x : nat * id_pc_t) h
  : @Hopping E :=
  let '(d0, d1, d2) := dim in
  let '(i_a, i_b, i_c, _) := x.2 in
  let '(h0, h1, h2, _, h4) := index h in
  mkHopping (((i_a + h0) `div` d0)%Z, ((i_b + h1) `div` d1)%Z,
             ((i_c + h2) `div` d2)%Z, x.1,
             new_index dim N (((i_a + h0) `mod` d0)%Z, ((i_b + h1) `mod` d1)%Z,
                              ((i_c + h2) `mod` d2)%Z, h4))
            (hop_energy h).

#[global] Instance reshape_dangling_dec c items h :
  Decision (reshape_dangling c items h).
Proof. unfold reshape_dangling. apply _. Defined.

#[global] Instance dangling_dec c h : Decision (dangling c h).
Proof. unfold dangling. apply _. Defined.

#[global] Instance periodic_ok_dec pa pb pc h : Decision (periodic_ok pa pb pc h).
Proof. unfold periodic_ok. destruct (hop_rn (index h)) as [[??]?]. apply _. Defined.

End Specification.

(** A chain of three orbitals, 0 - 1 - 2. *)
Definition chain3 : QCell :=
  make_cell identity_3x3
    [((0, 0, 0)%Q, 0%Q); ((1 # 4, 0, 0)%Q, 0%Q); ((1 # 2, 0, 0)%Q, 0%Q)]
    [((0%Z, 0%Z, 0%Z, 0%nat, 1%nat), 1%Q);
     ((0%Z, 0%Z, 0%Z, 1%nat, 2%nat), 1%Q)].

(** A basis whose far corner [a + b + c] lies beyond the translations
    that [reshape_prim_cell] tries, and a cell with one orbital. *)
Definition skew_basis : mat3 Q := ((3, 0, 0), (3, 1, 0), (3, 0, 1))%Q.

Definition one_orbital : QCell :=
  make_cell identity_3x3 [((1 # 2, 15 # 16, 15 # 16)%Q, 0%Q)] [].

(** Two orbitals, the second one outside the home cell, with and without a
    hopping between them. *)
Definition far_pair : QCell :=
  make_cell identity_3x3
    [((0, 0, 0)%Q, 0%Q); ((5 # 2, 0, 0)%Q, 0%Q)]
    [((0%Z, 0%Z, 0%Z, 0%nat, 1%nat), 1%Q)].


(** Doubling the cell along the first axis. *)
Definition double_basis : mat3 Q := ((2, 0, 0), (0, 1, 0), (0, 0, 1))%Q.

(** The basis of the rectangular graphene cell (materials/graphene.py). *)
Definition rect_basis : mat3 Q := ((1, 0, 0), (-1, 2, 0), (0, 0, 1))%Q.

(** The half-open unit cube. *)
Definition in_unit_cube (v : vec3 Q) : Prop :=
  let '(x, y, z) := v in
  (0 <= x < 1)%Q ∧ (0 <= y < 1)%Q ∧ (0 <= z < 1)%Q.

(** One orbital with a hopping term that leads to a second, missing one. *)
Definition dangling_pair : QCell :=
  make_cell identity_3x3 [((0, 0, 0)%Q, 0%Q)]
    [((0%Z, 0%Z, 0%Z, 0%nat, 1%nat), 1%Q)].

(** The graphene cell with another scale factor and empty caches. *)
Definition stale_graphene : QCell :=
  mkCell (lat_vec graphene_diamond) (orbital_list graphene_diamond)
         (hopping_list graphene_diamond) 5%Q [] [] [] [].

(** The half-open unit cube moved back by the nudge [delta]. *)
Definition in_nudged_cube (delta : Q) (v : vec3 Q) : Prop :=
  let '(x, y, z) := v in
  (- delta <= x < 1 - delta)%Q ∧ (- delta <= y < 1 - delta)%Q
  ∧ (- delta <= z < 1 - delta)%Q.

(** * Properties *)

(** ** Loops *)

Lemma list_bind_cons {A B : Type} (f : A → list B) x l :
  (x :: l) ≫= f = f x ++ (l ≫= f).
Proof. done. Qed.

Lemma list_bind_nil {A B : Type} (f : A → list B) : [] ≫= f = [].
Proof. done. Qed.

Section Loops.

Context {A S : Type}.

Lemma for_each_app (body : S → A → result S) xs ys s :
  for_each body (xs ++ ys) s = (s' ← for_each body xs s; for_each body ys s').
Proof.
  revert s. induction xs as [|x xs IH]; intros s; simpl; [done|].
  destruct (body s x); simpl; [apply IH|done].
Qed.

(** A loop whose body never raises is a left fold. *)
Lemma for_each_pure (body : S → A → result S) (f : S → A → S) xs s :
  (∀ s x, x ∈ xs → body s x = Ok (f s x)) →
  for_each body xs s = Ok (foldl f s xs).
Proof.
  revert s. induction xs as [|x xs IH]; intros s Hb; simpl; [done|].
  rewrite Hb by left. simpl. apply IH. intros. apply Hb. by right.
Qed.

Lemma foldl_bind {B : Type} (f : S → B → S) (g : A → list B) xs s :
  foldl f s (xs ≫= g) = foldl (λ s x, foldl f s (g x)) s xs.
Proof.
  revert s. induction xs as [|x xs IH]; intros s; [done|].
  rewrite list_bind_cons, foldl_app, IH. done.
Qed.

Lemma foldl_ext_in {B : Type} (f g : S → B → S) (l : list B) s :
  (∀ s x, x ∈ l → f s x = g s x) → foldl f s l = foldl g s l.
Proof.
  revert s. induction l as [|x l IH]; intros s Hfg; simpl; [done|].
  rewrite Hfg by left. apply IH. intros. apply Hfg. by right.
Qed.

End Loops.

(** Filtering by appending to an accumulator. *)
Lemma foldl_filter_acc {A : Type} (p : A → bool) (l acc : list A) :
  foldl (λ acc x, if p x then acc ++ [x] else acc) acc l
  = acc ++ filter (λ x, p x = true) l.
Proof.
  revert acc. induction l as [|x l IH]; intros acc; simpl.
  - by rewrite app_nil_r.
  - rewrite IH. rewrite filter_cons. destruct (p x) eqn:Hp.
    + rewrite decide_True by done. by rewrite <- app_assoc.
    + rewrite decide_False by done. done.
Qed.

Lemma filter_ext_in {A : Type} (P Q : A → Prop)
    `{∀ x, Decision (P x)} `{∀ x, Decision (Q x)} (l : list A) :
  (∀ x, x ∈ l → P x ↔ Q x) → filter P l = filter Q l.
Proof.
  induction l as [|x l IH]; intros HPQ; [done|].
  rewrite !filter_cons. rewrite IH by (intros; apply HPQ; by right).
  destruct (decide (P x)) as [HP|HP], (decide (Q x)) as [HQ|HQ]; try done;
    exfalso; apply HPQ in HP || apply HPQ in HQ; try done; left.
Qed.

Lemma filter_id {A : Type} (P : A → Prop) `{∀ x, Decision (P x)} (l : list A) :
  (∀ x, x ∈ l → P x) → filter P l = l.
Proof.
  induction l as [|x l IH]; intros HP; [done|].
  rewrite filter_cons, decide_True by (apply HP; left).
  f_equal. apply IH. intros. apply HP. by right.
Qed.

Lemma filter_none {A : Type} (P : A → Prop) `{∀ x, Decision (P x)} (l : list A) :
  (∀ x, x ∈ l → ¬ P x) → filter P l = [].
Proof.
  induction l as [|x l IH]; intros HP; [done|].
  rewrite filter_cons, decide_False by (apply HP; left).
  apply IH. intros. apply HP. by right.
Qed.

(** ** apply_pbc *)

Section ApplyPbc.

Context {R : Type} `{Float64 R} {E : Type}.
Implicit Types (c : @PrimitiveCell R E) (h : @Hopping E).

Lemma hop_to_keep_scan_spec pa pb pc h n0 n1 n2 i j :
  index h = (n0, n1, n2, i, j) →
  hop_to_keep_scan [pa; pb; pc] [n0; n1; n2] = true ↔ periodic_ok pa pb pc h.
Proof.
  intros Hi. unfold periodic_ok. rewrite Hi. simpl.
  destruct pa, pb, pc; simpl;
    destruct (Z.eqb_spec n0 0), (Z.eqb_spec n1 0), (Z.eqb_spec n2 0); simpl;
    intuition congruence.
Qed.

Lemma apply_pbc_eq c pa pb pc :
  apply_pbc c [pa; pb; pc]
  = Ok (sync_array
          (set_hopping_list (filter (periodic_ok pa pb pc) (hopping_list c)) c)).
Proof.
  unfold apply_pbc. rewrite decide_False by (simpl; lia).
  do 3 f_equal.
  rewrite (foldl_ext_in _
             (λ acc h, if (let '(n0, n1, n2, _, _) := index h in
                           hop_to_keep_scan [pa; pb; pc] [n0; n1; n2])
                       then acc ++ [h] else acc))
    by (intros acc h _; by destruct (index h) as [[[[??]?]?]?]).
  rewrite (foldl_filter_acc
             (λ h, let '(n0, n1, n2, _, _) := index h in
                   hop_to_keep_scan [pa; pb; pc] [n0; n1; n2])).
  simpl. apply filter_ext_in. intros h _.
  destruct (index h) as [[[[n0 n1] n2] i] j] eqn:Hi.
  by apply hop_to_keep_scan_spec with i j.
Qed.

(** C6: [apply_pbc] replaces the hopping collection by exactly the hoppings
    whose cell offset is zero along every non-periodic axis; it never adds a
    hopping, applying it twice with the same vector equals applying it once,
    and with all three axes periodic the hopping collection is unchanged. *)
Theorem apply_pbc_filters c pa pb pc :
  ∃ c', apply_pbc c [pa; pb; pc] = Ok c'
    ∧ hopping_list c' = filter (periodic_ok pa pb pc) (hopping_list c)
    ∧ (∀ h, h ∈ hopping_list c' ↔ h ∈ hopping_list c ∧ periodic_ok pa pb pc h)
    ∧ hopping_list c' ⊆ hopping_list c
    ∧ apply_pbc c' [pa; pb; pc] = Ok c'
    ∧ (pa = true → pb = true → pc = true → hopping_list c' = hopping_list c).
Proof.
  eexists. split; [apply apply_pbc_eq|]. simpl.
  split; [done|]. split; [intros h; rewrite list_elem_of_filter; tauto|].
  split; [intros h; rewrite list_elem_of_filter; tauto|].
  split.
  - rewrite apply_pbc_eq. simpl. unfold sync_array, set_hopping_list. simpl.
    rewrite (filter_id (periodic_ok pa pb pc) (filter _ _)); [done|].
    intros h. rewrite list_elem_of_filter. tauto.
  - intros -> -> ->. apply filter_id. intros h _. unfold periodic_ok.
    destruct (hop_rn (index h)) as [[??]?]. done.
Qed.

End ApplyPbc.

(** ** Lists made of blocks of equal length *)

Section Blocks.

Context {A B : Type}.
Implicit Types (f : A → list B) (l : list A).

Lemma length_bind_uniform f l n :
  (∀ x, x ∈ l → length (f x) = n) → length (l ≫= f) = length l * n.
Proof.
  induction l as [|a l IH]; intros Hn; [done|].
  rewrite list_bind_cons, length_app, Hn by left.
  rewrite IH by (intros; apply Hn; by right). done.
Qed.

Lemma lookup_bind_uniform f l n k y :
  (∀ x, x ∈ l → length (f x) = n) →
  (l ≫= f) !! k = Some y
  ↔ ∃ i j x, k = i * n + j ∧ l !! i = Some x ∧ f x !! j = Some y.
Proof.
  revert k. induction l as [|a l IH]; intros k Hn.
  - rewrite list_bind_nil. split; [done|]. by intros (i & j & x & _ & ? & _).
  - rewrite list_bind_cons.
    assert (length (f a) = n) as Ha by (apply Hn; left).
    assert (∀ x, x ∈ l → length (f x) = n) as Hl by (intros; apply Hn; by right).
    destruct (decide (k < n)) as [Hk|Hk].
    + rewrite lookup_app_l by lia. split.
      * intros Hy. exists 0, k, a. done.
      * intros (i & j & x & -> & Hi & Hj). destruct i as [|i].
        -- simpl in Hi. by simplify_eq.
        -- simpl in Hk. lia.
    + rewrite lookup_app_r by lia. rewrite Ha, IH by done. split.
      * intros (i & j & x & Hkk & Hi & Hj). exists (S i), j, x.
        split; [simpl; lia|done].
      * intros (i & j & x & -> & Hi & Hj). destruct i as [|i].
        -- simpl in Hi. simplify_eq. apply lookup_lt_Some in Hj. simpl in Hk. lia.
        -- exists i, j, x. split; [simpl; lia|done].
Qed.

End Blocks.

Lemma lookup_range d i x :
  range d !! i = Some x ↔ x = Z.of_nat i ∧ (Z.of_nat i < d)%Z.
Proof. unfold range. rewrite lookup_seqZ. intuition lia. Qed.

Lemma length_range d : length (range d) = Z.to_nat d.
Proof. unfold range. apply length_seqZ. Qed.

Lemma lookup_enumerate {A : Type} (l : list A) i x :
  enumerate l !! i = Some x ↔ x.1 = i ∧ l !! i = Some x.2.
Proof.
  unfold enumerate. rewrite list_lookup_imap_Some. destruct x as [j a]. simpl.
  split.
  - intros (y & Hy & Heq). by simplify_eq.
  - intros [-> Ha]. by exists a.
Qed.

Lemma length_enumerate {A : Type} (l : list A) : length (enumerate l) = length l.
Proof. apply length_imap. Qed.

Lemma elem_of_enumerate {A : Type} (l : list A) x :
  x ∈ enumerate l ↔ l !! x.1 = Some x.2.
Proof.
  rewrite list_elem_of_lookup. split.
  - intros [i Hi]. apply lookup_enumerate in Hi as [<- ?]. done.
  - intros Hx. exists x.1. by apply lookup_enumerate.
Qed.

(** ** Bookkeeping of replicas *)

Section Bookkeeping.

Context {R : Type} `{Float64 R} {E : Type}.
Implicit Types (c : @PrimitiveCell R E) (st : @orb_state R E).
Implicit Types (items : list (id_pc_t * vec3 R * R)).

Lemma append_orbitals_nil c : append_orbitals [] c = c.
Proof. destruct c. unfold append_orbitals. simpl. by rewrite app_nil_r. Qed.

Lemma append_hoppings_nil c : append_hoppings [] c = c.
Proof. destruct c. unfold append_hoppings. simpl. by rewrite app_nil_r. Qed.

Lemma append_hoppings_app hs1 hs2 c :
  append_hoppings hs2 (append_hoppings hs1 c) = append_hoppings (hs1 ++ hs2) c.
Proof. unfold append_hoppings. simpl. by rewrite app_assoc. Qed.

Lemma add_hopping_append rn i j e c :
  add_hopping rn i j e c
  = append_hoppings [mkHopping (rn.1.1, rn.1.2, rn.2, i, j) e] c.
Proof. by destruct rn as [[??]?]. Qed.

Lemma record_all_cons id_pc pos e items st :
  record_all ((id_pc, pos, e) :: items) st
  = record_all items (record_orbital id_pc pos e st).
Proof. done. Qed.

Lemma record_all_app items1 items2 st :
  record_all (items1 ++ items2) st = record_all items2 (record_all items1 st).
Proof. unfold record_all. apply foldl_app. Qed.

Lemma record_all_orb_id_pc items st :
  orb_id_pc (record_all items st) = orb_id_pc st ++ items.*1.*1.
Proof.
  revert st. induction items as [|[[k p] e] items IH]; intros st.
  - simpl. by rewrite app_nil_r.
  - rewrite record_all_cons, IH. simpl. by rewrite <- app_assoc.
Qed.

Lemma record_all_id_sc items st :
  id_sc (record_all items st) = id_sc st + length items.
Proof.
  revert st. induction items as [|[[k p] e] items IH]; intros st.
  - simpl. lia.
  - rewrite record_all_cons, IH. simpl. lia.
Qed.

Lemma record_all_cell items st :
  st_cell (record_all items st)
  = append_orbitals (item_orbital <$> items) (st_cell st).
Proof.
  revert st. induction items as [|[[k p] e] items IH]; intros st.
  - simpl. by rewrite append_orbitals_nil.
  - rewrite record_all_cons, IH. unfold append_orbitals. simpl.
    by rewrite <- app_assoc.
Qed.

Lemma record_orbital_dict_ok k pos e st :
  dict_ok st → k ∉ orb_id_pc st → dict_ok (record_orbital k pos e st).
Proof.
  intros [Hlen Hinv] Hk. split; simpl.
  - rewrite length_app. simpl. lia.
  - intros k' i. destruct (decide (k = k')) as [<-|Hne].
    + rewrite lookup_insert_eq. split.
      * intros [= <-]. rewrite Hlen. by rewrite list_lookup_middle.
      * intros Hi. f_equal. destruct (decide (i < length (orb_id_pc st))).
        -- rewrite lookup_app_l in Hi by done.
           exfalso. apply Hk. by eapply list_elem_of_lookup_2.
        -- apply lookup_lt_Some in Hi. rewrite length_app in Hi. simpl in Hi. lia.
    + rewrite lookup_insert_ne by done. rewrite Hinv. split.
      * intros Hi. by apply lookup_app_l_Some.
      * intros Hi. apply lookup_app_Some in Hi as [Hi|[_ Hi]]; [done|].
        apply list_lookup_singleton_Some in Hi as [_ ?]. done.
Qed.

Lemma record_all_dict_ok items st :
  dict_ok st → NoDup (orb_id_pc st ++ items.*1.*1) → dict_ok (record_all items st).
Proof.
  revert st. induction items as [|[[k p] e] items IH]; intros st Hok Hnd; [done|].
  rewrite record_all_cons. simpl in Hnd. apply IH.
  - apply record_orbital_dict_ok; [done|].
    apply NoDup_app in Hnd as (_ & Hnd & _). intros Hin. apply (Hnd _ Hin). left.
  - simpl. by rewrite <- app_assoc.
Qed.

Lemma dict_ok_empty c : dict_ok (mkOrbState [] ∅ 0 c).
Proof. split; [done|]. intros k i. simpl. by rewrite lookup_empty, lookup_nil. Qed.

(** A loop that only appends hopping terms. *)
Lemma for_each_append {A : Type} (body : PrimitiveCell → A → result PrimitiveCell)
    (g : A → list Hopping) xs c :
  (∀ c x, x ∈ xs → body c x = Ok (append_hoppings (g x) c)) →
  for_each body xs c = Ok (append_hoppings (xs ≫= g) c).
Proof.
  revert c. induction xs as [|x xs IH]; intros c Hb.
  - simpl. by rewrite append_hoppings_nil.
  - rewrite list_bind_cons. cbn [for_each]. rewrite Hb by left.
    change (for_each body xs (append_hoppings (g x) c)
            = Ok (append_hoppings (g x ++ (xs ≫= g)) c)).
    rewrite IH by (intros; apply Hb; by right).
    by rewrite append_hoppings_app.
Qed.

(** A loop that only records orbitals. *)
Lemma for_each_record {A : Type} (body : orb_state → A → result orb_state)
    (g : A → list (id_pc_t * vec3 R * R)) xs st :
  (∀ st x, x ∈ xs → body st x = Ok (record_all (g x) st)) →
  for_each body xs st = Ok (record_all (xs ≫= g) st).
Proof.
  revert st. induction xs as [|x xs IH]; intros st Hb; [done|].
  rewrite list_bind_cons. cbn [for_each]. rewrite Hb by left.
  change (for_each body xs (record_all (g x) st)
          = Ok (record_all (g x ++ (xs ≫= g)) st)).
  rewrite IH by (intros; apply Hb; by right).
  by rewrite record_all_app.
Qed.

Lemma foldl_record {A : Type} (body : orb_state → A → orb_state)
    (g : A → list (id_pc_t * vec3 R * R)) xs st :
  (∀ st x, x ∈ xs → body st x = record_all (g x) st) →
  foldl body st xs = record_all (xs ≫= g) st.
Proof.
  revert st. induction xs as [|x xs IH]; intros st Hb; [done|].
  rewrite list_bind_cons. cbn [foldl]. rewrite Hb by left.
  rewrite IH by (intros; apply Hb; by right).
  by rewrite record_all_app.
Qed.

End Bookkeeping.

(** ** extend_prim_cell: the orbitals *)

Section ExtendOrbitals.

Context {R : Type} `{Float64 R} {E : Type}.
Implicit Types (c : @PrimitiveCell R E) (st : @orb_state R E).
Implicit Types (orbs : list (@Orbital R)) (dim : vec3 Z).

Lemma extend_orbitals_eq c dim cell0 :
  extend_orbitals c dim cell0
  = record_all (extend_items (orbital_list c) dim) (mkOrbState [] ∅ 0 cell0).
Proof.
  destruct dim as [[d0 d1] d2]. unfold extend_orbitals, extend_items.
  apply foldl_record. intros st i_a _.
  apply foldl_record. intros st' i_b _.
  apply foldl_record. intros st'' i_c _.
  apply foldl_record. intros st''' [i_o orbital] _. done.
Qed.

Lemma length_extend_items orbs d0 d1 d2 :
  length (extend_items orbs (d0, d1, d2))
  = Z.to_nat d0 * (Z.to_nat d1 * (Z.to_nat d2 * (length orbs * 1))).
Proof.
  unfold extend_items.
  rewrite (length_bind_uniform _ _ (Z.to_nat d1 * (Z.to_nat d2 * (length orbs * 1)))).
  { by rewrite length_range. }
  intros i_a _.
  rewrite (length_bind_uniform _ _ (Z.to_nat d2 * (length orbs * 1))).
  { by rewrite length_range. }
  intros i_b _.
  rewrite (length_bind_uniform _ _ (length orbs * 1)).
  { by rewrite length_range. }
  intros i_c _.
  rewrite (length_bind_uniform _ _ 1); [|done].
  by rewrite length_enumerate.
Qed.

Lemma new_index_nat d0 d1 d2 N (i1 i2 i3 i4 : nat) :
  (Z.of_nat i2 < d1)%Z → (Z.of_nat i3 < d2)%Z →
  new_index (d0, d1, d2) N (Z.of_nat i1, Z.of_nat i2, Z.of_nat i3, i4)
  = i1 * (Z.to_nat d1 * (Z.to_nat d2 * (N * 1)))
    + (i2 * (Z.to_nat d2 * (N * 1)) + (i3 * (N * 1) + (i4 * 1 + 0))).
Proof.
  intros H1 H2. unfold new_index.
  rewrite <- (Z2Nat.id d1), <- (Z2Nat.id d2) by lia.
  generalize (Z.to_nat d1) (Z.to_nat d2). intros D1 D2.
  rewrite <- !Nat2Z.inj_mul, <- !Nat2Z.inj_add, <- !Nat2Z.inj_mul,
    <- !Nat2Z.inj_add, <- !Nat2Z.inj_mul, <- !Nat2Z.inj_add.
  rewrite Nat2Z.id. lia.
Qed.

(** The recorded orbitals, entry by entry. *)
Lemma extend_items_lookup orbs d0 d1 d2 k it :
  extend_items orbs (d0, d1, d2) !! k = Some it
  ↔ ∃ i_a i_b i_c i_o o,
      (0 ≤ i_a < d0)%Z ∧ (0 ≤ i_b < d1)%Z ∧ (0 ≤ i_c < d2)%Z
      ∧ orbs !! i_o = Some o
      ∧ k = new_index (d0, d1, d2) (length orbs) (i_a, i_b, i_c, i_o)
      ∧ it = ((i_a, i_b, i_c, i_o),
              make_pos_ext (d0, d1, d2) (i_a, i_b, i_c) (position o), energy o).
Proof.
  pose (f4 := λ i_a i_b i_c (x : nat * Orbital),
         [((i_a, i_b, i_c, x.1),
           make_pos_ext (d0, d1, d2) (i_a, i_b, i_c) (position x.2), energy x.2)]).
  pose (f3 := λ i_a i_b i_c, enumerate orbs ≫= f4 i_a i_b i_c).
  pose (f2 := λ i_a i_b, range d2 ≫= f3 i_a i_b).
  pose (f1 := λ i_a, range d1 ≫= f2 i_a).
  change (extend_items orbs (d0, d1, d2)) with (range d0 ≫= f1).
  assert (∀ i_a i_b i_c, length (f3 i_a i_b i_c) = length orbs * 1) as L3.
  { intros. unfold f3. rewrite (length_bind_uniform _ _ 1) by done.
    by rewrite length_enumerate. }
  assert (∀ i_a i_b, length (f2 i_a i_b) = Z.to_nat d2 * (length orbs * 1)) as L2.
  { intros. unfold f2. rewrite (length_bind_uniform _ _ (length orbs * 1)) by done.
    by rewrite length_range. }
  assert (∀ i_a, length (f1 i_a)
                 = Z.to_nat d1 * (Z.to_nat d2 * (length orbs * 1))) as L1.
  { intros. unfold f1.
    rewrite (length_bind_uniform _ _ (Z.to_nat d2 * (length orbs * 1))) by done.
    by rewrite length_range. }
  rewrite (lookup_bind_uniform f1 _ _ _ _ (λ x _, L1 x)).
  split.
  - intros (i1 & j1 & i_a & -> & [-> Ha]%lookup_range & Hj1).
    unfold f1 in Hj1. rewrite (lookup_bind_uniform _ _ _ _ _ (λ x _, L2 _ x)) in Hj1.
    destruct Hj1 as (i2 & j2 & i_b & -> & [-> Hb]%lookup_range & Hj2).
    unfold f2 in Hj2. rewrite (lookup_bind_uniform _ _ _ _ _ (λ x _, L3 _ _ x)) in Hj2.
    destruct Hj2 as (i3 & j3 & i_c & -> & [-> Hc]%lookup_range & Hj3).
    unfold f3 in Hj3. rewrite (lookup_bind_uniform _ _ 1) in Hj3 by done.
    destruct Hj3 as (i4 & j4 & [i_o o] & -> & [Hio Ho]%lookup_enumerate & Hj4).
    simpl in Hio, Ho. subst i_o. unfold f4 in Hj4.
    apply list_lookup_singleton_Some in Hj4 as [-> <-].
    exists (Z.of_nat i1), (Z.of_nat i2), (Z.of_nat i3), i4, o.
    rewrite new_index_nat by done. repeat split; try lia; done.
  - intros (i_a & i_b & i_c & i_o & o & Ha & Hb & Hc & Ho & -> & ->).
    rewrite <- (Z2Nat.id i_a), <- (Z2Nat.id i_b), <- (Z2Nat.id i_c) by lia.
    rewrite new_index_nat by lia.
    eexists _, _, _. split; [done|]. split; [apply lookup_range; split; [done|lia]|].
    unfold f1. rewrite (lookup_bind_uniform _ _ _ _ _ (λ x _, L2 _ x)).
    eexists _, _, _. split; [done|]. split; [apply lookup_range; split; [done|lia]|].
    unfold f2. rewrite (lookup_bind_uniform _ _ _ _ _ (λ x _, L3 _ _ x)).
    eexists _, _, _. split; [done|]. split; [apply lookup_range; split; [done|lia]|].
    unfold f3. rewrite (lookup_bind_uniform _ _ 1) by done.
    exists i_o, 0, (i_o, o). split; [done|].
    split; [by apply lookup_enumerate|]. done.
Qed.

Lemma extend_ids_lookup orbs d0 d1 d2 k id_pc :
  (extend_items orbs (d0, d1, d2)).*1.*1 !! k = Some id_pc
  ↔ (0 ≤ id_pc.1.1.1 < d0)%Z ∧ (0 ≤ id_pc.1.1.2 < d1)%Z ∧ (0 ≤ id_pc.1.2 < d2)%Z
    ∧ id_pc.2 < length orbs
    ∧ k = new_index (d0, d1, d2) (length orbs) id_pc.
Proof.
  rewrite list_lookup_fmap_Some. split.
  - intros (x & -> & (it & -> & Hit)%list_lookup_fmap_Some).
    apply extend_items_lookup in Hit
      as (i_a & i_b & i_c & i_o & o & Ha & Hb & Hc & Ho & -> & ->).
    cbn [fst snd]. apply lookup_lt_Some in Ho. done.
  - destruct id_pc as [[[i_a i_b] i_c] i_o]. cbn [fst snd].
    intros (Ha & Hb & Hc & Ho & ->).
    apply lookup_lt_is_Some in Ho as [o Ho].
    eexists (_, _). split; [reflexivity|].
    apply list_lookup_fmap_Some. eexists (_, _, _). split; [reflexivity|].
    apply extend_items_lookup. by exists i_a, i_b, i_c, i_o, o.
Qed.

Lemma extend_ids_NoDup orbs d0 d1 d2 :
  NoDup (extend_items orbs (d0, d1, d2)).*1.*1.
Proof.
  apply NoDup_alt. intros i j id_pc Hi Hj.
  apply extend_ids_lookup in Hi as (_ & _ & _ & _ & ->).
  apply extend_ids_lookup in Hj as (_ & _ & _ & _ & ->). done.
Qed.

Lemma extend_orbitals_dict_ok c dim cell0 :
  dict_ok (extend_orbitals c dim cell0).
Proof.
  rewrite extend_orbitals_eq. destruct dim as [[d0 d1] d2].
  apply record_all_dict_ok; [apply dict_ok_empty|]. apply extend_ids_NoDup.
Qed.

Lemma extend_orbitals_ids c dim cell0 :
  orb_id_pc (extend_orbitals c dim cell0)
  = (extend_items (orbital_list c) dim).*1.*1.
Proof. by rewrite extend_orbitals_eq, record_all_orb_id_pc. Qed.

Lemma extend_orbitals_cell c dim cell0 :
  st_cell (extend_orbitals c dim cell0)
  = append_orbitals (item_orbital <$> extend_items (orbital_list c) dim) cell0.
Proof. by rewrite extend_orbitals_eq, record_all_cell. Qed.

(** The dict of [extend_prim_cell] at a key of the grid. *)
Lemma extend_dict_lookup c d0 d1 d2 cell0 id_pc :
  (0 ≤ id_pc.1.1.1 < d0)%Z → (0 ≤ id_pc.1.1.2 < d1)%Z → (0 ≤ id_pc.1.2 < d2)%Z →
  id_pc.2 < num_orb c →
  orb_id_sc (extend_orbitals c (d0, d1, d2) cell0) !! id_pc
  = Some (new_index (d0, d1, d2) (num_orb c) id_pc).
Proof.
  intros Ha Hb Hc Ho.
  apply (proj2 (extend_orbitals_dict_ok c (d0, d1, d2) cell0)).
  rewrite extend_orbitals_ids. by apply extend_ids_lookup.
Qed.

End ExtendOrbitals.

(** ** More on loops and sums *)

Lemma for_each_ext_in {A S : Type} (f g : S → A → result S) xs s :
  (∀ s x, x ∈ xs → f s x = g s x) → for_each f xs s = for_each g xs s.
Proof.
  revert s. induction xs as [|x xs IH]; intros s Hfg; [done|].
  cbn [for_each]. rewrite Hfg by left. destruct (g s x); [|done].
  apply IH. intros. apply Hfg. by right.
Qed.

Lemma enumerate_snoc {A : Type} (l : list A) x :
  enumerate (l ++ [x]) = enumerate l ++ [(length l, x)].
Proof.
  unfold enumerate. rewrite imap_app. simpl. by rewrite Nat.add_0_r.
Qed.

(** [for i in range(len(l)): x = l[i]; ...] is [for i, x in enumerate(l)]. *)
Lemma for_each_range_subscript {A S : Type} (l : list A)
    (body : S → nat → A → result S) s :
  for_each (λ s i, x ← subscript l i; body s i x) (seq 0 (length l)) s
  = for_each (λ s ix, body s ix.1 ix.2) (enumerate l) s.
Proof.
  revert s. induction l as [|x l IH] using rev_ind; intros s; [done|].
  rewrite length_app, Nat.add_comm. cbn [length Nat.add].
  rewrite seq_S, enumerate_snoc, !for_each_app. cbn [Nat.add].
  rewrite <- IH.
  rewrite (for_each_ext_in _ (λ s i, x ← subscript l i; body s i x)); last first.
  { intros s' i [_ Hi]%elem_of_seq. unfold subscript.
    rewrite lookup_app_l by (simpl in Hi; lia). done. }
  destruct (for_each _ (seq 0 (length l)) s) as [s'|e]; [|done].
  cbn [mbind result_bind for_each]. unfold subscript.
  rewrite list_lookup_middle by done. done.
Qed.

Lemma sum_list_cons (x : nat) (l : list nat) : sum_list (x :: l) = x + sum_list l.
Proof. done. Qed.

Lemma sum_list_app (l1 l2 : list nat) :
  sum_list (l1 ++ l2) = sum_list l1 + sum_list l2.
Proof. induction l1 as [|x l1 IH]; simpl; [done|]. rewrite IH. lia. Qed.

Lemma length_bind {A B : Type} (f : A → list B) (l : list A) :
  length (l ≫= f) = sum_list ((λ x, length (f x)) <$> l).
Proof.
  induction l as [|x l IH]; [done|].
  rewrite list_bind_cons, length_app, IH. done.
Qed.

Lemma fmap_bind {A B C : Type} (g : B → C) (f : A → list B) (l : list A) :
  g <$> (l ≫= f) = l ≫= (λ x, g <$> f x).
Proof.
  induction l as [|x l IH]; [done|].
  rewrite !list_bind_cons, fmap_app, IH. done.
Qed.

Lemma bind_ext_in {A B : Type} (f g : A → list B) (l : list A) :
  (∀ x, x ∈ l → f x = g x) → l ≫= f = l ≫= g.
Proof.
  intros Hfg. apply Forall_bind_ext. by apply Forall_forall.
Qed.

Lemma filter_bind_const {A B : Type} (P : B → Prop) `{∀ x, Decision (P x)}
    (l : list A) (blk : list B) :
  length (filter P (l ≫= λ _, blk)) = length l * length (filter P blk).
Proof.
  induction l as [|x l IH]; [done|].
  rewrite list_bind_cons, filter_app, length_app, IH. simpl. done.
Qed.

Lemma fst_enumerate {A : Type} (l : list A) : (enumerate l).*1 = seq 0 (length l).
Proof.
  unfold enumerate. rewrite fmap_imap.
  rewrite <- (list_fmap_id (seq 0 (length l))).
  rewrite <- (imap_seq_0 l id). by apply imap_ext.
Qed.

Lemma snd_enumerate {A : Type} (l : list A) : (enumerate l).*2 = l.
Proof.
  unfold enumerate. rewrite fmap_imap.
  induction l as [|x l IH] using rev_ind; [done|].
  rewrite imap_app, IH. done.
Qed.

Lemma bind_singleton_fmap {A B : Type} (f : A → B) (l : list A) :
  l ≫= (λ x, [f x]) = f <$> l.
Proof. induction l as [|x l IH]; [done|]. rewrite list_bind_cons, IH. done. Qed.

(** An index below [N] occurs once in [0, N). *)
Lemma count_in_seq (a N : nat) :
  a < N → length (filter (λ i_o, a = i_o) (seq 0 N)) = 1.
Proof.
  induction N as [|N IH]; [lia|]. intros Ha.
  rewrite seq_S, filter_app, length_app. cbn [Nat.add].
  rewrite filter_cons, filter_nil. destruct (decide (a = N)) as [->|Hne].
  - rewrite filter_none; [done|].
    intros i [_ Hi]%elem_of_seq. simpl in Hi. lia.
  - rewrite IH by lia. done.
Qed.

Section Counting.

Context {E : Type}.
Implicit Types (hops : list (@Hopping E)) (srcs : list nat).

(** Double counting: hopping terms per source orbital, or source orbitals
    per hopping term. *)
Lemma sum_count_src_swap hops srcs :
  sum_list (count_src hops <$> srcs)
  = sum_list ((λ h, length (filter (λ i_o, hop_i (index h) = i_o) srcs)) <$> hops).
Proof.
  induction hops as [|h hops IH].
  - induction srcs as [|x srcs IHs]; [done|].
    rewrite fmap_cons, sum_list_cons, IHs. done.
  - rewrite fmap_cons, sum_list_cons, <- IH. clear IH.
    induction srcs as [|x srcs IHs]; [done|].
    rewrite !fmap_cons, !sum_list_cons, IHs.
    unfold count_src. rewrite !filter_cons.
    destruct (decide (hop_i (index h) = x)); simpl; lia.
Qed.

Lemma sum_count_src_uniform hops srcs m :
  (∀ h, h ∈ hops → length (filter (λ i_o, hop_i (index h) = i_o) srcs) = m) →
  sum_list (count_src hops <$> srcs) = length hops * m.
Proof.
  intros Hm. rewrite sum_count_src_swap. apply sum_list_fmap_same.
  by apply Forall_forall.
Qed.

End Counting.

(** ** extend_prim_cell: the hopping terms and the result *)

Section ExtendHoppings.

Context {R : Type} `{Float64 R} {E : Type}.
Implicit Types (c : @PrimitiveCell R E) (st : @orb_state R E).

Lemma extend_inner_loop c d0 d1 d2 cell0 id_sc_i id_pc_i ec :
  (1 ≤ d0)%Z → (1 ≤ d1)%Z → (1 ≤ d2)%Z → valid_cell c →
  for_each (extend_add_hopping (d0, d1, d2)
              (extend_orbitals c (d0, d1, d2) cell0) id_sc_i id_pc_i)
           (hopping_list c) ec
  = Ok (append_hoppings
          (extend_hops_of (d0, d1, d2) (num_orb c) (hopping_list c) id_sc_i id_pc_i)
          ec).
Proof.
  intros H0 H1 H2 Hv. destruct id_pc_i as [[[i_a i_b] i_c] i_o].
  unfold extend_hops_of. apply for_each_append.
  intros ec' hop Hhop. unfold extend_add_hopping.
  destruct (index hop) as [[[[h0 h1] h2] h3] h4] eqn:Hi.
  destruct (decide (i_o = h3)) as [->|Hne].
  - unfold _wrap_pbc. unfold getitem.
    rewrite extend_dict_lookup; cbn [fst snd].
    + done.
    + apply Z.mod_pos_bound. lia.
    + apply Z.mod_pos_bound. lia.
    + apply Z.mod_pos_bound. lia.
    + apply Hv in Hhop as [_ Hj]. by rewrite Hi in Hj.
  - by rewrite append_hoppings_nil.
Qed.

Lemma extend_hoppings_eq c d0 d1 d2 cell0 :
  (1 ≤ d0)%Z → (1 ≤ d1)%Z → (1 ≤ d2)%Z → valid_cell c →
  orbital_list cell0 = [] →
  let st := extend_orbitals c (d0, d1, d2) cell0 in
  extend_hoppings c (d0, d1, d2) st
  = Ok (append_hoppings
          (extend_hops (d0, d1, d2) (num_orb c) (hopping_list c) (orb_id_pc st))
          (st_cell st)).
Proof.
  intros H0 H1 H2 Hv Hnil st. unfold extend_hoppings, extend_hops.
  assert (num_orb (st_cell st) = length (orb_id_pc st)) as ->.
  { subst st. rewrite extend_orbitals_cell, extend_orbitals_ids.
    unfold num_orb, append_orbitals. simpl. rewrite Hnil. simpl.
    by rewrite !length_fmap. }
  rewrite (for_each_range_subscript (orb_id_pc st)
             (λ extend_cell id_sc_i id_pc_i,
                for_each (extend_add_hopping (d0, d1, d2) st id_sc_i id_pc_i)
                         (hopping_list c) extend_cell)).
  apply for_each_append. intros ec [id_sc_i id_pc_i] _.
  by apply extend_inner_loop.
Qed.

Lemma extend_prim_cell_eq c na nb nc :
  (1 ≤ na)%Z → (1 ≤ nb)%Z → (1 ≤ nc)%Z → valid_cell c →
  extend_prim_cell c [na; nb; nc] = Ok (extend_result c (na, nb, nc)).
Proof.
  intros H0 H1 H2 Hv. unfold extend_prim_cell.
  cbn [correct_coord mbind result_bind].
  rewrite decide_False by lia.
  destruct (lat_vec c) as [[l0 l1] l2] eqn:Hlat.
  rewrite extend_hoppings_eq by done. cbn [mbind result_bind].
  rewrite extend_orbitals_cell, extend_orbitals_ids.
  unfold extend_result, scale_lat_vec. rewrite Hlat. done.
Qed.

End ExtendHoppings.

(** ** extend_prim_cell: the stated properties *)

Section ExtendProperties.

Context {R : Type} `{Float64 R} {E : Type}.
Implicit Types (c : @PrimitiveCell R E) (h : @Hopping E).

Lemma length_extend_hops_of dim N (hops : list (@Hopping E)) i id_pc :
  length (extend_hops_of dim N hops i id_pc) = count_src hops id_pc.2.
Proof.
  destruct dim as [[d0 d1] d2], id_pc as [[[i_a i_b] i_c] i_o].
  unfold extend_hops_of, count_src. cbn [snd].
  induction hops as [|h hops IH]; [done|].
  rewrite list_bind_cons, length_app, IH, filter_cons.
  destruct (index h) as [[[[h0 h1] h2] h3] h4]. cbn [hop_i].
  destruct (decide (i_o = h3)) as [->|Hne].
  - by rewrite decide_True.
  - by rewrite decide_False.
Qed.

Lemma extend_srcs (orbs : list (@Orbital R)) d0 d1 d2 :
  (extend_items orbs (d0, d1, d2)).*1.*1.*2
  = range d0 ≫= λ _, range d1 ≫= λ _, range d2 ≫= λ _, seq 0 (length orbs).
Proof.
  rewrite <- !list_fmap_compose. unfold extend_items.
  rewrite fmap_bind. apply bind_ext_in. intros i_a _.
  rewrite fmap_bind. apply bind_ext_in. intros i_b _.
  rewrite fmap_bind. apply bind_ext_in. intros i_c _.
  rewrite fmap_bind. rewrite <- fst_enumerate.
  rewrite <- (bind_singleton_fmap fst). done.
Qed.

Lemma length_extend_hops c d0 d1 d2 :
  valid_cell c →
  length (extend_hops (d0, d1, d2) (num_orb c) (hopping_list c)
            (extend_items (orbital_list c) (d0, d1, d2)).*1.*1)
  = length (hopping_list c) * (Z.to_nat d0 * (Z.to_nat d1 * (Z.to_nat d2 * 1))).
Proof.
  intros Hv. unfold extend_hops. rewrite length_bind.
  set (ids := (extend_items (orbital_list c) (d0, d1, d2)).*1.*1).
  assert ((λ x, length (extend_hops_of (d0, d1, d2) (num_orb c) (hopping_list c)
                          x.1 x.2)) <$> enumerate ids
          = count_src (hopping_list c) <$> ids.*2) as ->.
  { rewrite <- (snd_enumerate ids) at 2. rewrite <- !list_fmap_compose.
    apply list_fmap_ext. intros i x _. apply length_extend_hops_of. }
  subst ids. rewrite extend_srcs. apply sum_count_src_uniform. intros h Hh.
  rewrite !filter_bind_const, !length_range.
  rewrite count_in_seq; [done|]. by apply Hv.
Qed.

Lemma elem_of_extend_hops c d0 d1 d2 h' :
  valid_cell c →
  h' ∈ extend_hops (d0, d1, d2) (num_orb c) (hopping_list c)
         (extend_items (orbital_list c) (d0, d1, d2)).*1.*1
  ↔ ∃ h i_a i_b i_c,
      h ∈ hopping_list c
      ∧ (0 ≤ i_a < d0)%Z ∧ (0 ≤ i_b < d1)%Z ∧ (0 ≤ i_c < d2)%Z
      ∧ h' = wrapped_hopping (d0, d1, d2) (num_orb c) (i_a, i_b, i_c) h.
Proof.
  intros Hv. unfold extend_hops. rewrite list_elem_of_bind. split.
  - intros ([i [[[i_a i_b] i_c] i_o]] & Hin & Hx).
    apply elem_of_enumerate in Hx. cbn [fst snd] in Hx, Hin.
    apply extend_ids_lookup in Hx as (Ha & Hb & Hc & Ho & ->). cbn [fst snd] in *.
    unfold extend_hops_of in Hin. apply list_elem_of_bind in Hin as (h & Hin & Hh).
    exists h, i_a, i_b, i_c. split; [done|]. do 3 (split; [done|]).
    unfold wrapped_hopping.
    destruct (index h) as [[[[h0 h1] h2] h3] h4].
    destruct (decide (i_o = h3)) as [->|Hne]; [|by apply elem_of_nil in Hin].
    by apply list_elem_of_singleton in Hin.
  - intros (h & i_a & i_b & i_c & Hh & Ha & Hb & Hc & ->).
    pose proof (Hv h Hh) as [Hi _].
    exists (new_index (d0, d1, d2) (num_orb c) (i_a, i_b, i_c, hop_i (index h)),
            (i_a, i_b, i_c, hop_i (index h))).
    split.
    + cbn [fst snd]. unfold extend_hops_of. apply list_elem_of_bind.
      exists h. split; [|done]. unfold wrapped_hopping.
      destruct (index h) as [[[[h0 h1] h2] h3] h4]. cbn [hop_i].
      rewrite decide_True by done. by apply list_elem_of_singleton.
    + apply elem_of_enumerate. cbn [fst snd]. by apply extend_ids_lookup.
Qed.

(** C3: for dimensions at least one, [extend_prim_cell] returns a cell with
    exactly [na * nb * nc * N] orbitals; the replica of orbital [i_o] in grid
    cell [(i_a, i_b, i_c)] sits at index
    [((i_a * nb + i_b) * nc + i_c) * N + i_o], has position
    [(position + (i_a, i_b, i_c)) / dim] component-wise, each coordinate the
    float quotient of the float sum of the original coordinate and the grid
    index by the dimension, and the energy of the original; there are no
    other orbitals; each lattice vector is the original one with every
    component multiplied by the dimension of its axis. *)
Theorem extend_replicates_orbitals c na nb nc :
  (1 ≤ na)%Z → (1 ≤ nb)%Z → (1 ≤ nc)%Z → valid_cell c →
  ∃ c', extend_prim_cell c [na; nb; nc] = Ok c'
    ∧ Z.of_nat (num_orb c') = (na * nb * nc * Z.of_nat (num_orb c))%Z
    ∧ (∀ k o', orbital_list c' !! k = Some o'
         ↔ ∃ i_a i_b i_c i_o o,
             (0 ≤ i_a < na)%Z ∧ (0 ≤ i_b < nb)%Z ∧ (0 ≤ i_c < nc)%Z
             ∧ orbital_list c !! i_o = Some o
             ∧ Z.of_nat k
               = (((i_a * nb + i_b) * nc + i_c) * Z.of_nat (num_orb c)
                  + Z.of_nat i_o)%Z
             ∧ position o'
               = (fdiv (fadd (position o).1.1 (of_int i_a)) (of_int na),
                  fdiv (fadd (position o).1.2 (of_int i_b)) (of_int nb),
                  fdiv (fadd (position o).2 (of_int i_c)) (of_int nc))
             ∧ energy o' = energy o)
    ∧ (lat_vec c').1.1
      = ((λ x, fmul x (of_int na)) ((lat_vec c).1.1).1.1,
         (λ x, fmul x (of_int na)) ((lat_vec c).1.1).1.2,
         (λ x, fmul x (of_int na)) ((lat_vec c).1.1).2)
    ∧ (lat_vec c').1.2
      = ((λ x, fmul x (of_int nb)) ((lat_vec c).1.2).1.1,
         (λ x, fmul x (of_int nb)) ((lat_vec c).1.2).1.2,
         (λ x, fmul x (of_int nb)) ((lat_vec c).1.2).2)
    ∧ (lat_vec c').2
      = ((λ x, fmul x (of_int nc)) ((lat_vec c).2).1.1,
         (λ x, fmul x (of_int nc)) ((lat_vec c).2).1.2,
         (λ x, fmul x (of_int nc)) ((lat_vec c).2).2).
Proof.
  intros Ha Hb Hc Hv. eexists. split; [by apply extend_prim_cell_eq|].
  cbn [extend_result sync_array lat_vec orbital_list num_orb].
  split; [|split].
  - unfold num_orb. cbn [sync_array orbital_list].
    rewrite length_fmap, length_extend_items. lia.
  - intros k o'. rewrite list_lookup_fmap_Some. split.
    + intros (it & -> & Hit). apply extend_items_lookup in Hit
        as (i_a & i_b & i_c & i_o & o & ? & ? & ? & Ho & -> & ->).
      exists i_a, i_b, i_c, i_o, o. do 4 (split; [done|]).
      split; [|split; [|done]].
      * apply lookup_lt_Some in Ho. unfold new_index, num_orb.
        rewrite Z2Nat.id; [done|]. nia.
      * unfold item_orbital, make_pos_ext. cbn [position fst snd].
        by destruct (position o) as [[p0 p1] p2].
    + intros (i_a & i_b & i_c & i_o & o & ? & ? & ? & Ho & Hk & Hp & He).
      exists ((i_a, i_b, i_c, i_o),
              make_pos_ext (na, nb, nc) (i_a, i_b, i_c) (position o), energy o).
      split.
      * destruct o' as [p' e']. cbn [position energy] in Hp, He. subst p' e'.
        unfold item_orbital, make_pos_ext. cbn [fst snd]. f_equal.
        by destruct (position o) as [[p0 p1] p2].
      * apply extend_items_lookup. exists i_a, i_b, i_c, i_o, o.
        do 4 (split; [done|]). split; [|done].
        unfold new_index, num_orb in *. rewrite <- Hk. by rewrite Nat2Z.id.
  - unfold scale_lat_vec. destruct (lat_vec c) as [[[[l00 l01] l02] l1] l2].
    destruct l1 as [[l10 l11] l12], l2 as [[l20 l21] l22]. done.
Qed.


(** C4: every original hopping [(cell_offset, i, j, energy)] and every grid
    cell [(i_a, i_b, i_c)] give one hopping of the supercell, from the replica
    of [i] in that grid cell to the replica of [j] at grid coordinates
    [raw mod dim] with cell offset [raw div dim] (floor division), where
    [raw = (i_a, i_b, i_c) + cell_offset], with the original energy; these
    are all the hoppings of the result, [na * nb * nc] per original one. *)
Theorem extend_wraps_hoppings c na nb nc :
  (1 ≤ na)%Z → (1 ≤ nb)%Z → (1 ≤ nc)%Z → valid_cell c →
  ∃ c', extend_prim_cell c [na; nb; nc] = Ok c'
    ∧ (∀ h', h' ∈ hopping_list c'
         ↔ ∃ h i_a i_b i_c,
             h ∈ hopping_list c
             ∧ (0 ≤ i_a < na)%Z ∧ (0 ≤ i_b < nb)%Z ∧ (0 ≤ i_c < nc)%Z
             ∧ h' = wrapped_hopping (na, nb, nc) (num_orb c) (i_a, i_b, i_c) h)
    ∧ Z.of_nat (length (hopping_list c'))
      = (na * nb * nc * Z.of_nat (length (hopping_list c)))%Z.
Proof.
  intros Ha Hb Hc Hv. eexists. split; [by apply extend_prim_cell_eq|].
  cbn [extend_result sync_array hopping_list]. split.
  - intros h'. by apply elem_of_extend_hops.
  - rewrite length_extend_hops by done. lia.
Qed.

(** C5: with dimension (1, 1, 1), [extend_prim_cell] returns a cell with
    the same number of orbitals, the same number of hoppings and the same
    per-orbital energies as the input. *)
Theorem extend_unit_dim_preserves c :
  valid_cell c →
  ∃ c', extend_prim_cell c [1; 1; 1]%Z = Ok c'
    ∧ num_orb c' = num_orb c
    ∧ length (hopping_list c') = length (hopping_list c)
    ∧ energy <$> orbital_list c' = energy <$> orbital_list c.
Proof.
  intros Hv. eexists. split; [by apply extend_prim_cell_eq|].
  cbn [extend_result sync_array hopping_list orbital_list].
  split; [|split].
  - unfold num_orb. cbn [sync_array orbital_list].
    rewrite length_fmap, length_extend_items. simpl. lia.
  - rewrite length_extend_hops by done. simpl. lia.
  - rewrite <- list_fmap_compose. unfold extend_items.
    change (range 1) with [0%Z].
    rewrite !list_bind_cons, !list_bind_nil, !app_nil_r.
    rewrite fmap_bind.
    rewrite (bind_ext_in _ (λ x, [energy x.2])) by done.
    rewrite bind_singleton_fmap.
    rewrite <- (snd_enumerate (orbital_list c)) at 2.
    by rewrite <- list_fmap_compose.
Qed.

End ExtendProperties.

Lemma graphene_diamond_valid : valid_cell graphene_diamond.
Proof.
  intros h Hh. unfold graphene_diamond, make_cell in Hh. simpl in Hh.
  repeat (apply elem_of_cons in Hh as [->|Hh]); try (by apply elem_of_nil in Hh);
    vm_compute; split; lia.
Qed.

Lemma extend_replicates_orbitals_witness :
  valid_cell graphene_diamond
  ∧ ∃ c' o', extend_prim_cell graphene_diamond [2; 1; 1]%Z = Ok c'
      ∧ Z.of_nat (num_orb c') = 4%Z
      ∧ orbital_list c' !! 3 = Some o'
      ∧ position o' = (((1 # 3) + 1) / 2, ((1 # 3) + 0) / 1, (0 + 0) / 1)%Q
      ∧ energy o' = 0%Q.
Proof.
  split; [apply graphene_diamond_valid|].
  destruct (extend_replicates_orbitals graphene_diamond 2 1 1)
    as (c' & He & Hn & Ho & _); [lia|lia|lia|apply graphene_diamond_valid|].
  destruct (orbital_list c' !! 3) as [o'|] eqn:Hl.
  - exists c', o'. split; [exact He|]. split; [exact Hn|]. split; [exact Hl|].
    destruct (proj1 (Ho 3 o') Hl)
      as (i_a & i_b & i_c & i_o & o & Ha & Hb & Hc & Hlo & Hk & Hp & Hen).
    assert (num_orb graphene_diamond = 2) as Hn2 by reflexivity.
    rewrite Hn2 in Hk.
    assert (i_a = 1%Z ∧ i_b = 0%Z ∧ i_c = 0%Z ∧ i_o = 1) as (-> & -> & -> & ->).
    { apply lookup_lt_Some in Hlo. change (length _) with 2 in Hlo. lia. }
    assert (o = mkOrbital (1 # 3, 1 # 3, 0)%Q 0%Q) as ->.
    { change (orbital_list graphene_diamond !! 1)
        with (Some (mkOrbital (1 # 3, 1 # 3, 0)%Q 0%Q)) in Hlo. congruence. }
    split; [exact Hp|exact Hen].
  - exfalso. apply lookup_ge_None in Hl.
    change (num_orb graphene_diamond) with 2 in Hn. unfold num_orb in Hn. lia.
Defined.


Lemma extend_wraps_hoppings_witness :
  valid_cell graphene_diamond
  ∧ ∃ c', extend_prim_cell graphene_diamond [2; 1; 1]%Z = Ok c'
      ∧ Z.of_nat (length (hopping_list c'))
        = (2 * 1 * 1 * Z.of_nat (length (hopping_list graphene_diamond)))%Z.
Proof.
  split; [apply graphene_diamond_valid|].
  destruct (extend_wraps_hoppings graphene_diamond 2 1 1)
    as (c' & He & _ & Hn); [lia|lia|lia|apply graphene_diamond_valid|].
  exists c'. split; [exact He|exact Hn].
Defined.

Lemma extend_unit_dim_preserves_witness :
  valid_cell graphene_diamond
  ∧ ∃ c', extend_prim_cell graphene_diamond [1; 1; 1]%Z = Ok c'
      ∧ num_orb c' = num_orb graphene_diamond
      ∧ length (hopping_list c') = length (hopping_list graphene_diamond).
Proof.
  split; [apply graphene_diamond_valid|].
  destruct (extend_unit_dim_preserves graphene_diamond)
    as (c' & He & Hn & Hh & _); [apply graphene_diamond_valid|].
  exists c'. split; [exact He|]. split; [exact Hn|exact Hh].
Defined.

(** ** trim_prim_cell *)

Lemma int32_small z : (- 2 ^ 31 ≤ z < 2 ^ 31)%Z → int32 z = z.
Proof.
  intros Hz. unfold int32, wrap_int.
  rewrite Z.mod_small; [lia|]. change (2 ^ (32 - 1))%Z with (2 ^ 31)%Z.
  change (2 ^ 32)%Z with (2 * 2 ^ 31)%Z. lia.
Qed.

Lemma int32_succ z : int32 (int32 z + 1) = int32 (z + 1).
Proof.
  unfold int32, wrap_int. f_equal.
  replace ((z + 2 ^ (32 - 1)) `mod` 2 ^ 32 - 2 ^ (32 - 1) + 1 + 2 ^ (32 - 1))%Z
    with ((z + 2 ^ (32 - 1)) `mod` 2 ^ 32 + 1)%Z by lia.
  rewrite Zplus_mod_idemp_l. f_equal. lia.
Qed.

Lemma StronglySorted_filter_seq (P : nat → Prop) `{∀ i, Decision (P i)} s n :
  StronglySorted le (filter P (seq s n)).
Proof.
  revert s. induction n as [|n IH]; intros s; [constructor|].
  cbn [seq]. rewrite filter_cons. destruct (decide (P s)); [|apply IH].
  constructor; [apply IH|]. apply Forall_forall.
  intros i [_ [Hi _]%elem_of_seq]%list_elem_of_filter. lia.
Qed.

Lemma sorted_filter_seq (P : nat → Prop) `{∀ i, Decision (P i)} s n :
  sorted (filter P (seq s n)) = filter P (seq s n).
Proof.
  unfold sorted. apply (Sorted_unique le).
  - apply Sorted_merge_sort. apply _.
  - apply StronglySorted_Sorted, StronglySorted_filter_seq.
  - apply merge_sort_Permutation.
Qed.

Lemma enumerate_fmap_seq {A : Type} (g : nat → A) N :
  enumerate (g <$> seq 0 N) = (λ i, (i, g i)) <$> seq 0 N.
Proof.
  induction N as [|N IH]; [done|].
  rewrite seq_S, !fmap_app. change (g <$> [0 + N]) with [g N].
  rewrite enumerate_snoc, IH, length_fmap, length_seq. done.
Qed.

Lemma filter_fmap_fst {A : Type} (g : nat → A) (P : nat * A → Prop)
    `{∀ x, Decision (P x)} (l : list nat) :
  (filter P ((λ i, (i, g i)) <$> l)).*1 = filter (λ i, P (i, g i)) l.
Proof.
  induction l as [|i l IH]; [done|].
  rewrite fmap_cons, !filter_cons.
  destruct (decide (P (i, g i))); [rewrite fmap_cons|]; by rewrite IH.
Qed.

Lemma drop_indices_filter {A : Type} (Q : nat → Prop) `{∀ i, Decision (Q i)}
    (l : list A) :
  drop_indices Q 0 l = (filter (λ x, ¬ Q x.1) (enumerate l)).*2.
Proof.
  unfold enumerate.
  enough (∀ s, drop_indices Q s l
               = (filter (λ x, ¬ Q x.1) (imap (λ i x, (s + i, x)) l)).*2) as Hs.
  { apply (Hs 0). }
  induction l as [|x l IH]; intros s; [done|].
  cbn [drop_indices imap]. rewrite filter_cons. cbn [fst]. rewrite Nat.add_0_r.
  rewrite IH.
  rewrite (imap_ext (λ i y, (S s + i, y)) ((λ i y, (s + i, y)) ∘ S))
    by (intros; simpl; f_equal; lia).
  destruct (decide (Q s)).
  - rewrite decide_False by tauto. done.
  - rewrite decide_True by done. done.
Qed.

Section Trim.

Context {R : Type} `{Float64 R} {E : Type}.
Implicit Types (c : @PrimitiveCell R E) (h : @Hopping E).
Implicit Types (hops : list (@Hopping E)).

Local Abbreviation counts f N := ((λ i_o, int32 (f i_o)) <$> seq 0 N).

Lemma incr_count_eq (f : nat → Z) N i :
  i < N →
  incr_count (counts f N) i
  = Ok (counts (λ i_o, f i_o + (if decide (i = i_o) then 1 else 0))%Z N).
Proof.
  intros Hi. unfold incr_count, subscript.
  rewrite list_lookup_fmap, lookup_seq_lt by done.
  cbn [fmap option_fmap option_map mbind result_bind Nat.add].
  f_equal. apply list_eq. intros k.
  destruct (decide (i = k)) as [<-|Hne].
  - rewrite list_lookup_insert_eq by (by rewrite length_fmap, length_seq).
    rewrite list_lookup_fmap, lookup_seq_lt by done.
    cbn [fmap option_fmap option_map Nat.add].
    rewrite decide_True by done. by rewrite int32_succ.
  - rewrite list_lookup_insert_ne by done. rewrite !list_lookup_fmap.
    destruct (seq 0 N !! k) as [k'|] eqn:Hk; [|done].
    apply lookup_seq in Hk as [-> _].
    cbn [fmap option_fmap option_map Nat.add].
    rewrite decide_False by done. do 2 f_equal. lia.
Qed.

Lemma degree_cons h hops i_o :
  Z.of_nat (degree (h :: hops) i_o)
  = ((if decide (hop_i (index h) = i_o) then 1 else 0)
     + (if decide (hop_j (index h) = i_o) then 1 else 0)
     + Z.of_nat (degree hops i_o))%Z.
Proof.
  unfold degree. rewrite !filter_cons.
  destruct (decide (hop_i (index h) = i_o)), (decide (hop_j (index h) = i_o));
    simpl; lia.
Qed.

Lemma degree_le hops i_o : degree hops i_o ≤ 2 * length hops.
Proof.
  unfold degree.
  pose proof (length_filter (λ h, hop_i (index h) = i_o) hops).
  pose proof (length_filter (λ h, hop_j (index h) = i_o) hops). lia.
Qed.

Lemma count_loop hops (f : nat → Z) N :
  (∀ h, h ∈ hops → hop_i (index h) < N ∧ hop_j (index h) < N) →
  for_each (λ hop_count hop,
      hop_count ← incr_count hop_count (hop_i (index hop));
      incr_count hop_count (hop_j (index hop)))
    hops (counts f N)
  = Ok (counts (λ i_o, f i_o + Z.of_nat (degree hops i_o))%Z N).
Proof.
  revert f. induction hops as [|h hops IH]; intros f Hv.
  - cbn [for_each]. f_equal. apply list_fmap_ext. intros _ i_o _.
    f_equal. unfold degree. simpl. lia.
  - cbn [for_each]. destruct (Hv h) as [Hi Hj]; [left|].
    rewrite incr_count_eq by done. cbn [mbind result_bind].
    rewrite incr_count_eq by done. cbn [mbind result_bind].
    rewrite IH by (intros; apply Hv; by right).
    f_equal. apply list_fmap_ext. intros _ i_o _. f_equal.
    rewrite degree_cons. lia.
Qed.

Lemma count_hops_eq c :
  valid_cell c →
  count_hops c
  = Ok (counts (λ i_o, Z.of_nat (degree (hopping_list c) i_o)) (num_orb c)).
Proof.
  intros Hv. unfold count_hops.
  assert (replicate (num_orb c) 0%Z = counts (λ _, 0%Z) (num_orb c)) as ->.
  { apply list_eq. intros k. rewrite list_lookup_fmap.
    destruct (decide (k < num_orb c)).
    - rewrite lookup_replicate_2, lookup_seq_lt by done. done.
    - rewrite lookup_seq_ge by lia.
      rewrite lookup_ge_None_2 by (rewrite length_replicate; lia). done. }
  rewrite count_loop by done. done.
Qed.

Lemma remove_orbital_eq c k :
  k < num_orb c → valid_cell c →
  ∃ c', remove_orbital (Z.of_nat k) c = Ok c'
    ∧ orbital_list c' = delete k (orbital_list c)
    ∧ valid_cell c'
    ∧ length (hopping_list c') ≤ length (hopping_list c).
Proof.
  intros Hk Hv. unfold remove_orbital. rewrite decide_True by lia.
  rewrite Nat2Z.id. eexists. split; [done|]. cbn [orbital_list hopping_list].
  split; [done|]. split.
  - intros h' Hh'. unfold num_orb. cbn [orbital_list hopping_list] in *.
    apply list_elem_of_fmap in Hh' as (h & -> & Hh).
    apply list_elem_of_filter in Hh as [[Hi Hj] Hh].
    destruct (Hv h Hh) as [Hi' Hj'].
    rewrite length_delete by (by apply lookup_lt_is_Some).
    destruct (index h) as [[[[h0 h1] h2] h3] h4]. cbn [hop_i hop_j index] in *.
    unfold shift_down, num_orb in *.
    destruct (decide (k < h3)), (decide (k < h4)); lia.
  - rewrite length_fmap. apply length_filter.
Qed.

(** The removal loop with its compensating offset [orb_id - i]. *)
Lemma trim_loop (Q : nat → Prop) `{∀ i, Decision (Q i)} (l : list (@Orbital R)) :
  ∀ pre s i c,
    orbital_list c = pre ++ l → s = length pre + i → valid_cell c →
    ∃ c', for_each (λ prim_cell '(i, orb_id),
                      remove_orbital (Z.of_nat orb_id - Z.of_nat i) prim_cell)
                   (imap (λ k t, (i + k, t)) (filter Q (seq s (length l)))) c
          = Ok c'
      ∧ orbital_list c' = pre ++ drop_indices Q s l
      ∧ valid_cell c'
      ∧ length (hopping_list c') ≤ length (hopping_list c).
Proof.
  induction l as [|x l IH]; intros pre s i c Hl Hs Hv.
  - exists c. by rewrite Hl.
  - cbn [length seq drop_indices]. rewrite filter_cons.
    destruct (decide (Q s)) as [HQ|HQ].
    + cbn [imap for_each].
      replace (Z.of_nat s - Z.of_nat (i + 0))%Z with (Z.of_nat (length pre)) by lia.
      destruct (remove_orbital_eq c (length pre)) as (c1 & -> & Hl1 & Hv1 & Hh1).
      { unfold num_orb. rewrite Hl, length_app. simpl. lia. }
      { done. }
      cbn [mbind result_bind].
      rewrite Hl, delete_middle in Hl1.
      destruct (IH pre (S s) (S i) c1 Hl1 ltac:(lia) Hv1) as (c' & Hc' & ? & ? & ?).
      exists c'. split; [|split; [done|split; [done|lia]]].
      rewrite <- Hc'. f_equal. apply imap_ext. intros k t _. simpl. f_equal. lia.
    + destruct (IH (pre ++ [x]) (S s) i c) as (c' & Hc' & Hl' & ? & ?).
      { by rewrite <- app_assoc. }
      { rewrite length_app. simpl. lia. }
      { done. }
      exists c'. split; [done|]. split; [|done]. by rewrite Hl', <- app_assoc.
Qed.

Lemma sync_array_idemp c : sync_array (sync_array c) = sync_array c.
Proof. done. Qed.

(** The result of [trim_prim_cell] on a valid cell. *)
Lemma trim_prim_cell_eq c :
  valid_cell c →
  let Q := λ i_o, (int32 (Z.of_nat (degree (hopping_list c) i_o)) ≤ 1)%Z in
  ∃ c', trim_prim_cell c = Ok (sync_array c')
    ∧ orbital_list c' = drop_indices Q 0 (orbital_list c)
    ∧ valid_cell c'
    ∧ length (hopping_list c') ≤ length (hopping_list c)
    ∧ (filter Q (seq 0 (num_orb c)) = [] → c' = c).
Proof.
  intros Hv Q. unfold trim_prim_cell. rewrite count_hops_eq by done.
  cbn [mbind result_bind].
  rewrite enumerate_fmap_seq.
  rewrite (filter_fmap_fst _ (λ '(i_o, count), (count ≤ 1)%Z)).
  change (filter _ (seq 0 (num_orb c))) with (filter Q (seq 0 (num_orb c))).
  rewrite sorted_filter_seq.
  destruct (trim_loop Q (orbital_list c) [] 0 0 c) as (c' & Hc' & Hl & Hv' & Hh);
    [done..|].
  change (imap (λ k t : nat, (0 + k, t))) with (@enumerate nat) in Hc'.
  exists c'. unfold num_orb. rewrite Hc'.
  split; [done|]. split; [done|]. split; [done|]. split; [done|].
  intros Hnil. rewrite Hnil in Hc'.
  cbn [enumerate imap for_each] in Hc'. by simplify_eq.
Qed.

Lemma valid_cell_sync c : valid_cell c → valid_cell (sync_array c).
Proof. done. Qed.

(** C1 (amended): on a valid cell [trim_prim_cell] removes exactly the
    orbitals whose degree in the input cell is at most 1, the degrees being
    counted once before any removal; the remaining orbitals keep their
    order.  When no orbital of the trimmed cell has degree at most 1, a
    second application leaves it unchanged. *)
Theorem trim_removes_low_degree c :
  valid_cell c → (2 * Z.of_nat (length (hopping_list c)) < 2 ^ 31)%Z →
  ∃ c1, trim_prim_cell c = Ok c1
    ∧ orbital_list c1
      = (filter (λ x, 2 ≤ degree (hopping_list c) x.1)
                (enumerate (orbital_list c))).*2
    ∧ ((∀ i_o, i_o < num_orb c1 → 2 ≤ degree (hopping_list c1) i_o) →
       trim_prim_cell c1 = Ok c1).
Proof.
  intros Hv Hsmall.
  destruct (trim_prim_cell_eq c Hv) as (c' & Ht & Hl & Hv' & Hh & _).
  exists (sync_array c'). split; [done|]. split.
  - cbn [sync_array orbital_list]. rewrite Hl, drop_indices_filter.
    f_equal. apply filter_ext_in. intros [i_o o] _. cbn [fst].
    pose proof (degree_le (hopping_list c) i_o).
    rewrite int32_small by lia. lia.
  - intros Hdeg.
    destruct (trim_prim_cell_eq (sync_array c') (valid_cell_sync _ Hv'))
      as (c'' & Ht2 & _ & _ & _ & Hnil).
    rewrite Ht2, Hnil; [done|].
    apply filter_none. intros i_o [_ Hi]%elem_of_seq.
    specialize (Hdeg i_o Hi). cbn [sync_array hopping_list] in *.
    pose proof (degree_le (hopping_list c') i_o).
    rewrite int32_small by lia. lia.
Qed.

End Trim.

Lemma chain3_valid : valid_cell chain3.
Proof.
  intros h Hh. unfold chain3, make_cell in Hh. simpl in Hh.
  repeat (apply elem_of_cons in Hh as [->|Hh]); try (by apply elem_of_nil in Hh);
    vm_compute; split; lia.
Qed.

(** The chain 0 - 1 - 2: one application removes the two end orbitals and
    leaves orbital 1 without any hopping; a second application removes it. *)
Lemma trim_not_idempotent :
  ∃ c1 c2 : QCell,
    valid_cell chain3
    ∧ trim_prim_cell chain3 = Ok c1
    ∧ trim_prim_cell c1 = Ok c2
    ∧ c2 ≠ c1
    ∧ 0 < num_orb c1 ∧ degree (hopping_list c1) 0 ≤ 1.
Proof.
  eexists _, _. split; [apply chain3_valid|].
  split; [vm_compute; reflexivity|].
  split; [vm_compute; reflexivity|].
  split; [discriminate|]. split; vm_compute; lia.
Qed.

Lemma trim_removes_low_degree_witness :
  valid_cell chain3
  ∧ ∃ c1, trim_prim_cell chain3 = Ok c1
      ∧ orbital_list c1
        = (filter (λ x, 2 ≤ degree (hopping_list chain3) x.1)
                  (enumerate (orbital_list chain3))).*2.
Proof.
  split; [apply chain3_valid|].
  destruct (trim_removes_low_degree chain3) as (c1 & Ht & Hl & _);
    [apply chain3_valid|vm_compute; reflexivity|].
  exists c1. split; [exact Ht|exact Hl].
Defined.

(** ** reshape_prim_cell: the kept orbitals *)

Lemma for_each_fmap {A B S : Type} (body : S → B → result S) (f : A → B) xs s :
  for_each body (f <$> xs) s = for_each (λ s x, body s (f x)) xs s.
Proof.
  revert s. induction xs as [|x xs IH]; intros s; [done|].
  rewrite fmap_cons. cbn [for_each]. destruct (body s (f x)); [|done]. apply IH.
Qed.

Lemma enumerate_fmap {A B : Type} (f : A → B) (l : list A) :
  enumerate (f <$> l) = (λ x, (x.1, f x.2)) <$> enumerate l.
Proof. unfold enumerate. by rewrite imap_fmap, fmap_imap. Qed.

Lemma bind_fmap {A B C : Type} (f : A → B) (g : B → list C) (l : list A) :
  (f <$> l) ≫= g = l ≫= (λ x, g (f x)).
Proof.
  induction l as [|x l IH]; [done|].
  rewrite fmap_cons, !list_bind_cons, IH. done.
Qed.

Lemma bind_if_filter {A B : Type} (P : A → Prop) `{∀ x, Decision (P x)}
    (f : A → B) (l : list A) :
  l ≫= (λ y, if decide (P y) then [f y] else []) = f <$> filter P l.
Proof.
  induction l as [|x l IH]; [done|].
  rewrite list_bind_cons, filter_cons, IH. by destruct (decide (P x)).
Qed.

Section ReshapeOrbitals.

Context {R : Type} `{Float64 R} {E : Type}.
Implicit Types (c : @PrimitiveCell R E) (st : @orb_state R E).
Implicit Types (orbs : list (@Orbital R)) (conv_mat : mat3 R) (origin : vec3 R).

Lemma reshape_row_loop c conv_mat origin delta rn st :
  for_each (reshape_try_orbital (sync_array c) conv_mat origin delta rn)
           (enumerate (orb_pos (sync_array c))) st
  = Ok (record_all (reshape_row (orbital_list c) conv_mat origin delta rn) st).
Proof.
  cbn [sync_array orb_pos]. rewrite enumerate_fmap, for_each_fmap.
  unfold reshape_row. apply for_each_record. intros st' [i_o o] Hx.
  apply elem_of_enumerate in Hx. cbn [fst snd] in *.
  unfold reshape_try_orbital.
  destruct (decide (_ = _)); [|done].
  unfold subscript. cbn [sync_array orb_eng].
  rewrite list_lookup_fmap, Hx. done.
Qed.

Lemma reshape_orbitals_eq c conv_mat origin delta rn_range cell0 :
  reshape_orbitals (sync_array c) conv_mat origin delta rn_range cell0
  = Ok (record_all
          (reshape_items (orbital_list c) conv_mat origin delta rn_range)
          (mkOrbState [] ∅ 0 cell0)).
Proof.
  destruct rn_range as [[[lo0 hi0] [lo1 hi1]] [lo2 hi2]].
  unfold reshape_orbitals, reshape_items.
  apply for_each_record. intros st i_a _.
  apply for_each_record. intros st' i_b _.
  apply for_each_record. intros st'' i_c _.
  apply reshape_row_loop.
Qed.

Lemma elem_of_range_incl lo hi x : x ∈ range_incl lo hi ↔ (lo ≤ x ≤ hi)%Z.
Proof. unfold range_incl. rewrite elem_of_seqZ. lia. Qed.

Lemma elem_of_reshape_row orbs conv_mat origin delta rn it :
  it ∈ reshape_row orbs conv_mat origin delta rn
  ↔ ∃ i_o o, orbs !! i_o = Some o
      ∧ _get_cell_index (to_res_pos conv_mat origin delta rn (position o))
        = (0, 0, 0)%Z
      ∧ it = ((rn, i_o), to_res_pos conv_mat origin delta rn (position o),
              energy o).
Proof.
  unfold reshape_row. rewrite list_elem_of_bind. split.
  - intros ([i_o o] & Hit & Hx%elem_of_enumerate). cbn [fst snd] in *.
    destruct (decide (_ = _)) as [Hz|]; [|by apply elem_of_nil in Hit].
    apply list_elem_of_singleton in Hit. by exists i_o, o.
  - intros (i_o & o & Ho & Hz & ->). exists (i_o, o).
    split; [|by apply elem_of_enumerate]. cbn [fst snd].
    rewrite decide_True by done. by apply list_elem_of_singleton.
Qed.

(** The kept orbital copies, by membership. *)
Lemma elem_of_reshape_items orbs conv_mat origin delta rn_range it :
  it ∈ reshape_items orbs conv_mat origin delta rn_range
  ↔ ∃ i_a i_b i_c i_o o,
      (rn_range.1.1.1 ≤ i_a ≤ rn_range.1.1.2)%Z
      ∧ (rn_range.1.2.1 ≤ i_b ≤ rn_range.1.2.2)%Z
      ∧ (rn_range.2.1 ≤ i_c ≤ rn_range.2.2)%Z
      ∧ orbs !! i_o = Some o
      ∧ _get_cell_index
          (to_res_pos conv_mat origin delta (i_a, i_b, i_c) (position o))
        = (0, 0, 0)%Z
      ∧ it = ((i_a, i_b, i_c, i_o),
              to_res_pos conv_mat origin delta (i_a, i_b, i_c) (position o),
              energy o).
Proof.
  destruct rn_range as [[[lo0 hi0] [lo1 hi1]] [lo2 hi2]].
  unfold reshape_items. cbn [fst snd]. split.
  - intros (i_a & (i_b & (i_c & Hit & Hc)%list_elem_of_bind & Hb)%list_elem_of_bind
              & Ha)%list_elem_of_bind.
    apply elem_of_range_incl in Ha, Hb, Hc.
    apply elem_of_reshape_row in Hit as (i_o & o & ? & ? & ->).
    by exists i_a, i_b, i_c, i_o, o.
  - intros (i_a & i_b & i_c & i_o & o & Ha & Hb & Hc & Ho & Hz & ->).
    apply list_elem_of_bind. exists i_a. split; [|by apply elem_of_range_incl].
    apply list_elem_of_bind. exists i_b. split; [|by apply elem_of_range_incl].
    apply list_elem_of_bind. exists i_c. split; [|by apply elem_of_range_incl].
    apply elem_of_reshape_row. by exists i_o, o.
Qed.

Lemma reshape_row_NoDup orbs conv_mat origin delta rn :
  NoDup (reshape_row orbs conv_mat origin delta rn).
Proof.
  unfold reshape_row. apply NoDup_bind.
  - intros [i1 o1] [i2 o2] y H1%elem_of_enumerate H2%elem_of_enumerate Hy1 Hy2.
    cbn [fst snd] in *.
    destruct (decide (_ = _)); [|by apply elem_of_nil in Hy1].
    destruct (decide (_ = _)); [|by apply elem_of_nil in Hy2].
    apply list_elem_of_singleton in Hy1, Hy2. by simplify_eq.
  - intros x _. destruct (decide (_ = _)); [apply NoDup_singleton|apply NoDup_nil_2].
  - unfold enumerate. apply NoDup_alt. intros i j [k o] Hi Hj.
    apply list_lookup_imap_Some in Hi as (? & _ & ?).
    apply list_lookup_imap_Some in Hj as (? & _ & ?). by simplify_eq.
Qed.

Lemma reshape_items_NoDup orbs conv_mat origin delta rn_range :
  NoDup (reshape_items orbs conv_mat origin delta rn_range).
Proof.
  destruct rn_range as [[[lo0 hi0] [lo1 hi1]] [lo2 hi2]]. unfold reshape_items.
  assert (∀ rn it, it ∈ reshape_row orbs conv_mat origin delta rn → it.1.1.1 = rn)
    as Hrow.
  { intros rn it (i_o & o & _ & _ & ->)%elem_of_reshape_row. done. }
  apply NoDup_bind; [|intros i_a _; apply NoDup_bind;
                       [|intros i_b _; apply NoDup_bind;
                          [|intros; apply reshape_row_NoDup|]|]|];
    try apply NoDup_seqZ.
  - intros a1 a2 y _ _
      (b1 & (c1 & Hy1%Hrow & _)%list_elem_of_bind & _)%list_elem_of_bind
      (b2 & (c2 & Hy2%Hrow & _)%list_elem_of_bind & _)%list_elem_of_bind.
    rewrite Hy1 in Hy2. by simplify_eq.
  - intros b1 b2 y _ _ (c1 & Hy1%Hrow & _)%list_elem_of_bind
      (c2 & Hy2%Hrow & _)%list_elem_of_bind.
    rewrite Hy1 in Hy2. by simplify_eq.
  - intros c1 c2 y _ _ Hy1%Hrow Hy2%Hrow. rewrite Hy1 in Hy2. by simplify_eq.
Qed.

(** Two kept copies with the same key are the same entry. *)
Lemma reshape_items_key_inj orbs conv_mat origin delta rn_range it1 it2 :
  it1 ∈ reshape_items orbs conv_mat origin delta rn_range →
  it2 ∈ reshape_items orbs conv_mat origin delta rn_range →
  it1.1.1 = it2.1.1 → it1 = it2.
Proof.
  intros (a1 & b1 & c1 & i1 & o1 & _ & _ & _ & Ho1 & _ & ->)%elem_of_reshape_items
         (a2 & b2 & c2 & i2 & o2 & _ & _ & _ & Ho2 & _ & ->)%elem_of_reshape_items.
  cbn [fst snd]. intros ?. simplify_eq. done.
Qed.

Lemma reshape_ids_NoDup orbs conv_mat origin delta rn_range :
  NoDup (reshape_items orbs conv_mat origin delta rn_range).*1.*1.
Proof.
  rewrite <- list_fmap_compose. apply NoDup_fmap_2_strong.
  - intros it1 it2 H1 H2 Heq. by eapply reshape_items_key_inj.
  - apply reshape_items_NoDup.
Qed.

Lemma reshape_state_dict_ok c conv_mat origin delta rn_range
    (cell0 : @PrimitiveCell R E) :
  dict_ok (record_all
             (reshape_items (orbital_list c) conv_mat origin delta rn_range)
             (mkOrbState [] ∅ 0 cell0)).
Proof.
  apply record_all_dict_ok; [apply dict_ok_empty|]. apply reshape_ids_NoDup.
Qed.

End ReshapeOrbitals.

(** ** reshape_prim_cell: the hopping terms and the result *)

Section ReshapeHoppings.

Context {R : Type} `{Float64 R} {E : Type}.
Implicit Types (c rc : @PrimitiveCell R E) (st : @orb_state R E).
Implicit Types (conv_mat : mat3 R) (origin : vec3 R).
Implicit Types (items : list (id_pc_t * vec3 R * R)).

(** A loop that only appends hopping terms and reads the cached positions. *)
Lemma for_each_append_pos {A : Type}
    (body : PrimitiveCell → A → result PrimitiveCell)
    (g : A → list Hopping) (pos : list (vec3 R)) xs rc :
  (∀ rc x, x ∈ xs → orb_pos rc = pos → body rc x = Ok (append_hoppings (g x) rc)) →
  orb_pos rc = pos →
  for_each body xs rc = Ok (append_hoppings (xs ≫= g) rc).
Proof.
  revert rc. induction xs as [|x xs IH]; intros rc Hb Hpos.
  - simpl. by rewrite append_hoppings_nil.
  - rewrite list_bind_cons. cbn [for_each]. rewrite Hb by (done || left).
    change (for_each body xs (append_hoppings (g x) rc)
            = Ok (append_hoppings (g x ++ (xs ≫= g)) rc)).
    rewrite IH; [by rewrite append_hoppings_app| |done].
    intros. apply Hb; [by right|done].
Qed.

Lemma reshape_match_loop c pos_tol items st id_sc_i i_h h4 res_rn res_pos e rc :
  orb_id_pc st = items.*1.*1 → dict_ok st →
  orb_pos rc = (λ it, it.1.2) <$> items →
  hop_eng (sync_array c) !! i_h = Some e →
  for_each (reshape_match (sync_array c) pos_tol st id_sc_i i_h h4 res_rn res_pos)
           (orb_id_pc st) rc
  = Ok (append_hoppings
          ((λ y, mkHopping (res_rn.1.1, res_rn.1.2, res_rn.2, id_sc_i, y.1) e)
           <$> reshape_matches items pos_tol h4 res_pos) rc).
Proof.
  intros Hids [_ Hdict] Hpos He. rewrite Hids.
  rewrite <- (snd_enumerate items) at 1. rewrite <- !list_fmap_compose.
  rewrite for_each_fmap. unfold reshape_matches.
  rewrite <- bind_if_filter.
  apply for_each_append_pos with (pos := (λ it, it.1.2) <$> items); [|done].
  intros rc' [k [[id_pc p] e']] Hy%elem_of_enumerate Hpos'. cbn [fst snd] in *.
  unfold reshape_match. cbn [compose fst snd].
  destruct (decide (id_pc.2 = h4)) as [Hj|Hj].
  - unfold getitem.
    rewrite (proj2 (Hdict id_pc k)); last first.
    { rewrite Hids, !list_lookup_fmap, Hy. done. }
    cbn [mbind result_bind]. unfold subscript.
    rewrite Hpos', list_lookup_fmap, Hy. cbn [fmap option_fmap option_map fst snd].
    cbn [mbind result_bind].
    destruct (linalg_norm_le _ _) eqn:Hn.
    + rewrite He. cbn [mbind result_bind].
      rewrite decide_True by done. by rewrite add_hopping_append.
    + rewrite decide_False by (intros [_ ?]; congruence).
      by rewrite append_hoppings_nil.
  - rewrite decide_False by (intros [? _]; congruence).
    by rewrite append_hoppings_nil.
Qed.

Lemma reshape_add_hopping_loop c conv_mat origin delta pos_tol items st
    id_sc_i id_pc_i rc :
  valid_cell c →
  orb_id_pc st = items.*1.*1 → dict_ok st →
  orb_pos rc = (λ it, it.1.2) <$> items →
  for_each (reshape_add_hopping (sync_array c) conv_mat origin delta pos_tol st
                                id_sc_i id_pc_i)
           (enumerate (hop_ind (sync_array c))) rc
  = Ok (append_hoppings
          (hopping_list c
             ≫= reshape_hops_of (orbital_list c) conv_mat origin delta pos_tol
                                 items id_sc_i id_pc_i) rc).
Proof.
  intros Hv Hids Hdict Hpos.
  cbn [sync_array hop_ind]. rewrite enumerate_fmap, for_each_fmap.
  rewrite <- (snd_enumerate (hopping_list c)) at 2. rewrite bind_fmap.
  apply for_each_append_pos with (pos := (λ it, it.1.2) <$> items); [|done].
  intros rc' [i_h hop] Hx%elem_of_enumerate Hpos'. cbn [fst snd] in *.
  unfold reshape_add_hopping, reshape_hops_of, reshape_target.
  destruct id_pc_i as [[[i_a i_b] i_c] i_o].
  destruct (index hop) as [[[[h0 h1] h2] h3] h4] eqn:Hi. cbn [fst snd hop_i hop_j].
  destruct (decide (i_o = h3)) as [->|Hne]; [|by rewrite append_hoppings_nil].
  destruct (Hv hop) as [_ Hj]; [by eapply list_elem_of_lookup_2|].
  rewrite Hi in Hj. cbn [hop_j] in Hj.
  apply lookup_lt_is_Some in Hj as [o Ho].
  unfold subscript at 1. cbn [sync_array orb_pos].
  rewrite list_lookup_fmap, Ho. cbn [fmap option_fmap option_map mbind result_bind].
  cbn [option_bind].
  rewrite (reshape_match_loop c pos_tol items st id_sc_i i_h h4 _ _ (hop_energy hop));
    try done.
  cbn [sync_array hop_eng]. by rewrite list_lookup_fmap, Hx.
Qed.

Lemma reshape_hoppings_eq c conv_mat origin delta pos_tol items st rc :
  valid_cell c →
  orb_id_pc st = items.*1.*1 → dict_ok st →
  orb_pos rc = (λ it, it.1.2) <$> items →
  num_orb rc = length items →
  reshape_hoppings (sync_array c) conv_mat origin delta pos_tol st rc
  = Ok (append_hoppings
          (reshape_hops (orbital_list c) conv_mat origin delta pos_tol items
                        (hopping_list c)) rc).
Proof.
  intros Hv Hids Hdict Hpos Hn. unfold reshape_hoppings, reshape_hops.
  assert (num_orb rc = length (orb_id_pc st)) as ->.
  { by rewrite Hn, Hids, !length_fmap. }
  rewrite (for_each_range_subscript (orb_id_pc st)
             (λ res_cell id_sc_i id_pc_i,
                for_each (reshape_add_hopping (sync_array c) conv_mat origin delta
                            pos_tol st id_sc_i id_pc_i)
                         (enumerate (hop_ind (sync_array c))) res_cell)).
  rewrite Hids.
  apply for_each_append_pos with (pos := (λ it, it.1.2) <$> items); [|done].
  intros rc' [id_sc_i id_pc_i] _ Hpos'. by apply reshape_add_hopping_loop.
Qed.

Lemma write_position_middle (pre suf : list (@Orbital R)) o p :
  write_position (pre ++ o :: suf) (length pre, p)
  = Ok (pre ++ mkOrbital p (energy o) :: suf).
Proof.
  unfold write_position, subscript. rewrite list_lookup_middle by done.
  cbn [mbind result_bind].
  rewrite insert_app_r_alt, Nat.sub_diag by done. done.
Qed.

Lemma write_position_loop (g : vec3 R → vec3 R) (suf : list (@Orbital R)) :
  ∀ pre,
    for_each write_position
      (imap (λ k p, (length pre + k, p)) (g <$> (position <$> suf))) (pre ++ suf)
    = Ok (pre ++ ((λ o, mkOrbital (g (position o)) (energy o)) <$> suf)).
Proof.
  induction suf as [|o suf IH]; intros pre; [done|].
  rewrite !fmap_cons. cbn [imap for_each].
  rewrite Nat.add_0_r, write_position_middle. cbn [mbind result_bind].
  rewrite (cons_middle _ pre suf), app_assoc.
  rewrite (imap_ext _ (λ k p, (length (pre ++ [mkOrbital (g (position o)) (energy o)])
                               + k, p))).
  - rewrite IH. by rewrite <- app_assoc.
  - intros k p _. rewrite length_app. simpl. f_equal. lia.
Qed.

Lemma subtract_delta_eq delta rc :
  orb_pos rc = position <$> orbital_list rc →
  subtract_delta delta rc
  = Ok (mkCell (lat_vec rc) (unnudge delta <$> orbital_list rc) (hopping_list rc)
               (extended rc) (vmap (λ x, fsub x delta) <$> orb_pos rc)
               (orb_eng rc) (hop_ind rc) (hop_eng rc)).
Proof.
  intros Hpos. unfold subtract_delta. rewrite Hpos at 1.
  pose proof (write_position_loop (vmap (λ x, fsub x delta)) (orbital_list rc) [])
    as Hloop.
  cbn [app length Nat.add] in Hloop. unfold enumerate. rewrite Hloop. done.
Qed.

Lemma reshape_prim_cell_eq c lat_frac conv_mat origin delta pos_tol :
  valid_cell c → linalg_inv lat_frac = Some conv_mat →
  reshape_prim_cell c lat_frac origin delta pos_tol
  = Ok (reshape_result c lat_frac conv_mat origin delta pos_tol).
Proof.
  intros Hv Hinv. unfold reshape_prim_cell, reshape_result. rewrite Hinv.
  destruct lat_frac as [[f0 f1] f2].
  rewrite reshape_orbitals_eq. cbn [mbind result_bind].
  set (items := reshape_items (orbital_list c) conv_mat origin delta
                  (make_rn_range (f0, f1, f2))).
  set (st := record_all items _).
  assert (orbital_list (st_cell st) = item_orbital <$> items) as Hol.
  { subst st. by rewrite record_all_cell. }
  rewrite (reshape_hoppings_eq c conv_mat origin delta pos_tol items st); first last.
  - unfold num_orb. cbn [sync_array orbital_list]. by rewrite Hol, length_fmap.
  - cbn [sync_array orb_pos]. rewrite Hol, <- list_fmap_compose. done.
  - apply reshape_state_dict_ok.
  - subst st. by rewrite record_all_orb_id_pc.
  - done.
  - cbn [mbind result_bind]. rewrite subtract_delta_eq by done.
    cbn [mbind result_bind]. unfold sync_array.
    cbn [lat_vec orbital_list hopping_list extended append_hoppings].
    rewrite Hol. subst st. rewrite record_all_cell. cbn. done.
Qed.

End ReshapeHoppings.

(** ** reshape_prim_cell: properties that hold for any arithmetic *)

Section ReshapeProperties.

Context {R : Type} `{Float64 R} {E : Type}.
Implicit Types (c : @PrimitiveCell R E) (h : @Hopping E).
Implicit Types (conv_mat : mat3 R) (origin : vec3 R).

(** C10: for each kept orbital and each original hopping leaving its
    original, [reshape_prim_cell] adds one hopping entry for every kept copy
    of the destination orbital that lies within [pos_tol] of the wrapped
    transformed destination, so one original hopping yields as many entries
    as there are such copies. *)
Theorem reshape_adds_hopping_per_match c lat_frac conv_mat origin delta pos_tol :
  valid_cell c → linalg_inv lat_frac = Some conv_mat →
  let items := reshape_items (orbital_list c) conv_mat origin delta
                             (make_rn_range lat_frac) in
  ∃ c', reshape_prim_cell c lat_frac origin delta pos_tol = Ok c'
    ∧ hopping_list c'
      = (x ← enumerate items.*1.*1; hop ← hopping_list c;
         reshape_hops_of (orbital_list c) conv_mat origin delta pos_tol items
                         x.1 x.2 hop)
    ∧ ∀ id_sc_i id_pc_i (hop : @Hopping E) res_rn res_pos,
        id_pc_i.2 = hop_i (index hop) →
        reshape_target (orbital_list c) conv_mat origin delta id_pc_i (index hop)
        = Some (res_rn, res_pos) →
        reshape_hops_of (orbital_list c) conv_mat origin delta pos_tol items
                        id_sc_i id_pc_i hop
        = (λ y, mkHopping (res_rn.1.1, res_rn.1.2, res_rn.2, id_sc_i, y.1)
                          (hop_energy hop))
          <$> filter (λ y, y.2.1.1.2 = hop_j (index hop)
                           ∧ linalg_norm_le (vzip fsub y.2.1.2 res_pos) pos_tol
                             = true)
                     (enumerate items).
Proof.
  intros Hv Hinv items. eexists. split; [by apply reshape_prim_cell_eq|].
  split.
  - unfold reshape_result. by destruct lat_frac as [[f0 f1] f2].
  - intros id_sc_i id_pc_i hop res_rn res_pos Hi Ht.
    unfold reshape_hops_of. rewrite decide_True by done. by rewrite Ht.
Qed.


End ReshapeProperties.

(** ** reshape_prim_cell on concrete cells *)

Lemma one_orbital_valid : valid_cell one_orbital.
Proof. intros h Hh. by apply elem_of_nil in Hh. Qed.


(** C2 (the code at the failing input): the cell [one_orbital] has one
    orbital, at (1/2, 15/16, 15/16), and the basis [skew_basis], rows
    (3,0,0), (3,1,0), (3,0,1), has determinant 3, so three translates of
    the orbital lie in the unit cube of the new basis.  The translate by
    (8, 0, 0) is one of them, nudged or not, but the search stops at 7
    along the first axis: the reshaped cell has two orbitals and none of
    them is this copy. *)
Theorem reshape_misses_orbital_copy :
  ∃ conv_mat c',
    let pos := (1 # 2, 15 # 16, 15 # 16)%Q in
    let delta := (1 # 128)%Q in
    let rn := (8, 0, 0)%Z in
    linalg_inv skew_basis = Some conv_mat
    ∧ reshape_prim_cell one_orbital skew_basis (0, 0, 0)%Q delta (1 # 1024)%Q
      = Ok c'
    ∧ orbital_list one_orbital !! 0 = Some (mkOrbital pos 0%Q)
    ∧ in_unit_cube (vzip Qminus (matmul (rn_plus rn pos) conv_mat) (0, 0, 0)%Q)
    ∧ _get_cell_index (to_res_pos conv_mat (0, 0, 0)%Q delta rn pos)
      = (0, 0, 0)%Z
    ∧ Forall (λ o', ¬ ((position o').1.1
                       == (to_res_pos conv_mat (0, 0, 0) delta rn pos).1.1 - delta)%Q)
             (orbital_list c')
    ∧ (make_rn_range skew_basis).1.1 = ((-1)%Z, 7%Z)
    ∧ num_orb c' = 2.
Proof.
  eexists _, _. cbv zeta.
  split; [vm_compute; reflexivity|].
  split; [vm_compute; reflexivity|].
  split; [reflexivity|].
  split; [vm_compute; repeat split; discriminate|].
  split; [vm_compute; reflexivity|].
  split; [repeat constructor; vm_compute; discriminate|].
  split; vm_compute; reflexivity.
Qed.



Lemma reshape_adds_hopping_per_match_witness :
  valid_cell chain3
  ∧ ∃ c', reshape_prim_cell chain3 double_basis (0, 0, 0)%Q (1 # 128)%Q 1%Q = Ok c'
      ∧ length (hopping_list chain3) = 2
      ∧ length (hopping_list c') = 8.
Proof.
  split; [apply chain3_valid|].
  destruct (linalg_inv double_basis) as [conv_mat|] eqn:Hinv;
    [|vm_compute in Hinv; discriminate].
  destruct (reshape_adds_hopping_per_match chain3 double_basis conv_mat
              (0, 0, 0)%Q (1 # 128)%Q 1%Q)
    as (c' & Hc' & Hh & _); [apply chain3_valid|exact Hinv|].
  exists c'. split; [exact Hc'|]. split; [reflexivity|].
  rewrite Hh. vm_compute in Hinv. injection Hinv as <-.
  vm_compute. reflexivity.
Defined.

(** ** Enumerations *)

Lemma NoDup_enumerate {A : Type} (l : list A) : NoDup (enumerate l).
Proof.
  unfold enumerate. apply NoDup_alt. intros i j [k o] Hi Hj.
  apply list_lookup_imap_Some in Hi as (? & _ & ?).
  apply list_lookup_imap_Some in Hj as (? & _ & ?). by simplify_eq.
Qed.

Lemma enumerate_inj {A : Type} (l : list A) x y :
  x ∈ enumerate l → y ∈ enumerate l → x.1 = y.1 → x = y.
Proof.
  intros Hx%elem_of_enumerate Hy%elem_of_enumerate Heq.
  destruct x as [i a], y as [j b]. cbn [fst snd] in *. subst j.
  rewrite Hx in Hy. by simplify_eq.
Qed.

(** ** reshape_prim_cell with the identity basis *)

(** C7 (the code at the failing input): the cell [B64.border_orbital] is
    valid and has one orbital, at (0.99, 0, 0).  Reshaped with the identity
    basis, origin zero and the default [delta] and [pos_tol], it comes back
    without any orbital.  In binary64 the nudged coordinate 0.99 + 0.01 of
    the untranslated copy is exactly 1, integer part 1, and that of the
    copy translated by -1, (-1 + 0.99) + 0.01, is negative, integer part
    -1: neither copy is kept. *)
Theorem reshape_identity_clips_border_orbital :
  valid_cell B64.border_orbital
  ∧ num_orb B64.border_orbital = 1
  ∧ linalg_inv B64.b64_identity = Some B64.b64_identity
  ∧ math_floor (fadd B64.b64_0_99 B64.delta_default) = 1%Z
  ∧ math_floor (fadd (fadd (of_int (-1)) B64.b64_0_99) B64.delta_default)
    = (-1)%Z
  ∧ ∃ c', reshape_prim_cell B64.border_orbital B64.b64_identity B64.b64_zeros
                            B64.delta_default B64.pos_tol_default = Ok c'
      ∧ num_orb c' = 0
      ∧ lat_vec c' = lat_vec B64.border_orbital.
Proof.
  split; [intros h Hh; by apply elem_of_nil in Hh|].
  split; [reflexivity|].
  split; [vm_compute; reflexivity|].
  split; [vm_compute; reflexivity|].
  split; [vm_compute; reflexivity|].
  eexists. split; [vm_compute; reflexivity|].
  split; vm_compute; reflexivity.
Qed.

Lemma far_pair_valid : valid_cell far_pair.
Proof.
  intros h Hh. unfold far_pair, make_cell in Hh. simpl in Hh.
  repeat (apply elem_of_cons in Hh as [->|Hh]); try (by apply elem_of_nil in Hh);
    vm_compute; split; lia.
Qed.

(** The second orbital of [far_pair] sits at 5/2: no translation between -1
    and 2 brings it into the unit cell, and it is lost together with the
    hopping that leads to it. *)
Lemma reshape_identity_loses_far_orbital :
  ∃ c', valid_cell far_pair
    ∧ reshape_prim_cell far_pair identity_3x3 (0, 0, 0)%Q (1 # 100)%Q
                        (1 # 100000)%Q = Ok c'
    ∧ num_orb far_pair = 2 ∧ num_orb c' = 1
    ∧ length (hopping_list far_pair) = 1 ∧ length (hopping_list c') = 0.
Proof.
  eexists. split; [apply far_pair_valid|].
  split; [vm_compute; reflexivity|]. repeat split.
Qed.

(** ** The scenarios of the specification, evaluated *)

(** The two-orbital cell extended with [dim = (2, 1, 1)]: 4 orbitals and 6
    hopping entries, every one with energy -2.7. *)
Example extend_graphene_2_1_1 :
  ∃ c', extend_prim_cell graphene_diamond [2; 1; 1]%Z = Ok c'
    ∧ num_orb c' = 4 ∧ length (hopping_list c') = 6
    ∧ Forall (λ h, hop_energy h = (-27 # 10)%Q) (hopping_list c').
Proof.
  eexists. split; [vm_compute; reflexivity|].
  split; [reflexivity|]. split; [reflexivity|]. repeat constructor.
Qed.

(** A missing third dimension is completed by 1; other lengths and
    dimensions below 1 are refused. *)
Example extend_dim_checks :
  extend_prim_cell graphene_diamond [2; 1]%Z
  = extend_prim_cell graphene_diamond [2; 1; 1]%Z
  ∧ extend_prim_cell graphene_diamond [2]%Z = Raise CoordLenError
  ∧ extend_prim_cell graphene_diamond [2; 0; 1]%Z = Raise ValueError.
Proof. repeat split; vm_compute; reflexivity. Qed.

(** The same cell reshaped with the basis of the rectangular cell: 4
    orbitals and 6 hoppings of energy -2.7, twice the original total. *)
Example reshape_graphene_rect :
  ∃ c', reshape_prim_cell graphene_diamond rect_basis (0, 0, 0)%Q
          (1 # 100)%Q (1 # 100000)%Q = Ok c'
    ∧ num_orb c' = 4 ∧ length (hopping_list c') = 6
    ∧ Forall (λ h, hop_energy h = (-27 # 10)%Q) (hopping_list c').
Proof.
  eexists. split; [vm_compute; reflexivity|].
  split; [reflexivity|]. split; [reflexivity|]. repeat constructor.
Qed.

(** A basis that is not invertible is refused. *)
Example reshape_singular_basis :
  reshape_prim_cell graphene_diamond ((1, 0, 0), (2, 0, 0), (0, 0, 1))%Q
    (0, 0, 0)%Q (1 # 100)%Q (1 # 100000)%Q = Raise LinAlgError.
Proof. vm_compute. reflexivity. Qed.

(** Every orbital of the two-orbital cell has degree 3: trimming removes
    nothing. *)
Example trim_graphene_noop : trim_prim_cell graphene_diamond = Ok graphene_diamond.
Proof. vm_compute. reflexivity. Qed.

(** With the first axis open, no hopping with a non-zero first cell-offset
    component remains; a vector of length other than 3 is refused. *)
Example apply_pbc_graphene :
  (∃ c', apply_pbc graphene_diamond [false; true; true] = Ok c'
     ∧ index <$> hopping_list c'
       = [(0%Z, 0%Z, 0%Z, 0, 1); (0%Z, 1%Z, 0%Z, 1, 0)])
  ∧ apply_pbc graphene_diamond [true; true] = Raise ValueError.
Proof.
  split; [|reflexivity]. eexists. split; [vm_compute; reflexivity|]. reflexivity.
Qed.

(** * Further properties of the transformations *)

(** ** Loops that raise *)

Section LoopErrors.

Context {A S : Type}.
Implicit Types (body : S → A → result S) (P : S → Prop).

(** A loop over bodies that succeed or raise [e] succeeds or raises [e]. *)
Lemma for_each_ok_or P (e : exn) body xs s :
  P s →
  (∀ s x, x ∈ xs → P s → (∃ s', body s x = Ok s' ∧ P s') ∨ body s x = Raise e) →
  (∃ s', for_each body xs s = Ok s' ∧ P s') ∨ for_each body xs s = Raise e.
Proof.
  revert s. induction xs as [|a xs IH]; intros s Hs Hb.
  - left. by exists s.
  - cbn [for_each]. destruct (Hb s a) as [(s' & -> & Hs')| ->]; [left|done| |by right].
    cbn [mbind result_bind]. apply IH; [done|]. intros. apply Hb; [by right|done].
Qed.

(** It raises [e] as soon as one of its elements always does. *)
Lemma for_each_raise P (e : exn) body xs s :
  P s →
  (∀ s x, x ∈ xs → P s → (∃ s', body s x = Ok s' ∧ P s') ∨ body s x = Raise e) →
  (∃ x, x ∈ xs ∧ ∀ s, P s → body s x = Raise e) →
  for_each body xs s = Raise e.
Proof.
  revert s. induction xs as [|a xs IH]; intros s Hs Hb (x & Hx & Hraise).
  - by apply elem_of_nil in Hx.
  - cbn [for_each]. destruct (Hb s a) as [(s' & Ha & Hs')|Ha]; [left|done| |];
      rewrite Ha; [|done].
    cbn [mbind result_bind]. apply elem_of_cons in Hx as [->|Hx].
    + rewrite Hraise in Ha by done. discriminate.
    + apply IH; [done| |by exists x]. intros. apply Hb; [by right|done].
Qed.

End LoopErrors.

(** ** extend_prim_cell: errors and invariants *)

Section ExtendFurther.

Context {R : Type} `{Float64 R} {E : Type}.
Implicit Types (c : @PrimitiveCell R E) (h : @Hopping E).

Lemma extend_dict_missing c d0 d1 d2 cell0 id_pc :
  num_orb c ≤ id_pc.2 →
  orb_id_sc (extend_orbitals c (d0, d1, d2) cell0) !! id_pc = None.
Proof.
  intros Hge. destruct (orb_id_sc _ !! id_pc) as [k|] eqn:Hk; [|done].
  apply (proj2 (extend_orbitals_dict_ok c (d0, d1, d2) cell0)) in Hk.
  rewrite extend_orbitals_ids in Hk.
  apply extend_ids_lookup in Hk as (_ & _ & _ & Hlt & _). unfold num_orb in Hge. lia.
Qed.

(** One step of the hopping loop: a hopping that does not leave the replica
    is skipped, one that leads to an existing orbital is added, one that
    leads to a missing orbital raises. *)
Lemma extend_add_hopping_cases c d0 d1 d2 cell0 id_sc_i id_pc_i ec h :
  (1 ≤ d0)%Z → (1 ≤ d1)%Z → (1 ≤ d2)%Z →
  extend_add_hopping (d0, d1, d2) (extend_orbitals c (d0, d1, d2) cell0)
                     id_sc_i id_pc_i ec h
  = if decide (id_pc_i.2 = hop_i (index h)) then
      if decide (hop_j (index h) < num_orb c) then
        Ok (append_hoppings
              (extend_hops_of (d0, d1, d2) (num_orb c) [h] id_sc_i id_pc_i) ec)
      else Raise KeyError
    else Ok ec.
Proof.
  intros H0 H1 H2. destruct id_pc_i as [[[i_a i_b] i_c] i_o].
  unfold extend_add_hopping, extend_hops_of. rewrite list_bind_cons, list_bind_nil.
  destruct (index h) as [[[[h0 h1] h2] h3] h4] eqn:Hi. cbn [fst snd hop_i hop_j].
  destruct (decide (i_o = h3)) as [->|Hne]; [|done].
  unfold _wrap_pbc, getitem.
  destruct (decide (h4 < num_orb c)) as [Hj|Hj].
  - rewrite extend_dict_lookup; cbn [fst snd]; try done;
      try (apply Z.mod_pos_bound; lia).
  - rewrite extend_dict_missing by (cbn [snd]; lia). done.
Qed.

Lemma extend_inner_loop_weak c d0 d1 d2 cell0 id_sc_i id_pc_i ec :
  (1 ≤ d0)%Z → (1 ≤ d1)%Z → (1 ≤ d2)%Z → no_dangling c →
  id_pc_i.2 < num_orb c →
  for_each (extend_add_hopping (d0, d1, d2)
              (extend_orbitals c (d0, d1, d2) cell0) id_sc_i id_pc_i)
           (hopping_list c) ec
  = Ok (append_hoppings
          (extend_hops_of (d0, d1, d2) (num_orb c) (hopping_list c) id_sc_i id_pc_i)
          ec).
Proof.
  intros H0 H1 H2 Hnd Hio.
  assert (extend_hops_of (d0, d1, d2) (num_orb c) (hopping_list c) id_sc_i id_pc_i
          = hopping_list c
              ≫= λ h, extend_hops_of (d0, d1, d2) (num_orb c) [h] id_sc_i id_pc_i)
    as ->.
  { destruct id_pc_i as [[[i_a i_b] i_c] i_o]. unfold extend_hops_of.
    apply bind_ext_in. intros h _.
    by rewrite list_bind_cons, list_bind_nil, app_nil_r. }
  apply for_each_append. intros ec' h Hh.
  rewrite extend_add_hopping_cases by done.
  destruct (decide (id_pc_i.2 = hop_i (index h))) as [Heq|Hne].
  - rewrite decide_True; [done|]. apply Hnd; [done|]. by rewrite <- Heq.
  - destruct id_pc_i as [[[i_a i_b] i_c] i_o]. unfold extend_hops_of.
    rewrite list_bind_cons, list_bind_nil.
    destruct (index h) as [[[[h0 h1] h2] h3] h4]. cbn [fst snd hop_i] in *.
    rewrite decide_False by done. cbn [app]. by rewrite append_hoppings_nil.
Qed.

Lemma extend_prim_cell_eq_weak c na nb nc :
  (1 ≤ na)%Z → (1 ≤ nb)%Z → (1 ≤ nc)%Z → no_dangling c →
  extend_prim_cell c [na; nb; nc] = Ok (extend_result c (na, nb, nc)).
Proof.
  intros H0 H1 H2 Hnd. unfold extend_prim_cell.
  cbn [correct_coord mbind result_bind].
  rewrite decide_False by lia.
  destruct (lat_vec c) as [[l0 l1] l2] eqn:Hlat.
  set (cell0 := set_extended _ _).
  set (st := extend_orbitals c (na, nb, nc) cell0).
  assert (extend_hoppings c (na, nb, nc) st
          = Ok (append_hoppings
                  (extend_hops (na, nb, nc) (num_orb c) (hopping_list c)
                               (orb_id_pc st)) (st_cell st))) as ->.
  { unfold extend_hoppings, extend_hops.
    assert (num_orb (st_cell st) = length (orb_id_pc st)) as ->.
    { subst st. rewrite extend_orbitals_cell, extend_orbitals_ids.
      unfold num_orb, append_orbitals. simpl. by rewrite !length_fmap. }
    rewrite (for_each_range_subscript (orb_id_pc st)
               (λ extend_cell id_sc_i id_pc_i,
                  for_each (extend_add_hopping (na, nb, nc) st id_sc_i id_pc_i)
                           (hopping_list c) extend_cell)).
    apply for_each_append. intros ec [id_sc_i id_pc_i] Hx%elem_of_enumerate.
    cbn [fst snd] in *. subst st. rewrite extend_orbitals_ids in Hx.
    apply extend_ids_lookup in Hx as (_ & _ & _ & Hio & _).
    by apply extend_inner_loop_weak. }
  cbn [mbind result_bind]. subst st cell0.
  rewrite extend_orbitals_cell, extend_orbitals_ids.
  unfold extend_result, scale_lat_vec. rewrite Hlat. done.
Qed.

Lemma extend_key_error c na nb nc h :
  (1 ≤ na)%Z → (1 ≤ nb)%Z → (1 ≤ nc)%Z →
  h ∈ hopping_list c → dangling c h →
  extend_prim_cell c [na; nb; nc] = Raise KeyError.
Proof.
  intros H0 H1 H2 Hh [Hi Hj]. unfold extend_prim_cell.
  cbn [correct_coord mbind result_bind].
  rewrite decide_False by lia.
  destruct (lat_vec c) as [[l0 l1] l2] eqn:Hlat.
  set (cell0 := set_extended _ _).
  set (st := extend_orbitals c (na, nb, nc) cell0).
  assert (extend_hoppings c (na, nb, nc) st = Raise KeyError) as ->; [|done].
  unfold extend_hoppings.
  assert (num_orb (st_cell st) = length (orb_id_pc st)) as ->.
  { subst st. rewrite extend_orbitals_cell, extend_orbitals_ids.
    unfold num_orb, append_orbitals. simpl. by rewrite !length_fmap. }
  rewrite (for_each_range_subscript (orb_id_pc st)
             (λ extend_cell id_sc_i id_pc_i,
                for_each (extend_add_hopping (na, nb, nc) st id_sc_i id_pc_i)
                         (hopping_list c) extend_cell)).
  assert (∀ ec (x : nat * id_pc_t) h',
            (∃ ec', extend_add_hopping (na, nb, nc) st x.1 x.2 ec h' = Ok ec' ∧ True)
            ∨ extend_add_hopping (na, nb, nc) st x.1 x.2 ec h' = Raise KeyError)
    as Hstep.
  { intros ec x h'. subst st. rewrite extend_add_hopping_cases by done.
    repeat case_decide; eauto. }
  apply (for_each_raise (λ _, True)); [done| |].
  - intros ec x _ _. cbn beta.
    apply (for_each_ok_or (λ _, True)); [done|]. intros. apply Hstep.
  - exists (new_index (na, nb, nc) (num_orb c) (0%Z, 0%Z, 0%Z, hop_i (index h)),
            (0%Z, 0%Z, 0%Z, hop_i (index h))).
    split.
    + apply elem_of_enumerate. cbn [fst snd]. subst st.
      rewrite extend_orbitals_ids. apply extend_ids_lookup. cbn [fst snd].
      unfold num_orb in Hi. repeat split; try lia; done.
    + intros ec _. cbn [fst snd].
      apply (for_each_raise (λ _, True)); [done|intros; apply (Hstep _ (_, _))|].
      exists h. split; [done|]. intros ec' _. subst st.
      rewrite extend_add_hopping_cases by done. cbn [snd].
      rewrite decide_True by done. rewrite decide_False by lia. done.
Qed.

End ExtendFurther.

Section ExtendOutcome.

Context {R : Type} `{Float64 R} {E : Type}.
Implicit Types (c : @PrimitiveCell R E) (h : @Hopping E).

Lemma valid_no_dangling c : valid_cell c → no_dangling c.
Proof. intros Hv h Hh _. by apply Hv. Qed.

(** With dimensions of at least one, [extend_prim_cell] either returns the
    closed form or raises [KeyError] on a dangling hopping. *)
Lemma extend_outcome c na nb nc :
  (1 ≤ na)%Z → (1 ≤ nb)%Z → (1 ≤ nc)%Z →
  (no_dangling c
   ∧ extend_prim_cell c [na; nb; nc] = Ok (extend_result c (na, nb, nc)))
  ∨ ((∃ h, h ∈ hopping_list c ∧ dangling c h)
     ∧ extend_prim_cell c [na; nb; nc] = Raise KeyError).
Proof.
  intros H0 H1 H2.
  destruct (decide (Exists (dangling c) (hopping_list c))) as [He|Hne].
  - right. apply Exists_exists in He as (h & Hh & Hd).
    split; [by exists h|]. by apply (extend_key_error c na nb nc h).
  - left. assert (no_dangling c) as Hnd.
    { intros h Hh Hi. destruct (decide (hop_j (index h) < num_orb c)); [done|].
      exfalso. apply Hne. apply Exists_exists. exists h. split; [done|].
      split; lia. }
    split; [done|]. by apply extend_prim_cell_eq_weak.
Qed.

(** What [extend_prim_cell] does with its argument [dim] before it looks
    at the cell. *)
Lemma extend_dim_cases (dim : list Z) :
  (∀ c, extend_prim_cell c dim = Raise CoordLenError)
  ∨ (∀ c, extend_prim_cell c dim = Raise ValueError)
  ∨ ∃ na nb nc, (1 ≤ na)%Z ∧ (1 ≤ nb)%Z ∧ (1 ≤ nc)%Z
      ∧ ∀ c, extend_prim_cell c dim = extend_prim_cell c [na; nb; nc].
Proof.
  destruct dim as [|na [|nb [|nc [|? ?]]]]; try (by left).
  - destruct (decide (na < 1 ∨ nb < 1 ∨ 1 < 1)%Z) as [Hlt|Hge].
    + right. left. intros c. unfold extend_prim_cell.
      cbn [correct_coord mbind result_bind]. by rewrite decide_True.
    + right. right. exists na, nb, 1%Z. repeat split; lia.
  - destruct (decide (na < 1 ∨ nb < 1 ∨ nc < 1)%Z) as [Hlt|Hge].
    + right. left. intros c. unfold extend_prim_cell.
      cbn [correct_coord mbind result_bind]. by rewrite decide_True.
    + right. right. exists na, nb, nc. repeat split; lia.
Qed.

Lemma elem_of_extend_hops_src c d0 d1 d2 h' :
  h' ∈ extend_hops (d0, d1, d2) (num_orb c) (hopping_list c)
         (extend_items (orbital_list c) (d0, d1, d2)).*1.*1
  ↔ ∃ h i_a i_b i_c,
      h ∈ hopping_list c ∧ hop_i (index h) < num_orb c
      ∧ (0 ≤ i_a < d0)%Z ∧ (0 ≤ i_b < d1)%Z ∧ (0 ≤ i_c < d2)%Z
      ∧ h' = wrapped_hopping (d0, d1, d2) (num_orb c) (i_a, i_b, i_c) h.
Proof.
  unfold extend_hops. rewrite list_elem_of_bind. split.
  - intros ([i [[[i_a i_b] i_c] i_o]] & Hin & Hx).
    apply elem_of_enumerate in Hx. cbn [fst snd] in Hx, Hin.
    apply extend_ids_lookup in Hx as (Ha & Hb & Hc & Ho & ->). cbn [fst snd] in *.
    unfold extend_hops_of in Hin. apply list_elem_of_bind in Hin as (h & Hin & Hh).
    exists h, i_a, i_b, i_c. split; [done|].
    unfold wrapped_hopping.
    destruct (index h) as [[[[h0 h1] h2] h3] h4]. cbn [hop_i].
    destruct (decide (i_o = h3)) as [->|Hne]; [|by apply elem_of_nil in Hin].
    do 4 (split; [done|]). by apply list_elem_of_singleton in Hin.
  - intros (h & i_a & i_b & i_c & Hh & Hi & Ha & Hb & Hc & ->).
    exists (new_index (d0, d1, d2) (num_orb c) (i_a, i_b, i_c, hop_i (index h)),
            (i_a, i_b, i_c, hop_i (index h))).
    split.
    + cbn [fst snd]. unfold extend_hops_of. apply list_elem_of_bind.
      exists h. split; [|done]. unfold wrapped_hopping.
      destruct (index h) as [[[[h0 h1] h2] h3] h4]. cbn [hop_i].
      rewrite decide_True by done. by apply list_elem_of_singleton.
    + apply elem_of_enumerate. cbn [fst snd]. by apply extend_ids_lookup.
Qed.

Lemma new_index_lt (orbs : list (@Orbital R)) d0 d1 d2 id_pc :
  (0 ≤ id_pc.1.1.1 < d0)%Z → (0 ≤ id_pc.1.1.2 < d1)%Z → (0 ≤ id_pc.1.2 < d2)%Z →
  id_pc.2 < length orbs →
  new_index (d0, d1, d2) (length orbs) id_pc
  < length (extend_items orbs (d0, d1, d2)).
Proof.
  intros Ha Hb Hc Ho.
  assert ((extend_items orbs (d0, d1, d2)).*1.*1
            !! new_index (d0, d1, d2) (length orbs) id_pc = Some id_pc) as Hl
    by by apply extend_ids_lookup.
  apply lookup_lt_Some in Hl. by rewrite !length_fmap in Hl.
Qed.

Lemma num_orb_extend_result c d0 d1 d2 :
  num_orb (extend_result c (d0, d1, d2))
  = length (extend_items (orbital_list c) (d0, d1, d2)).
Proof. unfold extend_result, num_orb. cbn. by rewrite length_fmap. Qed.

Lemma hopping_list_extend_result c d0 d1 d2 :
  hopping_list (extend_result c (d0, d1, d2))
  = extend_hops (d0, d1, d2) (num_orb c) (hopping_list c)
                (extend_items (orbital_list c) (d0, d1, d2)).*1.*1.
Proof. done. Qed.

Lemma extend_result_valid c d0 d1 d2 :
  (1 ≤ d0)%Z → (1 ≤ d1)%Z → (1 ≤ d2)%Z → no_dangling c →
  valid_cell (extend_result c (d0, d1, d2)).
Proof.
  intros H0 H1 H2 Hnd h' Hh'. rewrite num_orb_extend_result.
  rewrite hopping_list_extend_result in Hh'.
  apply elem_of_extend_hops_src in Hh'
    as (h & i_a & i_b & i_c & Hh & Hi & Ha & Hb & Hc & ->).
  pose proof (Hnd h Hh Hi) as Hj. unfold wrapped_hopping.
  destruct (index h) as [[[[h0 h1] h2] h3] h4]. cbn [index hop_i hop_j] in *.
  unfold num_orb in *. split; apply new_index_lt; cbn [fst snd]; try done;
    apply Z.mod_pos_bound; lia.
Qed.

Lemma wrap_div_bounds (i h n : Z) :
  (0 ≤ i < n)%Z → (Z.min 0 h ≤ (i + h) `div` n ≤ Z.max 0 h)%Z.
Proof.
  intros Hi. split.
  - apply Z.div_le_lower_bound; [lia|]. nia.
  - apply Z.lt_succ_r. apply Z.div_lt_upper_bound; [lia|]. nia.
Qed.

End ExtendOutcome.

Section ExtendErrors.

Context {R : Type} `{Float64 R} {E : Type}.
Implicit Types (c : @PrimitiveCell R E) (h : @Hopping E).

(** X1 (extend_prim_cell, dimension check).  The call raises [ValueError]
    exactly when one of the three dimensions is smaller than one: the check
    fires whatever the cell is, and nothing later in the function raises
    that exception. *)
Theorem extend_value_error_iff c na nb nc :
  extend_prim_cell c [na; nb; nc] = Raise ValueError
  ↔ (na < 1 ∨ nb < 1 ∨ nc < 1)%Z.
Proof.
  split.
  - intros Hr.
    destruct (decide (na < 1 ∨ nb < 1 ∨ nc < 1)%Z) as [|Hge]; [done|].
    destruct (extend_outcome c na nb nc) as [[_ Ho]|[_ Ho]]; try lia;
      rewrite Ho in Hr; discriminate.
  - intros Hlt. unfold extend_prim_cell.
    cbn [correct_coord mbind result_bind]. by rewrite decide_True.
Qed.

(** X2 (extend_prim_cell, missing destination).  With dimensions of at
    least one the call succeeds exactly when no hopping term leads from an
    existing orbital to a missing one, and raises [KeyError] (from the
    lookup [orb_id_sc[id_pc_j]]) exactly when one does.  A hopping term
    whose source orbital is missing never makes it fail. *)
Theorem extend_key_error_iff c na nb nc :
  (1 ≤ na)%Z → (1 ≤ nb)%Z → (1 ≤ nc)%Z →
  (extend_prim_cell c [na; nb; nc] = Raise KeyError
   ↔ ∃ h, h ∈ hopping_list c
        ∧ hop_i (index h) < num_orb c ∧ num_orb c ≤ hop_j (index h))
  ∧ ((∃ c', extend_prim_cell c [na; nb; nc] = Ok c')
     ↔ ∀ h, h ∈ hopping_list c →
         hop_i (index h) < num_orb c → hop_j (index h) < num_orb c).
Proof.
  intros H0 H1 H2.
  destruct (extend_outcome c na nb nc) as [[Hnd Ho]|[(h & Hh & Hd) Ho]];
    try done; rewrite Ho.
  - split; split; try done.
    + intros (h & Hh & Hi & Hj). pose proof (Hnd h Hh Hi). lia.
    + intros _. by eexists.
  - split; split; try done.
    + intros _. by exists h.
    + by intros [c' ?].
    + intros Hnd. destruct Hd as [Hi Hj]. pose proof (Hnd h Hh Hi). lia.
Qed.

Lemma extend_hops_of_filter (dim : vec3 Z) (N : nat) (hops : list (@Hopping E))
    (id_sc_i : nat) (id_pc_i : id_pc_t) :
  id_pc_i.2 < N →
  extend_hops_of dim N (filter (λ h, hop_i (index h) < N) hops) id_sc_i id_pc_i
  = extend_hops_of dim N hops id_sc_i id_pc_i.
Proof.
  destruct dim as [[d0 d1] d2], id_pc_i as [[[i_a i_b] i_c] i_o].
  cbn [snd]. intros Hio. unfold extend_hops_of.
  induction hops as [|h l IH]; [done|].
  rewrite filter_cons, (list_bind_cons _ h l), <- IH.
  destruct (decide (hop_i (index h) < N)) as [Hlt|Hge].
  - by rewrite list_bind_cons.
  - destruct (index h) as [[[[h0 h1] h2] h3] h4]. cbn [hop_i] in Hge.
    rewrite decide_False; [done|]. lia.
Qed.

(** X3 (extend_prim_cell, hopping terms without a source).  Hopping terms
    whose source index is not an orbital of the cell are never looked at:
    for every argument [dim], removing them from the cell beforehand gives
    the same outcome, result or exception. *)
Theorem extend_ignores_sourceless_hoppings c dim :
  extend_prim_cell
    (set_hopping_list
       (filter (λ h, hop_i (index h) < num_orb c) (hopping_list c)) c) dim
  = extend_prim_cell c dim.
Proof.
  set (c1 := set_hopping_list _ c).
  assert (num_orb c1 = num_orb c) as Hn by done.
  assert (orbital_list c1 = orbital_list c) as Horb by done.
  assert (∀ h, h ∈ hopping_list c1
               ↔ h ∈ hopping_list c ∧ hop_i (index h) < num_orb c) as Hin.
  { intros h. subst c1. cbn [hopping_list set_hopping_list].
    rewrite list_elem_of_filter. tauto. }
  destruct (extend_dim_cases (R:=R) (E:=E) dim)
    as [Hd|[Hd|(na & nb & nc & H0 & H1 & H2 & Hd)]];
    rewrite !Hd; try done.
  destruct (extend_outcome c na nb nc) as [[Hnd Ho]|[(h & Hh & Hi & Hj) Ho]];
    try done; rewrite Ho.
  - rewrite extend_prim_cell_eq_weak; try done.
    + unfold extend_result. rewrite Hn, Horb. do 2 f_equal.
      unfold extend_hops. subst c1. cbn [hopping_list set_hopping_list lat_vec].
      f_equal. apply bind_ext_in. intros [k id_pc] Hx.
      apply elem_of_enumerate, extend_ids_lookup in Hx as (_ & _ & _ & Hio & _).
      by apply extend_hops_of_filter.
    + intros h Hh Hi. apply Hin in Hh as [Hh _]. rewrite Hn. by apply Hnd.
  - apply (extend_key_error c1 na nb nc h); try done. by apply Hin.
Qed.

(** X4 (extend_prim_cell, index invariant).  Whatever the arguments, a
    cell that [extend_prim_cell] returns is valid: every one of its hopping
    terms has both orbital indices within its orbital list, so the result
    can be fed to the transformations again. *)
Theorem extend_result_is_valid c dim c' :
  extend_prim_cell c dim = Ok c' → valid_cell c'.
Proof.
  intros He.
  destruct (extend_dim_cases (R:=R) (E:=E) dim)
    as [Hd|[Hd|(na & nb & nc & H0 & H1 & H2 & Hd)]];
    rewrite Hd in He; try discriminate.
  destruct (extend_outcome c na nb nc) as [[Hnd Ho]|[_ Ho]]; try done;
    rewrite Ho in He; [|discriminate].
  assert (c' = extend_result c (na, nb, nc)) as -> by congruence.
  by apply extend_result_valid.
Qed.

(** X5 (extend_prim_cell, composition).  A valid cell can be extended
    twice in a row; the second extension works on the result of the first
    and the numbers of orbitals and of hopping terms are multiplied by both
    cell counts. *)
Theorem extend_twice_counts c na nb nc ma mb mc :
  (1 ≤ na)%Z → (1 ≤ nb)%Z → (1 ≤ nc)%Z →
  (1 ≤ ma)%Z → (1 ≤ mb)%Z → (1 ≤ mc)%Z → valid_cell c →
  ∃ c1 c2,
    extend_prim_cell c [na; nb; nc] = Ok c1
    ∧ extend_prim_cell c1 [ma; mb; mc] = Ok c2
    ∧ Z.of_nat (num_orb c2)
      = (ma * mb * mc * (na * nb * nc) * Z.of_nat (num_orb c))%Z
    ∧ Z.of_nat (length (hopping_list c2))
      = (ma * mb * mc * (na * nb * nc) * Z.of_nat (length (hopping_list c)))%Z.
Proof.
  intros H0 H1 H2 H3 H4 H5 Hv.
  pose proof (extend_result_valid c na nb nc H0 H1 H2 (valid_no_dangling c Hv))
    as Hv1.
  exists (extend_result c (na, nb, nc)),
         (extend_result (extend_result c (na, nb, nc)) (ma, mb, mc)).
  split; [by apply extend_prim_cell_eq|].
  split; [by apply extend_prim_cell_eq|].
  pose proof (length_extend_hops c na nb nc Hv) as Hh1.
  rewrite <- hopping_list_extend_result in Hh1.
  pose proof (num_orb_extend_result c na nb nc) as Hn1.
  rewrite length_extend_items in Hn1.
  set (c1 := extend_result c (na, nb, nc)) in *.
  pose proof (length_extend_hops c1 ma mb mc Hv1) as Hh2.
  rewrite <- hopping_list_extend_result in Hh2.
  pose proof (num_orb_extend_result c1 ma mb mc) as Hn2.
  rewrite length_extend_items in Hn2.
  rewrite Hn2, Hh2, Hh1. fold (num_orb c1). rewrite Hn1. fold (num_orb c). lia.
Qed.

(** X6 (extend_prim_cell, cell offsets).  Every hopping term of the
    extended cell comes from a hopping term of the original cell with the
    same energy, and along each axis its cell offset lies between zero and
    the original offset: extending never lengthens a hop, and a hop that
    stayed in the home cell along an axis still does. *)
Theorem extend_offsets_bounded c na nb nc c' h' :
  (1 ≤ na)%Z → (1 ≤ nb)%Z → (1 ≤ nc)%Z →
  extend_prim_cell c [na; nb; nc] = Ok c' → h' ∈ hopping_list c' →
  ∃ h, h ∈ hopping_list c
    ∧ hop_energy h' = hop_energy h
    ∧ (Z.min 0 (hop_rn (index h)).1.1 ≤ (hop_rn (index h')).1.1
       ≤ Z.max 0 (hop_rn (index h)).1.1)%Z
    ∧ (Z.min 0 (hop_rn (index h)).1.2 ≤ (hop_rn (index h')).1.2
       ≤ Z.max 0 (hop_rn (index h)).1.2)%Z
    ∧ (Z.min 0 (hop_rn (index h)).2 ≤ (hop_rn (index h')).2
       ≤ Z.max 0 (hop_rn (index h)).2)%Z.
Proof.
  intros H0 H1 H2 He Hh'.
  destruct (extend_outcome c na nb nc) as [[_ Ho]|[_ Ho]]; try done;
    rewrite Ho in He; [|discriminate].
  assert (c' = extend_result c (na, nb, nc)) as -> by congruence.
  rewrite hopping_list_extend_result in Hh'.
  apply elem_of_extend_hops_src in Hh'
    as (h & i_a & i_b & i_c & Hh & _ & Ha & Hb & Hc & ->).
  exists h. split; [done|]. unfold wrapped_hopping.
  destruct (index h) as [[[[h0 h1] h2] h3] h4].
  cbn [index hop_energy hop_rn fst snd].
  split; [done|]. repeat split; by apply wrap_div_bounds.
Qed.

(** X7 (extend_prim_cell, inputs read).  The extended cell is built from
    the lattice vectors, the orbital list and the hopping list alone: the
    scale factor [extended] of the argument and its cached arrays, stale or
    not, have no influence on the outcome. *)
Theorem extend_reads_lists_only c1 c2 dim :
  lat_vec c1 = lat_vec c2 → orbital_list c1 = orbital_list c2 →
  hopping_list c1 = hopping_list c2 →
  extend_prim_cell c1 dim = extend_prim_cell c2 dim.
Proof.
  intros Hl Ho Hh.
  unfold extend_prim_cell, extend_hoppings, extend_orbitals.
  by rewrite Hl, Ho, Hh.
Qed.

End ExtendErrors.

Lemma extend_key_error_iff_witness :
  (1 ≤ 2)%Z ∧ (1 ≤ 1)%Z ∧ (1 ≤ 1)%Z
  ∧ extend_prim_cell dangling_pair [2; 1; 1]%Z = Raise KeyError.
Proof.
  do 3 (split; [lia|]).
  destruct (extend_key_error_iff dangling_pair 2 1 1) as [[_ Hk] _];
    [lia|lia|lia|].
  apply Hk. exists (mkHopping (0%Z, 0%Z, 0%Z, 0, 1) 1%Q).
  split; [|vm_compute; lia]. vm_compute. left.
Defined.

Lemma extend_result_is_valid_witness :
  ∃ c', extend_prim_cell graphene_diamond [2; 3; 1]%Z = Ok c' ∧ valid_cell c'.
Proof.
  pose proof (extend_prim_cell_eq graphene_diamond 2 3 1
                ltac:(lia) ltac:(lia) ltac:(lia) graphene_diamond_valid) as He.
  eexists. split; [exact He|]. exact (extend_result_is_valid _ _ _ He).
Defined.

Lemma extend_twice_counts_witness :
  valid_cell graphene_diamond
  ∧ ∃ c1 c2,
      extend_prim_cell graphene_diamond [2; 1; 1]%Z = Ok c1
      ∧ extend_prim_cell c1 [1; 3; 1]%Z = Ok c2
      ∧ Z.of_nat (num_orb c2) = 12%Z
      ∧ Z.of_nat (length (hopping_list c2)) = 18%Z.
Proof.
  split; [apply graphene_diamond_valid|].
  destruct (extend_twice_counts graphene_diamond 2 1 1 1 3 1)
    as (c1 & c2 & He1 & He2 & Hn & Hh); try lia; [apply graphene_diamond_valid|].
  exists c1, c2. split; [exact He1|]. split; [exact He2|].
  split; [exact Hn|exact Hh].
Defined.

Lemma extend_offsets_bounded_witness :
  ∃ c' h', extend_prim_cell graphene_diamond [2; 1; 1]%Z = Ok c'
    ∧ h' ∈ hopping_list c'
    ∧ ∃ h, h ∈ hopping_list graphene_diamond
        ∧ hop_energy h' = hop_energy h
        ∧ (Z.min 0 (hop_rn (index h)).1.1 ≤ (hop_rn (index h')).1.1
           ≤ Z.max 0 (hop_rn (index h)).1.1)%Z.
Proof.
  exists (extend_result graphene_diamond (2, 1, 1)%Z),
         (mkHopping (0%Z, 0%Z, 0%Z, 0, 1) (-27 # 10)%Q).
  assert (extend_prim_cell graphene_diamond [2; 1; 1]%Z
          = Ok (extend_result graphene_diamond (2, 1, 1)%Z)) as He
    by (vm_compute; reflexivity).
  assert (mkHopping (0%Z, 0%Z, 0%Z, 0, 1) (-27 # 10)%Q
          ∈ hopping_list (extend_result graphene_diamond (2, 1, 1)%Z)) as Hin
    by (vm_compute; left).
  split; [exact He|]. split; [exact Hin|].
  destruct (extend_offsets_bounded graphene_diamond 2 1 1 _ _
              ltac:(lia) ltac:(lia) ltac:(lia) He Hin)
    as (h & Hh & Hen & Hb & _).
  exists h. split; [exact Hh|]. split; [exact Hen|exact Hb].
Defined.

Lemma extend_reads_lists_only_witness :
  extended stale_graphene ≠ extended graphene_diamond
  ∧ extend_prim_cell stale_graphene [2; 2; 1]%Z
    = extend_prim_cell graphene_diamond [2; 2; 1]%Z.
Proof.
  split; [vm_compute; discriminate|].
  apply (extend_reads_lists_only stale_graphene graphene_diamond); reflexivity.
Defined.

(** ** trim_prim_cell: errors and surviving hopping terms *)

Lemma fmap_filter_compose {A B : Type} (F K : A → Prop) (K' : A → Prop)
    `{∀ x, Decision (F x)} `{∀ x, Decision (K x)} `{∀ x, Decision (K' x)}
    (f : A → A) (g' g : A → B) (l : list A) :
  (∀ x, x ∈ l → K x ↔ F x ∧ K' (f x)) →
  (∀ x, x ∈ l → K x → g' (f x) = g x) →
  g' <$> filter K' (f <$> filter F l) = g <$> filter K l.
Proof.
  induction l as [|x l IH]; intros HK Hg; [done|].
  assert (g' <$> filter K' (f <$> filter F l) = g <$> filter K l) as IH'.
  { apply IH; intros; [apply HK|apply Hg]; try done; by right. }
  pose proof (HK x ltac:(left)) as HKx. pose proof (Hg x ltac:(left)) as Hgx.
  rewrite (filter_cons F), (filter_cons K).
  destruct (decide (F x)) as [HF|HF].
  - rewrite fmap_cons, filter_cons.
    destruct (decide (K' (f x))) as [HK'|HK'].
    + rewrite decide_True by tauto. rewrite !fmap_cons, IH', Hgx by tauto. done.
    + rewrite decide_False by tauto. done.
  - rewrite decide_False by tauto. done.
Qed.

Section TrimFurther.

Context {R : Type} `{Float64 R} {E : Type}.
Implicit Types (c : @PrimitiveCell R E) (h : @Hopping E).

Lemma trim_ren_low (Q : nat → Prop) `{∀ i, Decision (Q i)} s i j :
  j + i ≤ s → trim_ren Q s i j = j.
Proof.
  intros Hj. unfold trim_ren. replace (j + i - s) with 0 by lia.
  cbn. lia.
Qed.

Lemma trim_ren_skip (Q : nat → Prop) `{∀ i, Decision (Q i)} s i j :
  ¬ Q s → trim_ren Q (S s) i j = trim_ren Q s i j.
Proof.
  intros HQ. destruct (decide (j + i ≤ s)) as [Hle|Hgt].
  - rewrite !trim_ren_low by lia. done.
  - unfold trim_ren. replace (j + i - s) with (S (j + i - S s)) by lia.
    cbn [seq]. by rewrite filter_cons_False.
Qed.

Lemma trim_ren_remove (Q : nat → Prop) `{∀ i, Decision (Q i)} s i k j :
  Q s → s = k + i → j ≠ k →
  trim_ren Q (S s) (S i) (shift_down k j) = trim_ren Q s i j.
Proof.
  intros HQ Hs Hj. unfold shift_down. destruct (decide (k < j)) as [Hlt|Hge].
  - unfold trim_ren. replace (j + i - s) with (S (pred j + S i - S s)) by lia.
    cbn [seq]. rewrite filter_cons_True by done. cbn [length]. lia.
  - rewrite !trim_ren_low by lia. done.
Qed.

Lemma trim_keep_remove (Q : nat → Prop) s i k j :
  Q s → s = k + i → j ≠ k →
  ¬ (k ≤ shift_down k j ∧ Q (shift_down k j + S i)) ↔ ¬ (k ≤ j ∧ Q (j + i)).
Proof.
  intros HQ Hs Hj. unfold shift_down. destruct (decide (k < j)) as [Hlt|Hge].
  - replace (pred j + S i) with (j + i) by lia.
    split; intros Hn [? ?]; apply Hn; split; try done; lia.
  - split; intros _ [? ?]; lia.
Qed.

(** The removal loop of [trim_prim_cell]: the hopping terms left at the
    end, and the fields it does not touch. *)
Lemma trim_loop_hops (Q : nat → Prop) `{∀ i, Decision (Q i)}
    (l : list (@Orbital R)) :
  ∀ pre s i c,
    orbital_list c = pre ++ l → s = length pre + i → valid_cell c →
    ∃ c', for_each (λ prim_cell '(i, orb_id),
                      remove_orbital (Z.of_nat orb_id - Z.of_nat i) prim_cell)
                   (imap (λ k t, (i + k, t)) (filter Q (seq s (length l)))) c
          = Ok c'
      ∧ hopping_list c' = trim_hops_at Q (length pre) s i (hopping_list c)
      ∧ lat_vec c' = lat_vec c ∧ extended c' = extended c.
Proof.
  induction l as [|x l IH]; intros pre s i c Hl Hs Hv.
  - exists c. split; [done|]. split; [|done].
    assert (∀ h, h ∈ hopping_list c →
              hop_i (index h) < length pre ∧ hop_j (index h) < length pre) as Hv'.
    { intros h Hh. destruct (Hv h Hh) as [Hi Hj]. unfold num_orb in *.
      rewrite Hl, length_app in *. simpl in *. lia. }
    unfold trim_hops_at. rewrite filter_id by (intros h Hh; apply Hv' in Hh; lia).
    rewrite <- (list_fmap_id (hopping_list c)) at 1.
    apply list_fmap_ext. intros k h Hk. apply list_elem_of_lookup_2, Hv' in Hk.
    destruct h as [[[[[na nb] nc] a] b] e]. cbn [index hop_i hop_j hop_energy] in *.
    rewrite !trim_ren_low by lia. done.
  - cbn [length seq]. rewrite filter_cons.
    destruct (decide (Q s)) as [HQ|HQ].
    + cbn [imap for_each].
      replace (Z.of_nat s - Z.of_nat (i + 0))%Z with (Z.of_nat (length pre)) by lia.
      destruct (remove_orbital_eq c (length pre)) as (c1 & Hr & Hl1 & Hv1 & _).
      { unfold num_orb. rewrite Hl, length_app. simpl. lia. }
      { done. }
      rewrite Hr. cbn [mbind result_bind].
      rewrite Hl, delete_middle in Hl1.
      destruct (IH pre (S s) (S i) c1 Hl1 ltac:(lia) Hv1)
        as (c' & Hc' & Hh' & Hlat & Hext).
      exists c'. split.
      { rewrite <- Hc'. f_equal. apply imap_ext. intros k t _. simpl. f_equal. lia. }
      unfold remove_orbital in Hr. rewrite decide_True in Hr by
        (unfold num_orb; rewrite Hl, length_app; simpl; lia).
      rewrite Nat2Z.id in Hr. injection Hr as <-.
      cbn [hopping_list lat_vec extended] in *.
      split; [|done]. rewrite Hh'. unfold trim_hops_at.
      apply fmap_filter_compose.
      * intros h Hh. destruct (index h) as [[[[na nb] nc] a] b].
        cbn [index hop_i hop_j].
        destruct (decide (a = length pre)) as [->|Ha].
        { split; [intros [Hk _]|intros [[? _] _]; done].
          exfalso. apply Hk. split; [lia|]. by rewrite <- Hs. }
        destruct (decide (b = length pre)) as [->|Hb].
        { split; [intros [_ Hk]|intros [[_ ?] _]; done].
          exfalso. apply Hk. split; [lia|]. by rewrite <- Hs. }
        rewrite (trim_keep_remove Q s i (length pre) a) by done.
        rewrite (trim_keep_remove Q s i (length pre) b) by done. tauto.
      * intros h Hh [Hka Hkb]. destruct (index h) as [[[[na nb] nc] a] b].
        cbn [index hop_i hop_j hop_energy] in *.
        assert (a ≠ length pre) as Ha.
        { intros ->. apply Hka. split; [lia|]. by rewrite <- Hs. }
        assert (b ≠ length pre) as Hb.
        { intros ->. apply Hkb. split; [lia|]. by rewrite <- Hs. }
        by rewrite !(trim_ren_remove Q s i (length pre)) by done.
    + destruct (IH (pre ++ [x]) (S s) i c) as (c' & Hc' & Hh' & Hlat & Hext).
      { by rewrite <- app_assoc. }
      { rewrite length_app. simpl. lia. }
      { done. }
      exists c'. split; [done|]. split; [|done]. rewrite Hh'.
      unfold trim_hops_at. rewrite length_app. cbn [length].
      rewrite (filter_ext_in _
                 (λ h, ¬ (length pre ≤ hop_i (index h) ∧ Q (hop_i (index h) + i))
                       ∧ ¬ (length pre ≤ hop_j (index h)
                            ∧ Q (hop_j (index h) + i)))).
      * apply list_fmap_ext. intros k h _.
        destruct (index h) as [[[[na nb] nc] a] b].
        by rewrite !trim_ren_skip by done.
      * intros h _. split; intros [Ha Hb]; split; intros [? HQ'].
        -- destruct (decide (hop_i (index h) = length pre)) as [Heq|Hne].
           ++ apply HQ. rewrite Hs, <- Heq. done.
           ++ apply Ha. split; [lia|done].
        -- destruct (decide (hop_j (index h) = length pre)) as [Heq|Hne].
           ++ apply HQ. rewrite Hs, <- Heq. done.
           ++ apply Hb. split; [lia|done].
        -- apply Ha. split; [lia|done].
        -- apply Hb. split; [lia|done].
Qed.

Lemma count_hops_invalid c :
  ¬ valid_cell c → count_hops c = Raise IndexError.
Proof.
  intros Hnv. unfold count_hops.
  set (body := λ (hop_count : list Z) (hop : @Hopping E),
         hop_count ← incr_count hop_count (hop_i (index hop));
         incr_count hop_count (hop_j (index hop))).
  assert (∀ hc i, length hc = num_orb c →
            (i < num_orb c ∧ ∃ hc', incr_count hc i = Ok hc'
                                   ∧ length hc' = num_orb c)
            ∨ (num_orb c ≤ i ∧ incr_count hc i = Raise IndexError)) as Hincr.
  { intros hc i Hlen. unfold incr_count, subscript.
    destruct (hc !! i) as [x|] eqn:Hx.
    - left. apply lookup_lt_Some in Hx as Hlt. split; [lia|].
      eexists. split; [done|]. by rewrite length_insert.
    - right. apply lookup_ge_None in Hx. split; [lia|done]. }
  assert (∀ hc h, length hc = num_orb c →
            (∃ hc', body hc h = Ok hc' ∧ length hc' = num_orb c)
            ∨ body hc h = Raise IndexError) as Hbody.
  { intros hc h Hlen. unfold body.
    destruct (Hincr hc (hop_i (index h)) Hlen) as [[_ (hc1 & -> & Hl1)]|[_ ->]];
      [|by right].
    cbn [mbind result_bind].
    destruct (Hincr hc1 (hop_j (index h)) Hl1) as [[_ (hc2 & -> & Hl2)]|[_ ->]];
      [left; by exists hc2|by right]. }
  apply (for_each_raise (λ hc, length hc = num_orb c)).
  - by rewrite length_replicate.
  - intros hc h _ Hlen. by apply Hbody.
  - destruct (decide (Forall (λ h, hop_i (index h) < num_orb c
                                   ∧ hop_j (index h) < num_orb c)
                             (hopping_list c))) as [Hall|Hex].
    { exfalso. apply Hnv. intros h Hh. by apply (proj1 (Forall_forall _ _) Hall). }
    apply not_Forall_Exists in Hex; [|apply _].
    apply Exists_exists in Hex as (h & Hh & Hbad). exists h. split; [done|].
    intros hc Hlen. unfold body.
    destruct (Hincr hc (hop_i (index h)) Hlen) as [[Hi (hc1 & -> & Hl1)]|[_ ->]];
      [|done].
    cbn [mbind result_bind].
    destruct (Hincr hc1 (hop_j (index h)) Hl1) as [[Hj _]|[_ ->]]; [|done].
    exfalso. apply Hbad. by split.
Qed.

Lemma length_drop_indices {A : Type} (Q : nat → Prop) `{∀ i, Decision (Q i)}
    s (l : list A) :
  length (drop_indices Q s l) ≤ length l.
Proof.
  revert s. induction l as [|x l IH]; intros s; [done|].
  cbn [drop_indices]. specialize (IH (S s)).
  destruct (decide (Q s)); cbn [length]; lia.
Qed.

Lemma drop_indices_id {A : Type} (Q : nat → Prop) `{∀ i, Decision (Q i)}
    s (l : list A) :
  drop_indices Q s l = l → ∀ i, i < length l → ¬ Q (s + i).
Proof.
  revert s. induction l as [|x l IH]; intros s Heq i Hi; [cbn in Hi; lia|].
  cbn [drop_indices] in Heq. destruct (decide (Q s)) as [HQ|HQ].
  - pose proof (length_drop_indices Q (S s) l) as Hle.
    rewrite Heq in Hle. cbn [length] in Hle. lia.
  - injection Heq as Heq. destruct i as [|i].
    + by rewrite Nat.add_0_r.
    + replace (s + S i) with (S s + i) by lia. apply IH; [done|].
      cbn [length] in Hi. lia.
Qed.

(** Without overflow of the int32 counters an orbital is selected for
    removal exactly when its degree is at most one. *)
Lemma trim_selected c i_o :
  (2 * Z.of_nat (length (hopping_list c)) < 2 ^ 31)%Z →
  (int32 (Z.of_nat (degree (hopping_list c) i_o)) ≤ 1)%Z
  ↔ degree (hopping_list c) i_o ≤ 1.
Proof.
  intros Hsmall. pose proof (degree_le (hopping_list c) i_o).
  rewrite int32_small by lia. lia.
Qed.

(** X9 (trim_prim_cell, failure).  The call succeeds exactly on the cells
    whose hopping terms all have both orbital indices within the orbital
    list; on every other cell it raises [IndexError], from the counting
    loop [hop_count[...] += 1], before anything is removed.  A cell it
    returns is valid again. *)
Theorem trim_index_error_iff c :
  (trim_prim_cell c = Raise IndexError ↔ ¬ valid_cell c)
  ∧ ((∃ c', trim_prim_cell c = Ok c') ↔ valid_cell c)
  ∧ (∀ c', trim_prim_cell c = Ok c' → valid_cell c').
Proof.
  destruct (decide (Forall (λ h, hop_i (index h) < num_orb c
                                 ∧ hop_j (index h) < num_orb c)
                           (hopping_list c))) as [Hall|Hex].
  - assert (valid_cell c) as Hv.
    { intros h Hh. by apply (proj1 (Forall_forall _ _) Hall). }
    destruct (trim_prim_cell_eq c Hv) as (c' & Hc' & _ & Hv' & _). rewrite Hc'.
    split; [|split].
    + split; done.
    + split; [done|]. intros _. by eexists.
    + intros c'' [= <-]. by apply valid_cell_sync.
  - assert (¬ valid_cell c) as Hnv.
    { intros Hv. apply Hex. apply Forall_forall. intros h Hh. by apply Hv. }
    unfold trim_prim_cell. rewrite (count_hops_invalid c Hnv).
    cbn [mbind result_bind]. split; [|split].
    + split; done.
    + split; [|done]. by intros [c' ?].
    + intros c' [=].
Qed.

(** X10 (trim_prim_cell, surviving hopping terms).  On a valid cell
    whose counters do not overflow, the hopping terms left are exactly the
    original ones between orbitals of degree at least two (degree taken in
    the original cell), in their original order, with cell offset and
    energy unchanged and each orbital index lowered by the number of
    removed orbitals below it.  Lattice vectors and scale factor are
    untouched and the result is again a valid cell. *)
Theorem trim_surviving_hoppings c :
  valid_cell c → (2 * Z.of_nat (length (hopping_list c)) < 2 ^ 31)%Z →
  ∃ c', trim_prim_cell c = Ok c'
    ∧ hopping_list c' = trim_hops (hopping_list c)
    ∧ lat_vec c' = lat_vec c ∧ extended c' = extended c
    ∧ valid_cell c'.
Proof.
  intros Hv Hsmall.
  destruct (trim_prim_cell_eq c Hv) as (c0 & Hc0 & _ & Hv0 & _).
  pose (Q := λ i_o, (int32 (Z.of_nat (degree (hopping_list c) i_o)) ≤ 1)%Z).
  destruct (trim_loop_hops Q (orbital_list c) [] 0 0 c)
    as (c' & Hc' & Hh' & Hlat & Hext); [done..|].
  assert (trim_prim_cell c = Ok (sync_array c')) as Ht.
  { unfold trim_prim_cell. rewrite count_hops_eq by done.
    cbn [mbind result_bind].
    rewrite enumerate_fmap_seq.
    rewrite (filter_fmap_fst _ (λ '(i_o, count), (count ≤ 1)%Z)).
    change (filter _ (seq 0 (num_orb c))) with (filter Q (seq 0 (num_orb c))).
    rewrite sorted_filter_seq.
    change (imap (λ k t : nat, (0 + k, t))) with (@enumerate nat) in Hc'.
    unfold num_orb. by rewrite Hc'. }
  assert (sync_array c0 = sync_array c') as Hsync by congruence.
  exists (sync_array c'). split; [done|].
  split; [|split; [done|split; [done|]]].
  2:{ rewrite <- Hsync. by apply valid_cell_sync. }
  cbn [hopping_list sync_array].
  rewrite Hh'. unfold trim_hops_at, trim_hops. cbn [length].
  rewrite (filter_ext_in _
             (λ h, 2 ≤ degree (hopping_list c) (hop_i (index h))
                   ∧ 2 ≤ degree (hopping_list c) (hop_j (index h)))).
  - apply list_fmap_ext. intros k h _.
    destruct (index h) as [[[[na nb] nc] a] b].
    unfold trim_ren, removed_below. rewrite !Nat.add_0_r, !Nat.sub_0_r.
    rewrite (filter_ext_in Q (λ t, degree (hopping_list c) t ≤ 1) (seq 0 a))
      by (intros; by apply trim_selected).
    rewrite (filter_ext_in Q (λ t, degree (hopping_list c) t ≤ 1) (seq 0 b))
      by (intros; by apply trim_selected).
    done.
  - intros h _. rewrite !Nat.add_0_r. unfold Q.
    rewrite !trim_selected by done. lia.
Qed.

(** X11 (trim_prim_cell, cells left alone).  On a valid cell whose
    counters do not overflow, trimming changes nothing apart from
    refreshing the cached arrays exactly when every orbital occurs at
    least twice as an endpoint of a hopping term. *)
Theorem trim_noop_iff c :
  valid_cell c → (2 * Z.of_nat (length (hopping_list c)) < 2 ^ 31)%Z →
  trim_prim_cell c = Ok (sync_array c)
  ↔ ∀ i_o, i_o < num_orb c → 2 ≤ degree (hopping_list c) i_o.
Proof.
  intros Hv Hsmall.
  destruct (trim_prim_cell_eq c Hv) as (c' & Hc' & Hl & _ & _ & Hnil).
  rewrite Hc'. split.
  - intros Heq i_o Hi.
    assert (orbital_list c' = orbital_list c) as Ho.
    { injection Heq as Heq. destruct c', c. cbn in *. congruence. }
    rewrite Ho in Hl. symmetry in Hl.
    pose proof (drop_indices_id _ 0 _ Hl i_o Hi) as Hq. cbn [Nat.add] in Hq.
    rewrite trim_selected in Hq by done. lia.
  - intros Hdeg. rewrite Hnil; [done|]. apply filter_none.
    intros i_o Hi%elem_of_seq. rewrite trim_selected by done.
    specialize (Hdeg i_o ltac:(lia)). lia.
Qed.

End TrimFurther.

Lemma trim_surviving_hoppings_witness :
  valid_cell chain3
  ∧ ∃ c', trim_prim_cell chain3 = Ok c'
      ∧ hopping_list c' = trim_hops (hopping_list chain3).
Proof.
  split; [apply chain3_valid|].
  destruct (trim_surviving_hoppings chain3) as (c' & Ht & Hh & _);
    [apply chain3_valid|vm_compute; reflexivity|].
  exists c'. split; [exact Ht|exact Hh].
Defined.

Lemma trim_noop_iff_witness :
  valid_cell graphene_diamond
  ∧ trim_prim_cell graphene_diamond = Ok (sync_array graphene_diamond).
Proof.
  split; [apply graphene_diamond_valid|].
  apply (trim_noop_iff graphene_diamond);
    [apply graphene_diamond_valid|vm_compute; reflexivity|].
  intros i_o Hi. destruct i_o as [|[|i_o]].
  - vm_compute. lia.
  - vm_compute. lia.
  - vm_compute in Hi. lia.
Defined.

(** ** apply_pbc: outcome and composition *)

Section PbcFurther.

Context {R : Type} `{Float64 R} {E : Type}.
Implicit Types (c : @PrimitiveCell R E) (h : @Hopping E).

Lemma periodic_ok_andb pa pb pc qa qb qc h :
  periodic_ok (pa && qa) (pb && qb) (pc && qc) h
  ↔ periodic_ok qa qb qc h ∧ periodic_ok pa pb pc h.
Proof.
  unfold periodic_ok. destruct (hop_rn (index h)) as [[n0 n1] n2].
  rewrite !andb_false_iff. tauto.
Qed.

(** X12 (apply_pbc, outcome).  A flag list of a length other than three
    is rejected with [ValueError]; every list of three flags is accepted,
    whatever the cell, and the call then leaves lattice vectors, orbitals
    and scale factor as they are, rebuilds the cached arrays from the
    lists, and keeps a valid cell valid. *)
Theorem apply_pbc_outcome c pbc :
  (length pbc ≠ 3 → apply_pbc c pbc = Raise ValueError)
  ∧ (length pbc = 3 →
     ∃ c', apply_pbc c pbc = Ok c'
       ∧ lat_vec c' = lat_vec c ∧ orbital_list c' = orbital_list c
       ∧ extended c' = extended c
       ∧ orb_pos c' = position <$> orbital_list c
       ∧ hop_ind c' = index <$> hopping_list c'
       ∧ (valid_cell c → valid_cell c')).
Proof.
  split.
  - intros Hlen. unfold apply_pbc. by rewrite decide_True.
  - intros Hlen. destruct pbc as [|pa [|pb [|pc [|? ?]]]]; try done.
    rewrite apply_pbc_eq. eexists. split; [done|].
    cbn [lat_vec orbital_list extended orb_pos hop_ind hopping_list
         sync_array set_hopping_list].
    do 5 (split; [done|]). intros Hv h Hh.
    apply list_elem_of_filter in Hh as [_ Hh]. by apply Hv.
Qed.

(** X13 (apply_pbc, composition).  Applying one triple of flags and then
    another is the same as applying their conjunction once; hence the
    order of two applications does not matter. *)
Theorem apply_pbc_compose c c1 c2 pa pb pc qa qb qc :
  apply_pbc c [pa; pb; pc] = Ok c1 → apply_pbc c1 [qa; qb; qc] = Ok c2 →
  apply_pbc c [pa && qa; pb && qb; pc && qc] = Ok c2
  ∧ ∃ c1', apply_pbc c [qa; qb; qc] = Ok c1'
         ∧ apply_pbc c1' [pa; pb; pc] = Ok c2.
Proof.
  rewrite !apply_pbc_eq. intros H1 H2.
  injection H1 as <-. injection H2 as <-.
  cbn [hopping_list sync_array set_hopping_list].
  assert (filter (periodic_ok (pa && qa) (pb && qb) (pc && qc)) (hopping_list c)
          = filter (periodic_ok qa qb qc)
                   (filter (periodic_ok pa pb pc) (hopping_list c))) as Hand.
  { rewrite list_filter_filter. apply filter_ext_in. intros h _.
    apply periodic_ok_andb. }
  split.
  - rewrite Hand. done.
  - eexists. split; [done|]. rewrite apply_pbc_eq.
    cbn [hopping_list sync_array set_hopping_list].
    rewrite !list_filter_filter.
    rewrite (filter_ext_in
               (λ h, periodic_ok pa pb pc h ∧ periodic_ok qa qb qc h)
               (λ h, periodic_ok qa qb qc h ∧ periodic_ok pa pb pc h))
      by (intros; tauto).
    done.
Qed.

End PbcFurther.

Lemma apply_pbc_compose_witness :
  ∃ c1 c2 : QCell,
    apply_pbc graphene_diamond [true; false; true] = Ok c1
    ∧ apply_pbc c1 [false; true; true] = Ok c2
    ∧ apply_pbc graphene_diamond [false; false; true] = Ok c2.
Proof.
  pose proof (apply_pbc_eq graphene_diamond true false true) as H1.
  set (c1 := sync_array _) in H1.
  pose proof (apply_pbc_eq c1 false true true) as H2.
  set (c2 := sync_array _) in H2.
  exists c1, c2. split; [exact H1|]. split; [exact H2|].
  exact (proj1 (apply_pbc_compose graphene_diamond c1 c2
                  true false true false true true H1 H2)).
Defined.

(** ** reshape_prim_cell: invariants *)

Section ReshapeFurther.

Context {R : Type} `{Float64 R} {E : Type}.
Implicit Types (c : @PrimitiveCell R E) (h : @Hopping E).

Lemma elem_of_reshape_hops orbs conv_mat origin delta pos_tol
    (items : list (id_pc_t * vec3 R * R)) (hops : list (@Hopping E)) h' :
  h' ∈ reshape_hops orbs conv_mat origin delta pos_tol items hops
  → ∃ h id_sc_i id_sc_j (it_i it_j : id_pc_t * vec3 R * R) (res_rn : vec3 Z),
      h ∈ hops
      ∧ items !! id_sc_i = Some it_i ∧ it_i.1.1.2 = hop_i (index h)
      ∧ items !! id_sc_j = Some it_j ∧ it_j.1.1.2 = hop_j (index h)
      ∧ h' = mkHopping (res_rn.1.1, res_rn.1.2, res_rn.2, id_sc_i, id_sc_j)
                       (hop_energy h).
Proof.
  unfold reshape_hops. intros Hin.
  apply list_elem_of_bind in Hin as ([id_sc_i id_pc_i] & Hin & Hx).
  apply list_elem_of_bind in Hin as (h & Hin & Hh).
  apply elem_of_enumerate in Hx. cbn [fst snd] in *.
  rewrite !list_lookup_fmap in Hx.
  destruct (items !! id_sc_i) as [it_i|] eqn:Hit; [|done].
  cbn in Hx. injection Hx as <-.
  unfold reshape_hops_of in Hin.
  destruct (decide (it_i.1.1.2 = hop_i (index h))) as [Hi|]; [|by apply elem_of_nil in Hin].
  destruct (reshape_target _ _ _ _ _ _) as [[res_rn res_pos]|];
    [|by apply elem_of_nil in Hin].
  apply list_elem_of_fmap in Hin as ([id_sc_j it_j] & -> & Hy).
  unfold reshape_matches in Hy. apply list_elem_of_filter in Hy as [[Hj _] Hy].
  apply elem_of_enumerate in Hy. cbn [fst snd] in *.
  by exists h, id_sc_i, id_sc_j, it_i, it_j, res_rn.
Qed.

Lemma num_orb_reshape_result c lat_frac conv_mat origin delta pos_tol :
  num_orb (reshape_result c lat_frac conv_mat origin delta pos_tol)
  = length (reshape_items (orbital_list c) conv_mat origin delta
                          (make_rn_range lat_frac)).
Proof.
  unfold reshape_result, num_orb. destruct lat_frac as [[f0 f1] f2].
  cbn [orbital_list sync_array]. by rewrite !length_fmap.
Qed.

Lemma hopping_list_reshape_result c lat_frac conv_mat origin delta pos_tol :
  hopping_list (reshape_result c lat_frac conv_mat origin delta pos_tol)
  = reshape_hops (orbital_list c) conv_mat origin delta pos_tol
      (reshape_items (orbital_list c) conv_mat origin delta
                     (make_rn_range lat_frac))
      (hopping_list c).
Proof. unfold reshape_result. by destruct lat_frac as [[f0 f1] f2]. Qed.

Lemma orbital_list_reshape_result c lat_frac conv_mat origin delta pos_tol :
  orbital_list (reshape_result c lat_frac conv_mat origin delta pos_tol)
  = unnudge delta
    <$> (item_orbital
         <$> reshape_items (orbital_list c) conv_mat origin delta
                           (make_rn_range lat_frac)).
Proof. unfold reshape_result. by destruct lat_frac as [[f0 f1] f2]. Qed.

(** X14 (reshape_prim_cell, inputs read).  The reshaped cell is computed
    from the lattice vectors, the orbital list and the hopping list alone:
    the cached arrays are rebuilt before they are read, so stale ones do no
    harm, and the scale factor of the argument is not carried over. *)
Theorem reshape_reads_lists_only c1 c2 lat_frac origin delta pos_tol :
  lat_vec c1 = lat_vec c2 → orbital_list c1 = orbital_list c2 →
  hopping_list c1 = hopping_list c2 →
  reshape_prim_cell c1 lat_frac origin delta pos_tol
  = reshape_prim_cell c2 lat_frac origin delta pos_tol.
Proof.
  intros Hl Ho Hh.
  unfold reshape_prim_cell, reshape_orbitals, reshape_hoppings,
    reshape_try_orbital, reshape_add_hopping, reshape_match.
  cbn [sync_array lat_vec orb_pos orb_eng hop_ind hop_eng].
  by rewrite Hl, Ho, Hh.
Qed.

(** One step of the loop over the hopping terms in [reshape_prim_cell]. *)
Lemma reshape_add_hopping_cases c conv_mat origin delta pos_tol items st
    id_sc_i id_pc_i rc i_h hop :
  orb_id_pc st = items.*1.*1 → dict_ok st →
  orb_pos rc = (λ it, it.1.2) <$> items →
  hopping_list c !! i_h = Some hop →
  reshape_add_hopping (sync_array c) conv_mat origin delta pos_tol st
                      id_sc_i id_pc_i rc (i_h, index hop)
  = if decide (id_pc_i.2 = hop_i (index hop)) then
      if decide (hop_j (index hop) < num_orb c) then
        Ok (append_hoppings
              (reshape_hops_of (orbital_list c) conv_mat origin delta pos_tol
                               items id_sc_i id_pc_i hop) rc)
      else Raise IndexError
    else Ok rc.
Proof.
  intros Hids Hdict Hpos Hx.
  unfold reshape_add_hopping, reshape_hops_of, reshape_target.
  destruct id_pc_i as [[[i_a i_b] i_c] i_o].
  destruct (index hop) as [[[[h0 h1] h2] h3] h4] eqn:Hi. cbn [fst snd hop_i hop_j].
  destruct (decide (i_o = h3)) as [->|Hne]; [|done].
  destruct (decide (h4 < num_orb c)) as [Hj|Hj].
  - apply lookup_lt_is_Some in Hj as [o Ho].
    unfold subscript at 1. cbn [sync_array orb_pos].
    rewrite list_lookup_fmap, Ho.
    cbn [fmap option_fmap option_map mbind result_bind]. cbn [option_bind].
    rewrite (reshape_match_loop c pos_tol items st id_sc_i i_h h4 _ _
               (hop_energy hop)); try done.
    cbn [sync_array hop_eng]. by rewrite list_lookup_fmap, Hx.
  - unfold subscript at 1. cbn [sync_array orb_pos].
    rewrite list_lookup_fmap, lookup_ge_None_2 by (unfold num_orb in Hj; lia).
    done.
Qed.

(** The loop over the hopping terms for one kept orbital: all its hopping
    terms are added, or a missing destination raises. *)
Lemma reshape_inner_outcome c conv_mat origin delta pos_tol items st
    id_sc_i id_pc_i rc :
  orb_id_pc st = items.*1.*1 → dict_ok st →
  orb_pos rc = (λ it, it.1.2) <$> items →
  (Forall (λ hop, id_pc_i.2 = hop_i (index hop) → hop_j (index hop) < num_orb c)
          (hopping_list c)
   ∧ for_each (reshape_add_hopping (sync_array c) conv_mat origin delta pos_tol
                 st id_sc_i id_pc_i)
              (enumerate (hop_ind (sync_array c))) rc
     = Ok (append_hoppings
             (hopping_list c
                ≫= reshape_hops_of (orbital_list c) conv_mat origin delta pos_tol
                                    items id_sc_i id_pc_i) rc))
  ∨ (Exists (λ hop, id_pc_i.2 = hop_i (index hop)
                    ∧ num_orb c ≤ hop_j (index hop)) (hopping_list c)
     ∧ for_each (reshape_add_hopping (sync_array c) conv_mat origin delta pos_tol
                   st id_sc_i id_pc_i)
                (enumerate (hop_ind (sync_array c))) rc
       = Raise IndexError).
Proof.
  intros Hids Hdict Hpos.
  cbn [sync_array hop_ind]. rewrite enumerate_fmap, for_each_fmap.
  destruct (decide (Exists (λ hop, id_pc_i.2 = hop_i (index hop)
                                   ∧ num_orb c ≤ hop_j (index hop))
                           (hopping_list c))) as [Hex|Hnex].
  - right. split; [done|].
    apply (for_each_raise (λ rc, orb_pos rc = (λ it, it.1.2) <$> items)); [done| |].
    + intros rc' [i_h hop] Hx%elem_of_enumerate Hpos'. cbn [fst snd] in *.
      rewrite (reshape_add_hopping_cases c conv_mat origin delta pos_tol items)
        by done.
      repeat case_decide; eauto.
    + apply Exists_exists in Hex as (hop & Hh & Heq & Hge).
      apply list_elem_of_lookup in Hh as [i_h Hx].
      exists (i_h, hop). split; [by apply elem_of_enumerate|].
      intros rc' Hpos'. cbn [fst snd].
      rewrite (reshape_add_hopping_cases c conv_mat origin delta pos_tol items)
        by done.
      rewrite decide_True by done. rewrite decide_False by lia. done.
  - left.
    assert (Forall (λ hop, id_pc_i.2 = hop_i (index hop)
                           → hop_j (index hop) < num_orb c) (hopping_list c))
      as Hall.
    { apply Forall_forall. intros hop Hh Heq.
      destruct (decide (hop_j (index hop) < num_orb c)); [done|].
      exfalso. apply Hnex, Exists_exists. exists hop. split; [done|].
      split; [done|lia]. }
    split; [done|].
    rewrite <- (snd_enumerate (hopping_list c)) at 2. rewrite bind_fmap.
    apply for_each_append_pos with (pos := (λ it, it.1.2) <$> items); [|done].
    intros rc' [i_h hop] Hx%elem_of_enumerate Hpos'. cbn [fst snd] in *.
    rewrite (reshape_add_hopping_cases c conv_mat origin delta pos_tol items)
      by done.
    destruct (decide (id_pc_i.2 = hop_i (index hop))) as [Heq|Hne].
    + rewrite decide_True; [done|].
      apply (proj1 (Forall_forall _ _) Hall hop); [|done].
      by eapply list_elem_of_lookup_2.
    + unfold reshape_hops_of. rewrite decide_False by done.
      by rewrite append_hoppings_nil.
Qed.

Lemma ids_lookup_Some (items : list (id_pc_t * vec3 R * R)) (k : nat)
    (id_pc : id_pc_t) :
  items.*1.*1 !! k = Some id_pc
  ↔ ∃ it : id_pc_t * vec3 R * R, items !! k = Some it ∧ it.1.1 = id_pc.
Proof.
  rewrite !list_lookup_fmap. destruct (items !! k) as [it|]; cbn.
  - split; [intros [= <-]; by exists it|intros (? & [= <-] & <-); done].
  - split; [done|by intros (? & ? & _)].
Qed.

Lemma reshape_hoppings_outcome c conv_mat origin delta pos_tol items st rc :
  orb_id_pc st = items.*1.*1 → dict_ok st →
  orb_pos rc = (λ it, it.1.2) <$> items →
  num_orb rc = length items →
  (Forall (λ h, ¬ reshape_dangling c items h) (hopping_list c)
   ∧ reshape_hoppings (sync_array c) conv_mat origin delta pos_tol st rc
     = Ok (append_hoppings
             (reshape_hops (orbital_list c) conv_mat origin delta pos_tol items
                           (hopping_list c)) rc))
  ∨ (Exists (reshape_dangling c items) (hopping_list c)
     ∧ reshape_hoppings (sync_array c) conv_mat origin delta pos_tol st rc
       = Raise IndexError).
Proof.
  intros Hids Hdict Hpos Hn. unfold reshape_hoppings, reshape_hops.
  assert (num_orb rc = length (orb_id_pc st)) as ->.
  { by rewrite Hn, Hids, !length_fmap. }
  rewrite (for_each_range_subscript (orb_id_pc st)
             (λ res_cell id_sc_i id_pc_i,
                for_each (reshape_add_hopping (sync_array c) conv_mat origin delta
                            pos_tol st id_sc_i id_pc_i)
                         (enumerate (hop_ind (sync_array c))) res_cell)).
  rewrite Hids.
  destruct (decide (Exists (reshape_dangling c items) (hopping_list c)))
    as [Hex|Hnex].
  - right. split; [done|].
    apply (for_each_raise (λ rc, orb_pos rc = (λ it, it.1.2) <$> items)); [done| |].
    + intros rc' [id_sc_i id_pc_i] _ Hpos'. cbn [fst snd].
      destruct (reshape_inner_outcome c conv_mat origin delta pos_tol items st
                  id_sc_i id_pc_i rc' Hids Hdict Hpos') as [[_ ->]|[_ ->]];
        [left|by right].
      eexists. split; [done|done].
    + apply Exists_exists in Hex as (hop & Hh & Hit & Hge).
      apply Exists_exists in Hit as (it & Hit & Heq).
      apply list_elem_of_lookup in Hit as [k Hk].
      exists (k, it.1.1). split.
      { apply elem_of_enumerate. cbn [fst snd].
        apply ids_lookup_Some. by exists it. }
      intros rc' Hpos'. cbn [fst snd].
      destruct (reshape_inner_outcome c conv_mat origin delta pos_tol items st
                  k it.1.1 rc' Hids Hdict Hpos') as [[Hall _]|[_ ->]]; [|done].
      pose proof (proj1 (Forall_forall _ _) Hall hop Hh Heq). lia.
  - left. split.
    { apply Forall_forall. intros h Hh Hd. apply Hnex, Exists_exists. by exists h. }
    apply for_each_append_pos with (pos := (λ it, it.1.2) <$> items); [|done].
    intros rc' [id_sc_i id_pc_i] Hx%elem_of_enumerate Hpos'. cbn [fst snd] in *.
    destruct (reshape_inner_outcome c conv_mat origin delta pos_tol items st
                id_sc_i id_pc_i rc' Hids Hdict Hpos') as [[_ ->]|[Hex _]]; [done|].
    exfalso. apply Hnex.
    apply Exists_exists in Hex as (hop & Hh & Heq & Hge).
    apply Exists_exists. exists hop. split; [done|]. split; [|done].
    apply ids_lookup_Some in Hx as (it & Hit & <-).
    apply Exists_exists. exists it. split; [|done].
    by eapply list_elem_of_lookup_2.
Qed.

(** With an invertible [lat_frac], [reshape_prim_cell] either returns the
    closed form or raises [IndexError] on a hopping term followed from a
    kept orbital to a missing one. *)
Lemma reshape_outcome c lat_frac conv_mat origin delta pos_tol :
  linalg_inv lat_frac = Some conv_mat →
  let items := reshape_items (orbital_list c) conv_mat origin delta
                             (make_rn_range lat_frac) in
  (Forall (λ h, ¬ reshape_dangling c items h) (hopping_list c)
   ∧ reshape_prim_cell c lat_frac origin delta pos_tol
     = Ok (reshape_result c lat_frac conv_mat origin delta pos_tol))
  ∨ (Exists (reshape_dangling c items) (hopping_list c)
     ∧ reshape_prim_cell c lat_frac origin delta pos_tol = Raise IndexError).
Proof.
  intros Hinv items. unfold reshape_prim_cell, reshape_result. rewrite Hinv.
  subst items. destruct lat_frac as [[f0 f1] f2].
  rewrite reshape_orbitals_eq. cbn [mbind result_bind].
  set (items := reshape_items (orbital_list c) conv_mat origin delta
                  (make_rn_range (f0, f1, f2))).
  set (st := record_all items _).
  assert (orbital_list (st_cell st) = item_orbital <$> items) as Hol.
  { subst st. by rewrite record_all_cell. }
  destruct (reshape_hoppings_outcome c conv_mat origin delta pos_tol items st
              (sync_array (st_cell st))) as [[Hall ->]|[Hex ->]].
  - subst st. by rewrite record_all_orb_id_pc.
  - apply reshape_state_dict_ok.
  - cbn [sync_array orb_pos]. rewrite Hol, <- list_fmap_compose. done.
  - unfold num_orb. cbn [sync_array orbital_list]. by rewrite Hol, length_fmap.
  - left. split; [done|].
    cbn [mbind result_bind]. rewrite subtract_delta_eq by done.
    cbn [mbind result_bind]. unfold sync_array.
    cbn [lat_vec orbital_list hopping_list extended append_hoppings].
    rewrite Hol. subst st. rewrite record_all_cell. cbn. done.
  - right. by split.
Qed.

Lemma reshape_result_valid c lat_frac conv_mat origin delta pos_tol :
  valid_cell (reshape_result c lat_frac conv_mat origin delta pos_tol).
Proof.
  intros h' Hh'. rewrite num_orb_reshape_result.
  rewrite hopping_list_reshape_result in Hh'.
  apply elem_of_reshape_hops in Hh'
    as (h & i & j & it_i & it_j & rn & _ & Hi & _ & Hj & _ & ->).
  cbn [index hop_i hop_j]. split; by eapply lookup_lt_Some.
Qed.


(** X16 (reshape_prim_cell, index invariant).  Whatever the argument,
    a cell that [reshape_prim_cell] returns is valid: every hopping term
    added joins two orbitals that were kept, so the result can be fed to
    the transformations again. *)
Theorem reshape_result_is_valid c lat_frac origin delta pos_tol c' :
  reshape_prim_cell c lat_frac origin delta pos_tol = Ok c' → valid_cell c'.
Proof.
  intros Hr. destruct (linalg_inv lat_frac) as [conv_mat|] eqn:Hinv.
  - destruct (reshape_outcome c lat_frac conv_mat origin delta pos_tol Hinv)
      as [[_ Ho]|[_ Ho]]; rewrite Ho in Hr; [|discriminate].
    assert (c' = reshape_result c lat_frac conv_mat origin delta pos_tol) as ->
      by congruence.
    apply reshape_result_valid.
  - unfold reshape_prim_cell in Hr. rewrite Hinv in Hr. discriminate.
Qed.

(** X17 (reshape_prim_cell, origin of the hopping terms).  Every hopping
    term of the reshaped cell stems from a hopping term of the original
    cell: it carries the same energy, and the two orbitals it joins are
    lattice translates (by integer cell offsets [rn_i], [rn_j]) of the two
    orbitals the original term joins, with their on-site energies.  No
    hopping term is invented and no energy is altered. *)
Theorem reshape_hopping_origin c lat_frac conv_mat origin delta pos_tol c' h' :
  linalg_inv lat_frac = Some conv_mat →
  reshape_prim_cell c lat_frac origin delta pos_tol = Ok c' →
  h' ∈ hopping_list c' →
  ∃ h o_i o_j rn_i rn_j,
    h ∈ hopping_list c
    ∧ hop_energy h' = hop_energy h
    ∧ orbital_list c !! hop_i (index h) = Some o_i
    ∧ orbital_list c !! hop_j (index h) = Some o_j
    ∧ orbital_list c' !! hop_i (index h')
      = Some (unnudge delta
                (mkOrbital (to_res_pos conv_mat origin delta rn_i (position o_i))
                           (energy o_i)))
    ∧ orbital_list c' !! hop_j (index h')
      = Some (unnudge delta
                (mkOrbital (to_res_pos conv_mat origin delta rn_j (position o_j))
                           (energy o_j))).
Proof.
  intros Hinv Hr Hh'.
  destruct (reshape_outcome c lat_frac conv_mat origin delta pos_tol Hinv)
    as [[_ Ho]|[_ Ho]]; rewrite Ho in Hr; [|discriminate].
  assert (c' = reshape_result c lat_frac conv_mat origin delta pos_tol) as ->
    by congruence.
  rewrite hopping_list_reshape_result in Hh'.
  rewrite orbital_list_reshape_result.
  apply elem_of_reshape_hops in Hh'
    as (h & i & j & it_i & it_j & rn & Hh & Hi & Hio & Hj & Hjo & ->).
  cbn [index hop_i hop_j hop_energy].
  pose proof (list_elem_of_lookup_2 _ _ _ Hi) as Hi'.
  pose proof (list_elem_of_lookup_2 _ _ _ Hj) as Hj'.
  rewrite !list_lookup_fmap, Hi, Hj.
  apply elem_of_reshape_items in Hi'
    as (a & b & d & i_o & o_i & _ & _ & _ & Hoi & _ & ->).
  apply elem_of_reshape_items in Hj'
    as (a' & b' & d' & j_o & o_j & _ & _ & _ & Hoj & _ & ->).
  cbn [fst snd] in Hio, Hjo. subst i_o j_o.
  by exists h, o_i, o_j, (a, b, d), (a', b', d').
Qed.

End ReshapeFurther.

Lemma reshape_reads_lists_only_witness :
  extended stale_graphene ≠ extended graphene_diamond
  ∧ orb_pos stale_graphene ≠ orb_pos graphene_diamond
  ∧ reshape_prim_cell stale_graphene rect_basis (0, 0, 0)%Q
                      (1 # 100)%Q (1 # 100000)%Q
    = reshape_prim_cell graphene_diamond rect_basis (0, 0, 0)%Q
                        (1 # 100)%Q (1 # 100000)%Q.
Proof.
  split; [vm_compute; discriminate|]. split; [vm_compute; discriminate|].
  apply (reshape_reads_lists_only stale_graphene graphene_diamond); reflexivity.
Defined.


Lemma reshape_result_is_valid_witness :
  ∃ c', reshape_prim_cell graphene_diamond rect_basis (0, 0, 0)%Q
                          (1 # 100)%Q (1 # 100000)%Q = Ok c'
    ∧ valid_cell c'.
Proof.
  destruct (linalg_inv rect_basis) as [conv_mat|] eqn:Hinv;
    [|vm_compute in Hinv; discriminate].
  pose proof (reshape_prim_cell_eq graphene_diamond rect_basis conv_mat
                (0, 0, 0)%Q (1 # 100)%Q (1 # 100000)%Q
                graphene_diamond_valid Hinv) as Hr.
  eexists. split; [exact Hr|].
  exact (reshape_result_is_valid _ _ _ _ _ _ Hr).
Defined.

Lemma reshape_hopping_origin_witness :
  ∃ c' h',
    reshape_prim_cell graphene_diamond rect_basis (0, 0, 0)%Q
                      (1 # 100)%Q (1 # 100000)%Q = Ok c'
    ∧ h' ∈ hopping_list c'
    ∧ ∃ h, h ∈ hopping_list graphene_diamond ∧ hop_energy h' = hop_energy h.
Proof.
  destruct (linalg_inv rect_basis) as [conv_mat|] eqn:Hinv;
    [|vm_compute in Hinv; discriminate].
  pose proof (reshape_prim_cell_eq graphene_diamond rect_basis conv_mat
                (0, 0, 0)%Q (1 # 100)%Q (1 # 100000)%Q
                graphene_diamond_valid Hinv) as Hr.
  set (c' := reshape_result _ _ _ _ _ _) in Hr.
  assert (∃ h', h' ∈ hopping_list c') as [h' Hin].
  { subst c'. clear Hr. vm_compute in Hinv. injection Hinv as <-.
    vm_compute. eexists. left. }
  destruct (reshape_hopping_origin _ _ _ _ _ _ _ _ Hinv Hr Hin)
    as (h & _ & _ & _ & _ & Hh & He & _).
  exists c', h'. split; [exact Hr|]. split; [exact Hin|].
  exists h. split; [exact Hh|exact He].
Defined.

(** ** reshape_prim_cell on exact rationals *)

Lemma Q_unnudge_bounds (x delta : Q) :
  Qfloor x = 0%Z → (- delta <= x - delta < 1 - delta)%Q.
Proof.
  intros Hf. pose proof (Qfloor_le x) as Hlo. pose proof (Qlt_floor x) as Hhi.
  rewrite Hf in Hlo, Hhi. change (inject_Z 0) with 0%Q in Hlo.
  change (inject_Z (0 + 1)) with 1%Q in Hhi. unfold Qminus. split.
  - rewrite <- (Qplus_0_l (- delta)) at 1.
    apply Qplus_le_compat; [done|apply Qle_refl].
  - apply Qplus_lt_le_compat; [done|apply Qle_refl].
Qed.

(** X18 (reshape_prim_cell, fractional positions).  On exact rationals:
    every orbital of a reshaped cell has each fractional coordinate in the
    half-open interval from [-delta] to [1 - delta]; the kept copies are
    those that fall into the unit cell moved back by the nudge, so an
    orbital on a lower cell border is kept and positions are never off by
    a whole cell. *)
Theorem reshape_positions_in_cell (c c' : QCell) lat_frac origin delta pos_tol :
  reshape_prim_cell c lat_frac origin delta pos_tol = Ok c' →
  ∀ o', o' ∈ orbital_list c' → in_nudged_cube delta (position o').
Proof.
  intros Hr o' Ho'. destruct (linalg_inv lat_frac) as [conv_mat|] eqn:Hinv.
  - destruct (reshape_outcome c lat_frac conv_mat origin delta pos_tol Hinv)
      as [[_ Ho]|[_ Ho]]; rewrite Ho in Hr; [|discriminate].
    assert (c' = reshape_result c lat_frac conv_mat origin delta pos_tol) as ->
      by congruence.
    rewrite orbital_list_reshape_result in Ho'.
    apply list_elem_of_fmap in Ho' as (o1 & -> & Ho1).
    apply list_elem_of_fmap in Ho1 as (it & -> & Hit).
    apply elem_of_reshape_items in Hit
      as (a & b & d & i_o & o & _ & _ & _ & _ & Hidx & ->).
    unfold unnudge, item_orbital. cbn [position fst snd].
    destruct (to_res_pos _ _ _ _ _) as [[x y] z].
    unfold _get_cell_index, vmap in Hidx. cbn [math_floor Q_Float64] in Hidx.
    injection Hidx as Hx Hy Hz.
    unfold in_nudged_cube, vmap. cbn [fsub Q_Float64].
    repeat split; by apply Q_unnudge_bounds.
  - unfold reshape_prim_cell in Hr. rewrite Hinv in Hr. discriminate.
Qed.

Lemma reshape_positions_in_cell_witness :
  ∃ c', reshape_prim_cell graphene_diamond rect_basis (0, 0, 0)%Q
                          (1 # 100)%Q (1 # 100000)%Q = Ok c'
    ∧ ∀ o', o' ∈ orbital_list c' → in_nudged_cube (1 # 100)%Q (position o').
Proof.
  destruct (linalg_inv rect_basis) as [conv_mat|] eqn:Hinv;
    [|vm_compute in Hinv; discriminate].
  pose proof (reshape_prim_cell_eq graphene_diamond rect_basis conv_mat
                (0, 0, 0)%Q (1 # 100)%Q (1 # 100000)%Q
                graphene_diamond_valid Hinv) as Hr.
  eexists. split; [exact Hr|].
  exact (reshape_positions_in_cell _ _ _ _ _ _ Hr).
Defined.

(** ** extend_prim_cell keeps the degree of every orbital *)

Lemma filter_bind {A B : Type} (P : B → Prop) `{∀ x, Decision (P x)}
    (f : A → list B) (l : list A) :
  filter P (l ≫= f) = l ≫= λ x, filter P (f x).
Proof.
  induction l as [|a l IH]; [done|].
  by rewrite !list_bind_cons, filter_app, IH.
Qed.

Lemma sum_list_fmap_add {A : Type} (f g : A → nat) (l : list A) :
  sum_list ((λ x, f x + g x) <$> l) = sum_list (f <$> l) + sum_list (g <$> l).
Proof.
  induction l as [|a l IH]; [done|].
  rewrite !fmap_cons, !sum_list_cons, IH. lia.
Qed.

Lemma sum_list_fmap_zero {A : Type} (l : list A) :
  sum_list ((λ _, 0) <$> l) = 0.
Proof. induction l as [|a l IH]; [done|]. by rewrite fmap_cons, sum_list_cons, IH. Qed.

Lemma sum_indicator {A : Type} (P : A → Prop) `{∀ x, Decision (P x)} (l : list A) :
  sum_list ((λ x, if decide (P x) then 1 else 0) <$> l) = length (filter P l).
Proof.
  induction l as [|a l IH]; [done|].
  rewrite fmap_cons, sum_list_cons, IH, filter_cons.
  by destruct (decide (P a)).
Qed.

(** Counting over two nested loops, one loop at a time in either order. *)
Lemma count_bind_swap {A B C : Type} (P : C → Prop) `{∀ x, Decision (P x)}
    (g : A → B → list C) (l1 : list A) (l2 : list B) :
  length (filter P (l1 ≫= λ x, l2 ≫= g x))
  = sum_list ((λ y, length (filter P (l1 ≫= λ x, g x y))) <$> l2).
Proof.
  induction l1 as [|a l1 IH].
  - rewrite list_bind_nil. cbn [filter list_filter length].
    symmetry. erewrite list_fmap_ext; [apply sum_list_fmap_zero|].
    intros i y _. by rewrite list_bind_nil.
  - rewrite list_bind_cons, filter_app, length_app, IH.
    rewrite filter_bind, length_bind, <- sum_list_fmap_add.
    f_equal. apply list_fmap_ext. intros i y _.
    by rewrite list_bind_cons, filter_app, length_app.
Qed.

Lemma length_filter_unique {A : Type} (Q : A → Prop) `{∀ x, Decision (Q x)}
    (l : list A) (x0 : A) :
  NoDup l → x0 ∈ l → Q x0 → (∀ x, x ∈ l → Q x → x = x0) →
  length (filter Q l) = 1.
Proof.
  induction 1 as [|a l Hnin Hnd IH]; intros Hin HQ Huniq.
  - by apply elem_of_nil in Hin.
  - rewrite filter_cons. apply elem_of_cons in Hin as [<-|Hin].
    + rewrite decide_True by done. cbn [length]. f_equal.
      rewrite filter_none; [done|]. intros x Hx HQx.
      assert (x = x0) as -> by (apply Huniq; [by right|done]). done.
    + rewrite decide_False.
      * apply IH; [done|done|]. intros x Hx. apply Huniq. by right.
      * intros HQa. assert (a = x0) as -> by (apply Huniq; [by left|done]). done.
Qed.

Lemma wrap_mod_inv (i j h n : Z) :
  (0 ≤ i < n)%Z → (0 ≤ j < n)%Z →
  ((i + h) `mod` n = j ↔ i = (j - h) `mod` n)%Z.
Proof.
  intros Hi Hj. split.
  - intros <-. rewrite Zminus_mod_idemp_l.
    replace (i + h - h)%Z with i by lia. by rewrite Z.mod_small.
  - intros ->. rewrite Zplus_mod_idemp_l.
    replace (j - h + h)%Z with j by lia. by rewrite Z.mod_small.
Qed.

Section ExtendDegree.

Context {R : Type} `{Float64 R} {E : Type}.
Implicit Types (c : @PrimitiveCell R E) (h : @Hopping E).

Lemma extend_hops_of_single (dim : vec3 Z) N (x : nat * id_pc_t) h :
  extend_hops_of dim N [h] x.1 x.2
  = if decide (x.2.2 = hop_i (index h)) then [replica_hopping dim N x h] else [].
Proof.
  destruct dim as [[d0 d1] d2], x as [k [[[i_a i_b] i_c] i_o]].
  unfold extend_hops_of, replica_hopping. cbn [fst snd].
  rewrite list_bind_cons, list_bind_nil.
  destruct (index h) as [[[[h0 h1] h2] h3] h4]. cbn [hop_i].
  by destruct (decide (i_o = h3)).
Qed.

Lemma extend_hops_of_split (dim : vec3 Z) N (hops : list (@Hopping E))
    (x : nat * id_pc_t) :
  extend_hops_of dim N hops x.1 x.2
  = hops ≫= λ h, extend_hops_of dim N [h] x.1 x.2.
Proof.
  destruct dim as [[d0 d1] d2], x as [k [[[i_a i_b] i_c] i_o]].
  unfold extend_hops_of. cbn [fst snd]. apply bind_ext_in. intros h _.
  by rewrite list_bind_cons, list_bind_nil, app_nil_r.
Qed.

(** The number of derived hopping terms with a given property, counted
    per original hopping term. *)
Lemma extend_hops_count (P : @Hopping E → Prop) `{∀ h, Decision (P h)}
    (dim : vec3 Z) N (hops : list (@Hopping E)) (ids : list id_pc_t) :
  length (filter P (extend_hops dim N hops ids))
  = sum_list
      ((λ h, length (filter (λ x, x.2.2 = hop_i (index h)
                                  ∧ P (replica_hopping dim N x h))
                            (enumerate ids))) <$> hops).
Proof.
  unfold extend_hops.
  rewrite (bind_ext_in _ (λ x, hops ≫= λ h, extend_hops_of dim N [h] x.1 x.2))
    by (intros; apply extend_hops_of_split).
  rewrite (count_bind_swap P (λ x h, extend_hops_of dim N [h] x.1 x.2)).
  f_equal. apply list_fmap_ext. intros i h _.
  induction (enumerate ids) as [|x l IH]; [done|].
  rewrite list_bind_cons, filter_app, length_app, IH, (filter_cons _ x).
  rewrite extend_hops_of_single.
  destruct (decide (x.2.2 = hop_i (index h))) as [Heq|Hne].
  - rewrite filter_cons. cbn [filter list_filter].
    destruct (decide (P (replica_hopping dim N x h))).
    + by rewrite decide_True.
    + by rewrite decide_False by tauto.
  - by rewrite decide_False by tauto.
Qed.

End ExtendDegree.

Lemma new_index_inj `{Float64 R} (orbs : list (@Orbital R)) d0 d1 d2 id1 id2 :
  (0 ≤ id1.1.1.1 < d0)%Z → (0 ≤ id1.1.1.2 < d1)%Z → (0 ≤ id1.1.2 < d2)%Z →
  id1.2 < length orbs →
  (0 ≤ id2.1.1.1 < d0)%Z → (0 ≤ id2.1.1.2 < d1)%Z → (0 ≤ id2.1.2 < d2)%Z →
  id2.2 < length orbs →
  new_index (d0, d1, d2) (length orbs) id1 = new_index (d0, d1, d2) (length orbs) id2 →
  id1 = id2.
Proof.
  intros ???? ???? Heq.
  assert ((extend_items orbs (d0, d1, d2)).*1.*1
            !! new_index (d0, d1, d2) (length orbs) id1 = Some id1) as Hl1
    by by apply extend_ids_lookup.
  assert ((extend_items orbs (d0, d1, d2)).*1.*1
            !! new_index (d0, d1, d2) (length orbs) id2 = Some id2) as Hl2
    by by apply extend_ids_lookup.
  rewrite Heq in Hl1. congruence.
Qed.

Section ExtendDegreeCount.

Context {R : Type} `{Float64 R} {E : Type}.
Implicit Types (c : @PrimitiveCell R E) (h : @Hopping E).

Lemma hop_i_replica (dim : vec3 Z) N (x : nat * id_pc_t) h :
  hop_i (index (replica_hopping dim N x h)) = x.1.
Proof.
  destruct dim as [[d0 d1] d2], x as [k [[[i_a i_b] i_c] i_o]].
  unfold replica_hopping. cbn [fst snd].
  by destruct (index h) as [[[[h0 h1] h2] h3] h4].
Qed.

Lemma hop_j_replica d0 d1 d2 N (x : nat * id_pc_t) h :
  hop_j (index (replica_hopping (d0, d1, d2) N x h))
  = new_index (d0, d1, d2) N
      (((x.2.1.1.1 + (hop_rn (index h)).1.1) `mod` d0)%Z,
       ((x.2.1.1.2 + (hop_rn (index h)).1.2) `mod` d1)%Z,
       ((x.2.1.2 + (hop_rn (index h)).2) `mod` d2)%Z, hop_j (index h)).
Proof.
  destruct x as [k [[[i_a i_b] i_c] i_o]].
  unfold replica_hopping. cbn [fst snd].
  by destruct (index h) as [[[[h0 h1] h2] h3] h4].
Qed.

(** The replica [id_pc] is the source of as many derived hopping terms as
    its orbital is of original ones. *)
Lemma extend_out_count c d0 d1 d2 (id_pc : id_pc_t) :
  (0 ≤ id_pc.1.1.1 < d0)%Z → (0 ≤ id_pc.1.1.2 < d1)%Z → (0 ≤ id_pc.1.2 < d2)%Z →
  id_pc.2 < num_orb c →
  length (filter (λ h', hop_i (index h')
                        = new_index (d0, d1, d2) (num_orb c) id_pc)
                 (extend_hops (d0, d1, d2) (num_orb c) (hopping_list c)
                    (extend_items (orbital_list c) (d0, d1, d2)).*1.*1))
  = length (filter (λ h, hop_i (index h) = id_pc.2) (hopping_list c)).
Proof.
  intros Ha Hb Hc Ho. rewrite extend_hops_count, <- sum_indicator.
  f_equal. apply list_fmap_ext. intros i h _.
  set (ids := (extend_items (orbital_list c) (d0, d1, d2)).*1.*1).
  set (k := new_index (d0, d1, d2) (num_orb c) id_pc).
  assert (ids !! k = Some id_pc) as Hk by (by apply extend_ids_lookup).
  destruct (decide (hop_i (index h) = id_pc.2)) as [Heq|Hne].
  - apply (length_filter_unique _ _ (k, id_pc)).
    + apply NoDup_enumerate.
    + by apply elem_of_enumerate.
    + rewrite hop_i_replica. done.
    + intros x Hx [_ Hq]. rewrite hop_i_replica in Hq.
      apply (enumerate_inj ids); [done|by apply elem_of_enumerate|done].
  - rewrite filter_none; [done|].
    intros x Hx [Hq1 Hq2]. rewrite hop_i_replica in Hq2.
    assert (x = (k, id_pc)) as ->
      by (apply (enumerate_inj ids); [done|by apply elem_of_enumerate|done]).
    cbn [fst snd] in Hq1. congruence.
Qed.

(** It is the destination of as many derived hopping terms as its orbital
    is of original ones: each original term reaches it from exactly one
    replica of the source orbital. *)
Lemma extend_in_count c d0 d1 d2 (id_pc : id_pc_t) :
  valid_cell c →
  (0 ≤ id_pc.1.1.1 < d0)%Z → (0 ≤ id_pc.1.1.2 < d1)%Z → (0 ≤ id_pc.1.2 < d2)%Z →
  id_pc.2 < num_orb c →
  length (filter (λ h', hop_j (index h')
                        = new_index (d0, d1, d2) (num_orb c) id_pc)
                 (extend_hops (d0, d1, d2) (num_orb c) (hopping_list c)
                    (extend_items (orbital_list c) (d0, d1, d2)).*1.*1))
  = length (filter (λ h, hop_j (index h) = id_pc.2) (hopping_list c)).
Proof.
  intros Hv Ha Hb Hc Ho. rewrite extend_hops_count, <- sum_indicator.
  f_equal. apply list_fmap_ext. intros i h Hh%list_elem_of_lookup_2.
  destruct (Hv h Hh) as [Hi Hj].
  set (ids := (extend_items (orbital_list c) (d0, d1, d2)).*1.*1).
  destruct id_pc as [[[j_a j_b] j_c] j_o]. cbn [fst snd] in *.
  assert (∀ x : nat * id_pc_t, x ∈ enumerate ids →
            hop_j (index (replica_hopping (d0, d1, d2) (num_orb c) x h))
            = new_index (d0, d1, d2) (num_orb c) (j_a, j_b, j_c, j_o)
            ↔ x.2.1.1.1 = ((j_a - (hop_rn (index h)).1.1) `mod` d0)%Z
              ∧ x.2.1.1.2 = ((j_b - (hop_rn (index h)).1.2) `mod` d1)%Z
              ∧ x.2.1.2 = ((j_c - (hop_rn (index h)).2) `mod` d2)%Z
              ∧ hop_j (index h) = j_o) as Hchar.
  { intros [k' id'] Hx%elem_of_enumerate. cbn [fst snd] in Hx.
    apply extend_ids_lookup in Hx as (Ha' & Hb' & Hc' & Ho' & _).
    rewrite hop_j_replica. cbn [fst snd].
    rewrite <- !wrap_mod_inv by done. split.
    - intros Heq. apply (new_index_inj (orbital_list c)) in Heq; cbn [fst snd];
        try done; try (apply Z.mod_pos_bound; lia).
      by injection Heq as -> -> -> ->.
    - by intros (-> & -> & -> & ->). }
  destruct (decide (hop_j (index h) = j_o)) as [Heq|Hne].
  - set (id0 := (((j_a - (hop_rn (index h)).1.1) `mod` d0)%Z,
                 ((j_b - (hop_rn (index h)).1.2) `mod` d1)%Z,
                 ((j_c - (hop_rn (index h)).2) `mod` d2)%Z,
                 hop_i (index h)) : id_pc_t).
    assert ((new_index (d0, d1, d2) (num_orb c) id0, id0) ∈ enumerate ids) as Hin0.
    { apply elem_of_enumerate. cbn [fst snd]. apply extend_ids_lookup.
      subst id0. cbn [fst snd].
      repeat split; try done; apply Z.mod_pos_bound; lia. }
    apply (length_filter_unique _ _ (new_index (d0, d1, d2) (num_orb c) id0, id0)).
    + apply NoDup_enumerate.
    + done.
    + split; [done|]. by apply Hchar.
    + intros [k' [[[i_a i_b] i_c] i_o]] Hx [Hq1 Hq2].
      apply Hchar in Hq2 as (Hqa & Hqb & Hqc & _); [|done].
      cbn [fst snd] in *. subst i_a i_b i_c i_o.
      apply elem_of_enumerate in Hx. cbn [fst snd] in Hx.
      apply extend_ids_lookup in Hx as (_ & _ & _ & _ & ->). done.
  - rewrite filter_none; [done|].
    intros x Hx [_ Hq]. apply Hchar in Hq as (_ & _ & _ & Hq); done.
Qed.

Lemma extend_degree c d0 d1 d2 (id_pc : id_pc_t) :
  valid_cell c →
  (0 ≤ id_pc.1.1.1 < d0)%Z → (0 ≤ id_pc.1.1.2 < d1)%Z → (0 ≤ id_pc.1.2 < d2)%Z →
  id_pc.2 < num_orb c →
  degree (hopping_list (extend_result c (d0, d1, d2)))
         (new_index (d0, d1, d2) (num_orb c) id_pc)
  = degree (hopping_list c) id_pc.2.
Proof.
  intros Hv Ha Hb Hc Ho. rewrite hopping_list_extend_result. unfold degree.
  by rewrite extend_out_count, extend_in_count.
Qed.

End ExtendDegreeCount.

Section ExtendDegreeTheorems.

Context {R : Type} `{Float64 R} {E : Type}.
Implicit Types (c : @PrimitiveCell R E) (h : @Hopping E).

(** X19 (extend_prim_cell, degrees).  Extending a valid cell keeps the
    degree of every orbital: each replica occurs as often as an endpoint of
    a hopping term of the extended cell as its orbital does in the original
    cell, since every original term leaves each replica of its source once
    and reaches each replica of its destination once. *)
Theorem extend_preserves_degree c na nb nc :
  (1 ≤ na)%Z → (1 ≤ nb)%Z → (1 ≤ nc)%Z → valid_cell c →
  ∃ c', extend_prim_cell c [na; nb; nc] = Ok c'
    ∧ ∀ i_a i_b i_c i_o,
        (0 ≤ i_a < na)%Z → (0 ≤ i_b < nb)%Z → (0 ≤ i_c < nc)%Z →
        i_o < num_orb c →
        degree (hopping_list c')
               (new_index (na, nb, nc) (num_orb c) (i_a, i_b, i_c, i_o))
        = degree (hopping_list c) i_o.
Proof.
  intros H0 H1 H2 Hv. exists (extend_result c (na, nb, nc)).
  split; [by apply extend_prim_cell_eq|].
  intros i_a i_b i_c i_o Ha Hb Hc Ho.
  by apply (extend_degree c na nb nc (i_a, i_b, i_c, i_o)).
Qed.

(** X20 (extend_prim_cell then trim_prim_cell).  When every orbital of a
    valid cell occurs at least twice as an endpoint of a hopping term, the
    same holds in every extension of it, so trimming an extended cell
    removes nothing and returns it as it is (counters assumed not to
    overflow). *)
Theorem extend_then_trim_noop c na nb nc :
  (1 ≤ na)%Z → (1 ≤ nb)%Z → (1 ≤ nc)%Z → valid_cell c →
  (∀ i_o, i_o < num_orb c → 2 ≤ degree (hopping_list c) i_o) →
  (2 * (na * nb * nc * Z.of_nat (length (hopping_list c))) < 2 ^ 31)%Z →
  ∃ c', extend_prim_cell c [na; nb; nc] = Ok c' ∧ trim_prim_cell c' = Ok c'.
Proof.
  intros H0 H1 H2 Hv Hdeg Hsmall. exists (extend_result c (na, nb, nc)).
  split; [by apply extend_prim_cell_eq|].
  pose proof (extend_result_valid c na nb nc H0 H1 H2 (valid_no_dangling c Hv))
    as Hv'.
  assert (2 * Z.of_nat (length (hopping_list (extend_result c (na, nb, nc))))
          < 2 ^ 31)%Z as Hsmall'.
  { rewrite hopping_list_extend_result, (length_extend_hops c na nb nc Hv). nia. }
  destruct (trim_prim_cell_eq _ Hv') as (c0 & Ht & _ & _ & _ & Hnil).
  rewrite Ht, Hnil; [done|].
  apply filter_none. intros k Hk%elem_of_seq.
  rewrite trim_selected by done.
  rewrite num_orb_extend_result in Hk.
  assert (is_Some ((extend_items (orbital_list c) (na, nb, nc)).*1.*1 !! k))
    as [id_pc Hid].
  { apply lookup_lt_is_Some. rewrite !length_fmap. lia. }
  apply extend_ids_lookup in Hid as (Ha & Hb & Hc & Ho & ->).
  fold (num_orb c). rewrite (extend_degree c na nb nc id_pc) by done.
  specialize (Hdeg id_pc.2 Ho). lia.
Qed.

End ExtendDegreeTheorems.

Lemma extend_preserves_degree_witness :
  valid_cell graphene_diamond
  ∧ ∃ c', extend_prim_cell graphene_diamond [2; 2; 1]%Z = Ok c'
      ∧ degree (hopping_list c')
               (new_index (2, 2, 1)%Z (num_orb graphene_diamond)
                          (1%Z, 0%Z, 0%Z, 1))
        = degree (hopping_list graphene_diamond) 1.
Proof.
  split; [apply graphene_diamond_valid|].
  destruct (extend_preserves_degree graphene_diamond 2 2 1)
    as (c' & He & Hd); [lia|lia|lia|apply graphene_diamond_valid|].
  exists c'. split; [exact He|].
  apply (Hd 1%Z 0%Z 0%Z 1); [lia|lia|lia|vm_compute; lia].
Defined.

Lemma extend_then_trim_noop_witness :
  valid_cell graphene_diamond
  ∧ ∃ c', extend_prim_cell graphene_diamond [2; 2; 1]%Z = Ok c'
      ∧ trim_prim_cell c' = Ok c'.
Proof.
  split; [apply graphene_diamond_valid|].
  apply (extend_then_trim_noop graphene_diamond 2 2 1);
    [lia|lia|lia|apply graphene_diamond_valid| |vm_compute; reflexivity].
  intros i_o Hi. destruct i_o as [|[|i_o]].
  - vm_compute. lia.
  - vm_compute. lia.
  - vm_compute in Hi. lia.
Defined.
